(** * A transit network as a directed multigraph, and its route planner

    Shallow embedding of [estacao.py]: the class [TransportGraph] (stations,
    timed and optionally labelled connections, transfer waits), the binary
    heap of Python's [heapq] that the two searches use as their frontier, and
    the searches themselves, [shortest_path] and
    [fastest_route_with_transfers].

    Conventions of the embedding:
    - a Python [float] duration is an exact rational ([Qc]); [float('inf')],
      which the code only produces as the "no path" time and as the default
      of [dict.get], is the constructor [Infinity] of [xtime];
    - a Python [str] is a [string], [Optional[str]] is [option string];
    - a [dict] is a [gmap]; a [list] is a [list];
    - an exception is the constructor [Raise] of [res]; the [while] loops of
      the searches take fuel, and [OutOfFuel] says that the fuel given did
      not suffice. *)

From Stdlib Require Import QArith Qcanon Lqa.
From Stdlib Require OrderedTypeEx.
From stdpp Require Import numbers strings gmap fin_maps list.

Local Open Scope Qc_scope.

(** ** Results of partial computations *)

Inductive exn := ValueError | TypeError | KeyError | IndexError.

Inductive res (A : Type) :=
  | Ret (a : A)
  | Raise (e : exn)
  | OutOfFuel.
Arguments Ret {A} a.
Arguments Raise {A} e.
Arguments OutOfFuel {A}.

#[global] Instance res_ret : MRet res := fun A a => Ret a.
#[global] Instance res_bind : MBind res := fun A B k m =>
  match m with
  | Ret a => k a
  | Raise e => Raise e
  | OutOfFuel => OutOfFuel
  end.

(** [for x in l: st = body(st, x)], with exceptions. *)
Fixpoint for_each {A S} (body : S -> A -> res S) (l : list A) (st : S) : res S :=
  match l with
  | [] => Ret st
  | x :: l' => st' ← body st x; for_each body l' st'
  end.

(** ** Times *)

(** The tolerance [1e-9] of the transfer-aware search. *)
Definition eps : Qc := Q2Qc (1 # 1000000000).

Inductive xtime := Finite (q : Qc) | Infinity.

Definition xlt (a b : xtime) : bool :=
  match a, b with
  | Finite x, Finite y => bool_decide (x < y)
  | Finite _, Infinity => true
  | Infinity, _ => false
  end.

Definition xle (a b : xtime) : Prop :=
  match a, b with
  | _, Infinity => True
  | Finite x, Finite y => x <= y
  | Infinity, Finite _ => False
  end.

(** ** The graph store *)

Record Edge := mkEdge {
  to_station : string;
  time : Qc;
  line : option string
}.

Record TransportGraph := mkGraph {
  adj : gmap string (list Edge);
  transfer_waits : gmap string Qc;
  default_transfer_wait : Qc
}.

Definition new_graph (default_wait : Qc) : TransportGraph :=
  mkGraph ∅ ∅ default_wait.

Definition add_station (g : TransportGraph) (station_id : string)
    (transfer_wait : option Qc) : TransportGraph :=
  let adj1 :=
    match adj g !! station_id with
    | None => <[station_id := []]> (adj g)
    | Some _ => adj g
    end in
  let tw1 :=
    match transfer_wait with
    | Some w => <[station_id := w]> (transfer_waits g)
    | None => transfer_waits g
    end in
  mkGraph adj1 tw1 (default_transfer_wait g).

Definition remove_station (g : TransportGraph) (station_id : string) : TransportGraph :=
  match adj g !! station_id with
  | None => g
  | Some _ =>
      mkGraph
        (filter (fun e => to_station e <> station_id) <$> delete station_id (adj g))
        (delete station_id (transfer_waits g))
        (default_transfer_wait g)
  end.

(** [self.adj[s].append(e)]; a [KeyError] of the source is the map left as it
    is, which [add_connection] never meets, both keys being created first. *)
Definition append_edge (s : string) (e : Edge) (m : gmap string (list Edge)) :
    gmap string (list Edge) :=
  match m !! s with
  | Some es => <[s := es ++ [e]]> m
  | None => m
  end.

Definition add_connection (g : TransportGraph) (from_station to_station : string)
    (t : Qc) (ln : option string) (bidirectional : bool) : TransportGraph :=
  let g1 := match adj g !! from_station with
            | None => add_station g from_station None
            | Some _ => g
            end in
  let g2 := match adj g1 !! to_station with
            | None => add_station g1 to_station None
            | Some _ => g1
            end in
  let adj3 := append_edge from_station (mkEdge to_station t ln) (adj g2) in
  let adj4 := if bidirectional
              then append_edge to_station (mkEdge from_station t ln) adj3
              else adj3 in
  mkGraph adj4 (transfer_waits g2) (default_transfer_wait g2).

(** The test of the comprehensions of [remove_connection]:
    [e.to_station == target and (line is None or e.line == line)]. *)
Definition matches (target : string) (ln : option string) (e : Edge) : bool :=
  bool_decide (to_station e = target) &&
  match ln with
  | None => true
  | Some _ => bool_decide (line e = ln)
  end.

Definition drop_matching (s target : string) (ln : option string)
    (m : gmap string (list Edge)) : gmap string (list Edge) :=
  match m !! s with
  | Some es => <[s := filter (fun e => matches target ln e = false) es]> m
  | None => m
  end.

Definition remove_connection (g : TransportGraph) (from_station to_station : string)
    (ln : option string) (bidirectional : bool) : TransportGraph :=
  let adj1 := drop_matching from_station to_station ln (adj g) in
  let adj2 := if bidirectional
              then drop_matching to_station from_station ln adj1
              else adj1 in
  mkGraph adj2 (transfer_waits g) (default_transfer_wait g).

Definition routes_from (g : TransportGraph) (station_id : string) : list Edge :=
  default [] (adj g !! station_id).

Definition stations (g : TransportGraph) : list string :=
  (map_to_list (adj g)).*1.

(** ** Python's ordering of heap entries

    [heapq] compares entries with [<]. The entries are tuples, which Python
    orders lexicographically: the first pair of components that are not [==]
    is compared with [<], and two tuples equal in every component are not
    [<]. Between [None] and a [str] that comparison raises [TypeError]. *)

Class PyOrd (A : Type) := {
  py_eq : A -> A -> bool;
  py_lt : A -> A -> res bool
}.

#[global] Instance float_PyOrd : PyOrd Qc :=
  {| py_eq x y := bool_decide (x = y);
     py_lt x y := Ret (bool_decide (x < y)) |}.

#[global] Instance str_PyOrd : PyOrd string :=
  {| py_eq x y := bool_decide (x = y);
     py_lt x y := Ret (String.ltb x y) |}.

#[global] Instance int_PyOrd : PyOrd nat :=
  {| py_eq x y := bool_decide (x = y);
     py_lt x y := Ret (bool_decide (x < y)%nat) |}.

#[global] Instance optional_PyOrd `{PyOrd A} : PyOrd (option A) :=
  {| py_eq x y :=
       match x, y with
       | Some a, Some b => py_eq a b
       | None, None => true
       | _, _ => false
       end;
     py_lt x y :=
       match x, y with
       | Some a, Some b => py_lt a b
       | _, _ => Raise TypeError
       end |}.

#[global] Instance tuple_PyOrd `{PyOrd A, PyOrd B} : PyOrd (A * B) :=
  {| py_eq x y := py_eq x.1 y.1 && py_eq x.2 y.2;
     py_lt x y :=
       if py_eq x.1 y.1
       then if py_eq x.2 y.2 then Ret false else py_lt x.2 y.2
       else py_lt x.1 y.1 |}.

(** ** heapq

    The list-based binary heap of CPython's [heapq]: [heappush] appends and
    sifts the new entry towards the root, [heappop] moves the last entry to
    the root, lets it sink to a leaf along the smaller children and sifts it
    back. *)

(** [(pos - 1) >> 1], the position of the parent of [pos]. *)
Definition parent_of (pos : nat) : nat := Nat.shiftr (pos - 1) 1.
Arguments parent_of : simpl never.

Section heapq.
Context `{PyOrd A}.

(** The [while pos > startpos] loop of [_siftdown]. [pos] decreases at each
    turn, so [pos] turns of fuel reach the end of the loop. *)
Fixpoint siftdown_loop (n : nat) (heap : list A) (startpos pos : nat) (newitem : A) :
    res (list A) :=
  match n with
  | 0 => Ret (<[pos := newitem]> heap)
  | S n' =>
      if decide (startpos < pos)%nat then
        let parentpos := parent_of pos in
        match heap !! parentpos with
        | None => Raise IndexError
        | Some parent =>
            b ← py_lt newitem parent;
            if b : bool
            then siftdown_loop n' (<[pos := parent]> heap) startpos parentpos newitem
            else Ret (<[pos := newitem]> heap)
        end
      else Ret (<[pos := newitem]> heap)
  end.

Definition _siftdown (heap : list A) (startpos pos : nat) : res (list A) :=
  match heap !! pos with
  | None => Raise IndexError
  | Some newitem => siftdown_loop pos heap startpos pos newitem
  end.

(** The [while childpos < endpos] loop of [_siftup]: the smaller child
    moves up until a leaf is reached; returns the heap and the leaf. *)
Fixpoint siftup_loop (n : nat) (heap : list A) (endpos pos : nat) : res (list A * nat) :=
  match n with
  | 0 => Ret (heap, pos)
  | S n' =>
      let childpos := (2 * pos + 1)%nat in
      if decide (childpos < endpos)%nat then
        let rightpos := (childpos + 1)%nat in
        c ← (if decide (rightpos < endpos)%nat then
               match heap !! childpos, heap !! rightpos with
               | Some l, Some r =>
                   b ← py_lt l r;
                   Ret (if negb b then rightpos else childpos)
               | _, _ => Raise IndexError
               end
             else Ret childpos);
        match heap !! c with
        | None => Raise IndexError
        | Some x => siftup_loop n' (<[pos := x]> heap) endpos c
        end
      else Ret (heap, pos)
  end.

Definition _siftup (heap : list A) (pos : nat) : res (list A) :=
  match heap !! pos with
  | None => Raise IndexError
  | Some newitem =>
      '(heap1, leaf) ← siftup_loop (length heap) heap (length heap) pos;
      _siftdown (<[leaf := newitem]> heap1) pos leaf
  end.

Definition heappush (heap : list A) (item : A) : res (list A) :=
  _siftdown (heap ++ [item]) 0 (length heap).

Definition heappop (heap : list A) : res (A * list A) :=
  match heap !! (length heap - 1)%nat with
  | None => Raise IndexError
  | Some lastelt =>
      match take (length heap - 1) heap with
      | [] => Ret (lastelt, [])
      | returnitem :: rest =>
          heap' ← _siftup (lastelt :: rest) 0;
          Ret (returnitem, heap')
      end
  end.
End heapq.

(** ** Least-total-time search: [shortest_path] *)

(** A frontier entry [(time_so_far, station, prev_station, line_used)]. *)
Definition sp_entry : Type := Qc * string * option string * option string.

Definition path_t : Type := list (string * option string).

(** The body of [for e in self.adj.get(cur, [])]. *)
Definition sp_relax (time_so_far : Qc) (cur : string)
    (st : list sp_entry * gmap string Qc) (e : Edge) :
    res (list sp_entry * gmap string Qc) :=
  let '(pq, dist) := st in
  let nxt := to_station e in
  let new_time := time_so_far + time e in
  if match dist !! nxt with
     | None => true
     | Some d => bool_decide (new_time < d)
     end
  then
    pq' ← heappush pq (new_time, nxt, Some cur, line e);
    Ret (pq', <[nxt := new_time]> dist)
  else Ret (pq, dist).

(** The [while pq] loop; returns [dist] and [prev] as the loop leaves them. *)
Fixpoint sp_loop (fuel : nat) (g : TransportGraph) (dst : string)
    (pq : list sp_entry) (dist : gmap string Qc)
    (prev : gmap string (option string * option string)) :
    res (gmap string Qc * gmap string (option string * option string)) :=
  match fuel with
  | 0 => OutOfFuel
  | S fuel' =>
      match pq with
      | [] => Ret (dist, prev)
      | _ =>
          '(time_so_far, cur, prev_station, line_used, pq1) ← heappop pq;
          match prev !! cur with
          | Some _ => sp_loop fuel' g dst pq1 dist prev
          | None =>
              let prev1 := <[cur := (prev_station, line_used)]> prev in
              if decide (cur = dst) then Ret (dist, prev1)
              else
                '(pq2, dist2) ← for_each (sp_relax time_so_far cur)
                                  (default [] (adj g !! cur)) (pq1, dist);
                sp_loop fuel' g dst pq2 dist2 prev1
          end
      end
  end.

(** The [while cur is not None] loop that walks the predecessor links; the
    path is built from [dst] backwards. *)
Fixpoint sp_walk (fuel : nat) (prev : gmap string (option string * option string))
    (cur : option string) (path : path_t) : res path_t :=
  match cur with
  | None => Ret path
  | Some c =>
      match fuel with
      | 0 => OutOfFuel
      | S fuel' =>
          match prev !! c with
          | None => Raise KeyError
          | Some (p, l) => sp_walk fuel' prev p (path ++ [(c, l)])
          end
      end
  end.

Definition shortest_path_fuel (fuel : nat) (g : TransportGraph) (src dst : string) :
    res (xtime * path_t) :=
  match adj g !! src, adj g !! dst with
  | Some _, Some _ =>
      pq ← heappush [] (0, src, None, None);
      '(dist, prev) ← sp_loop fuel g dst pq {[src := 0]} ∅;
      match prev !! dst with
      | None => Ret (Infinity, [])
      | Some _ =>
          path ← sp_walk fuel prev (Some dst) [];
          match dist !! dst with
          | None => Raise KeyError
          | Some d => Ret (Finite d, reverse path)
          end
      end
  | _, _ => Raise ValueError
  end.

(** Every turn of the loop pops an entry, and only the first pop of a
    station pushes, one entry per outgoing edge at most: one turn per edge,
    one for the seed and one to see the frontier empty are enough. *)
Definition edge_count (g : TransportGraph) : nat :=
  map_fold (fun _ es n => (length es + n)%nat) 0%nat (adj g).

Definition sp_fuel (g : TransportGraph) : nat := S (S (edge_count g)).

Definition shortest_path (g : TransportGraph) (src dst : string) : res (xtime * path_t) :=
  shortest_path_fuel (sp_fuel g) g src dst.

(** ** Reachability: [is_reachable] *)

(** The stack is held top first: [stack.append(x)] is [x :: stack] and
    [stack.pop()] takes the head. *)
Definition ir_push (visited : gset string) (stack : list string) (e : Edge) :
    list string :=
  if decide (to_station e ∈ visited) then stack else to_station e :: stack.

Fixpoint ir_loop (fuel : nat) (g : TransportGraph) (dst : string)
    (visited : gset string) (stack : list string) : res bool :=
  match fuel with
  | O => OutOfFuel
  | S fuel =>
      match stack with
      | [] => Ret false
      | cur :: stack =>
          if decide (cur = dst) then Ret true
          else if decide (cur ∈ visited) then ir_loop fuel g dst visited stack
          else
            let visited := {[cur]} ∪ visited in
            ir_loop fuel g dst visited
              (foldl (ir_push visited) stack (routes_from g cur))
      end
  end.

Definition is_reachable_fuel (fuel : nat) (g : TransportGraph) (src dst : string) :
    res bool :=
  match adj g !! src, adj g !! dst with
  | Some _, Some _ => ir_loop fuel g dst ∅ [src]
  | _, _ => Ret false
  end.

(** Every turn pops a station, and only the first pop of a station pushes,
    one station per outgoing edge at most: the bound of [shortest_path]
    serves here too. *)
Definition is_reachable (g : TransportGraph) (src dst : string) : res bool :=
  is_reachable_fuel (sp_fuel g) g src dst.

(** ** Transfer-aware search: [fastest_route_with_transfers] *)

(** A search state [(station, current_line, transfers_used)]. *)
Definition fr_key : Type := string * option string * nat.

(** A frontier entry [(time_so_far, station, current_line, transfers_used)]. *)
Definition fr_entry : Type := Qc * string * option string * nat.

Definition best_get (best : gmap fr_key Qc) (k : fr_key) : xtime :=
  match best !! k with
  | Some b => Finite b
  | None => Infinity
  end.

(** [self.transfer_waits.get(cur, self.default_transfer_wait)] *)
Definition wait_at (g : TransportGraph) (cur : string) : Qc :=
  default (default_transfer_wait g) (transfer_waits g !! cur).

(** The wait added and the transfer count after taking an edge of line
    [edge_line] out of [cur], having arrived there on [cur_line]. *)
Definition transfer_step (g : TransportGraph) (cur : string) (cur_line : option string)
    (transfers_used : nat) (edge_line : option string) : Qc * nat :=
  match cur_line with
  | None => (0, transfers_used)
  | Some _ =>
      if bool_decide (edge_line <> None) && bool_decide (cur_line <> edge_line)
      then (wait_at g cur, (transfers_used + 1)%nat)
      else (0, transfers_used)
  end.

Definition over_cap (max_transfers : option Z) (new_transfers : nat) : bool :=
  match max_transfers with
  | Some m => bool_decide (m < Z.of_nat new_transfers)%Z
  | None => false
  end.

Definition fr_state : Type :=
  list fr_entry * gmap fr_key Qc * gmap fr_key (fr_key * option string).

(** The body of [for e in self.adj.get(cur, [])]. *)
Definition fr_relax (g : TransportGraph) (max_transfers : option Z)
    (time_so_far : Qc) (cur : string) (cur_line : option string) (transfers_used : nat)
    (st : fr_state) (e : Edge) : res fr_state :=
  let '(pq, best, parent) := st in
  let nxt := to_station e in
  let edge_line := line e in
  let travel_time := time e in
  let '(added_wait, new_transfers) :=
    transfer_step g cur cur_line transfers_used edge_line in
  let new_time := time_so_far + added_wait + travel_time in
  if over_cap max_transfers new_transfers then Ret st
  else
    let new_key := (nxt, edge_line, new_transfers) in
    if xlt (Finite (new_time + eps)) (best_get best new_key) then
      pq' ← heappush pq (new_time, nxt, edge_line, new_transfers);
      Ret (pq', <[new_key := new_time]> best,
           <[new_key := ((cur, cur_line, transfers_used), edge_line)]> parent)
    else Ret st.

(** The [while k in parent] loop of the reconstruction. *)
Fixpoint fr_walk (fuel : nat) (parent : gmap fr_key (fr_key * option string))
    (k : fr_key) (path_states : path_t) : res path_t :=
  match parent !! k with
  | None => Ret path_states
  | Some (prev_k, line_used) =>
      match fuel with
      | 0 => OutOfFuel
      | S fuel' => fr_walk fuel' parent prev_k (path_states ++ [(k.1.1, line_used)])
      end
  end.

Fixpoint fr_loop (fuel : nat) (g : TransportGraph) (src dst : string)
    (max_transfers : option Z) (st : fr_state) : res (xtime * path_t) :=
  match fuel with
  | 0 => OutOfFuel
  | S fuel' =>
      let '(pq, best, parent) := st in
      match pq with
      | [] => Ret (Infinity, [])
      | _ =>
          '(time_so_far, cur, cur_line, transfers_used, pq1) ← heappop pq;
          let key := (cur, cur_line, transfers_used) in
          if xlt (best_get best key) (Finite (time_so_far - eps))
          then fr_loop fuel' g src dst max_transfers (pq1, best, parent)
          else if decide (cur = dst) then
            path_states ← fr_walk fuel' parent key [];
            Ret (Finite time_so_far, reverse (path_states ++ [(src, None)]))
          else
            st2 ← for_each (fr_relax g max_transfers time_so_far cur cur_line transfers_used)
                    (default [] (adj g !! cur)) (pq1, best, parent);
            fr_loop fuel' g src dst max_transfers st2
      end
  end.

Definition fastest_route_with_transfers (fuel : nat) (g : TransportGraph)
    (src dst : string) (max_transfers : option Z) : res (xtime * path_t) :=
  match adj g !! src, adj g !! dst with
  | Some _, Some _ =>
      pq ← heappush [] (0, src, None, 0%nat);
      fr_loop fuel g src dst max_transfers (pq, {[(src, None, 0%nat) := 0]}, ∅)
  | _, _ => Raise ValueError
  end.

(** ** The scenario of the two lines *)

Definition two_lines : TransportGraph :=
  add_connection
    (add_connection (new_graph (Q2Qc 4)) "A" "B" (Q2Qc 5) (Some "1") true)
    "B" "C" (Q2Qc 5) (Some "2") true.

(** ** Mutations of the store and referential integrity *)

Inductive mutation :=
  | AddStation (station_id : string) (transfer_wait : option Qc)
  | RemoveStation (station_id : string)
  | AddConnection (from_station to_station : string) (t : Qc) (ln : option string)
      (bidirectional : bool)
  | RemoveConnection (from_station to_station : string) (ln : option string)
      (bidirectional : bool).

Definition mutate (g : TransportGraph) (m : mutation) : TransportGraph :=
  match m with
  | AddStation s w => add_station g s w
  | RemoveStation s => remove_station g s
  | AddConnection a b t ln bi => add_connection g a b t ln bi
  | RemoveConnection a b ln bi => remove_connection g a b ln bi
  end.

(** Every destination of a stored edge is a key of the adjacency mapping. *)
Definition ref_integrity (g : TransportGraph) : Prop :=
  forall s es e, adj g !! s = Some es -> e ∈ es -> is_Some (adj g !! to_station e).

(** The adjacency mapping once both endpoints of a new connection exist. *)
Definition with_endpoints (g : TransportGraph) (a b : string) : gmap string (list Edge) :=
  let g1 := match adj g !! a with
            | None => add_station g a None
            | Some _ => g
            end in
  adj (match adj g1 !! b with
       | None => add_station g1 b None
       | Some _ => g1
       end).

(** Adding a connection both ways and removing it both ways leaves the
    outgoing edges of every station of [g] as they were. *)
Definition round_trip (g : TransportGraph) (a b : string) (t : Qc) (ln : option string) : Prop :=
  forall s,
    routes_from (remove_connection (add_connection g a b t ln true) a b ln true) s
    = routes_from g s.

(** ** Further networks *)

(** A labelled line into B, a walk from B to C, another line out of C. *)
Definition with_walk : TransportGraph :=
  add_connection
    (add_connection
       (add_connection (new_graph (Q2Qc 4)) "A" "B" (Q2Qc 5) (Some "1") false)
       "B" "C" (Q2Qc 5) None false)
    "C" "D" (Q2Qc 5) (Some "2") false.

(** A walk and a line between the same two stations, of the same duration. *)
Definition walk_or_ride : TransportGraph :=
  add_connection
    (add_connection (new_graph (Q2Qc 4)) "A" "B" (Q2Qc 5) None true)
    "A" "B" (Q2Qc 5) (Some "1") true.

(** Two stations joined by line 1 one way and line 2 the other way, and a
    third station that no connection reaches. *)
Definition ring : TransportGraph :=
  add_station
    (add_connection
       (add_connection (new_graph (Q2Qc 4)) "A" "B" (Q2Qc 5) (Some "1") false)
       "B" "A" (Q2Qc 5) (Some "2") false)
    "C" None.

(** A step out of [cur] is charged the wait of the station. *)
Definition charges_wait (g : TransportGraph) (cur : string)
    (cur_line edge_line : option string) : Prop :=
  (transfer_step g cur cur_line 0 edge_line).1 = wait_at g cur.

(** ** Non-negative durations and waits *)

Definition nonneg_durations (g : TransportGraph) : Prop :=
  map_Forall (fun _ es => Forall (fun e => 0 <= time e) es) (adj g).

Definition nonneg_waits (g : TransportGraph) : Prop :=
  map_Forall (fun _ w => 0 <= w) (transfer_waits g)
  ∧ 0 <= default_transfer_wait g.

Definition nonneg (g : TransportGraph) : Prop :=
  nonneg_durations g ∧ nonneg_waits g.

(** ** The frontier of the search on [ring]

    After the first turn the frontier holds one entry, for B on line 1 or
    for A on line 2, with a transfer count that no recorded state exceeds. *)
Definition ring_inv (st : fr_state) : Prop :=
  exists (t : Qc) (s l : string) (n : nat),
    st.1.1 = [(t, s, Some l, n)]
    ∧ ((s = "A" ∧ l = "2") ∨ (s = "B" ∧ l = "1"))
    ∧ best_get st.1.2 (s, Some l, n) = Finite t
    ∧ forall k : fr_key, (n < k.2)%nat -> best_get st.1.2 k = Infinity.

(** ** The shape of a heap

    Position [i > 0] of the list has its parent at [(i - 1) >> 1]. The list
    is a heap for an order [le] when no entry is below its parent. While an
    entry travels, the order holds everywhere but at its position. *)

Definition heap_ok {A} (le : A -> A -> Prop) (h : list A) : Prop :=
  forall i x y, (0 < i)%nat ->
    h !! i = Some y -> h !! parent_of i = Some x -> le x y.

(** The order holds but between [pos] and its parent; the children of [pos]
    are not below the parent of [pos]. *)
Definition heap_except {A} (le : A -> A -> Prop) (h : list A) (pos : nat) : Prop :=
  (forall i x y, (0 < i)%nat -> i <> pos ->
     h !! i = Some y -> h !! parent_of i = Some x -> le x y)
  ∧ (forall i x y, (0 < pos)%nat -> (0 < i)%nat -> parent_of i = pos ->
       h !! i = Some y -> h !! parent_of pos = Some x -> le x y).

(** The entry at [pos] is a hole: the order holds between the other
    entries, and the children of [pos] are not below the parent of [pos]. *)
Definition heap_hole {A} (le : A -> A -> Prop) (h : list A) (pos : nat) : Prop :=
  (forall i x y, (0 < i)%nat -> i <> pos -> parent_of i <> pos ->
     h !! i = Some y -> h !! parent_of i = Some x -> le x y)
  ∧ (forall i x y, (0 < pos)%nat -> (0 < i)%nat -> parent_of i = pos ->
       h !! i = Some y -> h !! parent_of pos = Some x -> le x y).

(** Two entries that Python can compare. *)
Definition comparable `{PyOrd A} (x y : A) : Prop := exists b, py_lt x y = Ret b.

Definition all_comparable `{PyOrd A} (l : list A) : Prop :=
  forall x y, x ∈ l -> y ∈ l -> comparable x y.

(** ** Routes in the network *)

(** A route from [a]: no edge, or a route followed by an edge out of the
    station it ends in. *)
Inductive route (g : TransportGraph) (a : string) : list Edge -> string -> Prop :=
  | route_nil : route g a [] a
  | route_snoc es b e :
      route g a es b -> e ∈ routes_from g b -> route g a (es ++ [e]) (to_station e).

Definition total_time (es : list Edge) : Qc :=
  foldr (fun e acc => time e + acc) 0 es.

(** ** The state of [shortest_path] between two turns of its loop *)

Definition sp_time (x : sp_entry) : Qc := x.1.1.1.
Definition sp_station (x : sp_entry) : string := x.1.1.2.
Definition sp_pred (x : sp_entry) : option string := x.1.2.

Definition sp_le (x y : sp_entry) : Prop := sp_time x <= sp_time y.

(** The out-degrees of the stations not yet finalized. *)
Definition pending (g : TransportGraph)
    (prev : gmap string (option string * option string)) : nat :=
  map_fold (fun s es n => match prev !! s with
                          | Some _ => n
                          | None => (length es + n)%nat
                          end) 0%nat (adj g).

Record sp_inv (g : TransportGraph) (src dst : string) (pq : list sp_entry)
    (dist : gmap string Qc) (prev : gmap string (option string * option string)) :
    Prop := {
  sp_heap : heap_ok sp_le pq;
  sp_known : forall x, x ∈ pq ->
    exists d, dist !! sp_station x = Some d ∧ d <= sp_time x;
  sp_queued : forall s d, dist !! s = Some d -> prev !! s = None ->
    exists x, x ∈ pq ∧ sp_station x = s ∧ sp_time x = d;
  sp_relaxed : forall u du e,
    is_Some (prev !! u) -> dist !! u = Some du -> e ∈ routes_from g u ->
    exists dv, dist !! to_station e = Some dv ∧ dv <= du + time e;
  sp_final : forall u, is_Some (prev !! u) ->
    exists du, dist !! u = Some du ∧ forall x, x ∈ pq -> du <= sp_time x;
  sp_src : dist !! src = Some 0;
  sp_real : forall s d, dist !! s = Some d ->
    exists es, route g src es s ∧ total_time es = d;
  sp_pos : forall x, x ∈ pq -> 0 <= sp_time x;
  sp_distinct : forall x y, x ∈ pq -> y ∈ pq ->
    sp_time x = sp_time y -> sp_station x = sp_station y -> x = y;
  sp_links : forall x p, x ∈ pq -> sp_pred x = Some p -> is_Some (prev !! p);
  sp_chain : forall s p l, prev !! s = Some (Some p, l) -> is_Some (prev !! p);
  sp_walks : forall s path, is_Some (prev !! s) ->
    exists r, sp_walk (size prev) prev (Some s) path = Ret r;
  sp_undone : prev !! dst = None;
  sp_budget : (size prev + length pq + pending g prev <= S (edge_count g))%nat
}.

(** The state while the edges out of [cur], finalized at time [t], are
    relaxed. *)
Record sp_mid (g : TransportGraph) (src : string) (cur : string) (t : Qc)
    (prev : gmap string (option string * option string))
    (pq : list sp_entry) (dist : gmap string Qc) : Prop := {
  mid_heap : heap_ok sp_le pq;
  mid_known : forall x, x ∈ pq ->
    exists d, dist !! sp_station x = Some d ∧ d <= sp_time x;
  mid_queued : forall s d, dist !! s = Some d -> prev !! s = None ->
    exists x, x ∈ pq ∧ sp_station x = s ∧ sp_time x = d;
  mid_relaxed : forall u du e,
    is_Some (prev !! u) -> u <> cur -> dist !! u = Some du -> e ∈ routes_from g u ->
    exists dv, dist !! to_station e = Some dv ∧ dv <= du + time e;
  mid_low : forall u, is_Some (prev !! u) -> exists du, dist !! u = Some du ∧ du <= t;
  mid_high : forall x, x ∈ pq -> t <= sp_time x;
  mid_cur : dist !! cur = Some t;
  mid_tpos : 0 <= t;
  mid_src : dist !! src = Some 0;
  mid_real : forall s d, dist !! s = Some d ->
    exists es, route g src es s ∧ total_time es = d;
  mid_distinct : forall x y, x ∈ pq -> y ∈ pq ->
    sp_time x = sp_time y -> sp_station x = sp_station y -> x = y;
  mid_links : forall x p, x ∈ pq -> sp_pred x = Some p -> is_Some (prev !! p)
}.

(** What the loop leaves behind: links that can be walked, and, for the
    destination, the least time of a route if it was finalized and the
    absence of any route if it was not. *)
Definition sp_post (g : TransportGraph) (src dst : string)
    (dist : gmap string Qc) (prev : gmap string (option string * option string)) :
    Prop :=
  (forall s path, is_Some (prev !! s) ->
     exists r, sp_walk (size prev) prev (Some s) path = Ret r)
  ∧ (size prev <= S (edge_count g))%nat
  ∧ match prev !! dst with
    | Some _ =>
        exists d, dist !! dst = Some d
          ∧ (exists es, route g src es dst ∧ total_time es = d)
          ∧ forall es, route g src es dst -> d <= total_time es
    | None => forall es, ~ route g src es dst
    end.

(** ** The order Python puts on the entries, as a comparison

    Where Python compares two entries without raising, the answer is that
    of the lexicographic comparison below, in which an absent line comes
    before a present one. *)

Definition lex_cmp {A B} (c1 : A -> A -> comparison) (c2 : B -> B -> comparison)
    (x y : A * B) : comparison :=
  match c1 x.1 y.1 with
  | Eq => c2 x.2 y.2
  | r => r
  end.

Definition opt_cmp {A} (c : A -> A -> comparison) (x y : option A) : comparison :=
  match x, y with
  | None, None => Eq
  | None, Some _ => Lt
  | Some _, None => Gt
  | Some a, Some b => c a b
  end.

Definition cmp_le {A} (c : A -> A -> comparison) (x y : A) : Prop := c x y <> Gt.

Class GoodCmp {A} (c : A -> A -> comparison) : Prop := {
  cmp_eq_iff : forall x y, c x y = Eq <-> x = y;
  cmp_opp : forall x y, c y x = CompOpp (c x y);
  cmp_lt_trans : forall x y z, c x y = Lt -> c y z = Lt -> c x z = Lt
}.

(** [c] gives the answers of [==] and of [<] wherever [<] gives one. *)
Class PyAgree {A} `{PyOrd A} (c : A -> A -> comparison) : Prop := {
  py_eq_iff : forall x y, py_eq x y = true <-> x = y;
  py_lt_cmp : forall x y b, py_lt x y = Ret b -> (b = true <-> c x y = Lt)
}.

Definition fr_cmp : fr_entry -> fr_entry -> comparison :=
  lex_cmp (lex_cmp (lex_cmp Qccompare String.compare) (opt_cmp String.compare))
    Nat.compare.

Definition fr_le : fr_entry -> fr_entry -> Prop := cmp_le fr_cmp.

Definition fr_time (x : fr_entry) : Qc := x.1.1.1.
Definition fr_transfers (x : fr_entry) : nat := x.2.

(** ** Two runs of the transfer-aware search, under caps [k] and [k + 1]

    The run under cap [k] sees the states of at most [k] transfers of the
    run under cap [k + 1]: the same frontier entries and the same best
    times. *)
Record fr_sim (k : nat) (st st' : fr_state) : Prop := {
  sim_heap : heap_ok fr_le st.1.1;
  sim_heap' : heap_ok fr_le st'.1.1;
  sim_pq : st.1.1 ≡ₚ filter (fun x => (fr_transfers x <= k)%nat) st'.1.1;
  sim_best : forall key : fr_key, (key.2 <= k)%nat ->
    best_get st.1.2 key = best_get st'.1.2 key
}.

(** ** Further properties of the store *)

(** Every station with a transfer-wait override is a station. *)
Definition waits_known (g : TransportGraph) : Prop :=
  forall s w, transfer_waits g !! s = Some w -> is_Some (adj g !! s).

(** A mutation whose duration or wait, if it has one, is not negative. *)
Definition nonneg_mutation (m : mutation) : Prop :=
  match m with
  | AddStation _ (Some w) => 0 <= w
  | AddConnection _ _ t _ _ => 0 <= t
  | _ => True
  end.

(** The edges out of [s] that [remove_connection] deletes. *)
Definition selected (a b : string) (ln : option string) (bi : bool) (s : string)
    (e : Edge) : Prop :=
  (a = s ∧ matches b ln e = true) ∨ (bi = true ∧ b = s ∧ matches a ln e = true).

(** ** The state of [is_reachable] between two turns of its loop *)

Definition seen (visited : gset string) :
    gmap string (option string * option string) :=
  gset_to_gmap (None, None) visited.

Record ir_inv (g : TransportGraph) (src dst : string) (visited : gset string)
    (stack : list string) : Prop := {
  ir_real : forall s, s ∈ stack -> exists es, route g src es s;
  ir_undone : dst ∉ visited;
  ir_closed : forall v e, v ∈ visited -> e ∈ routes_from g v ->
    to_station e ∈ visited ∨ to_station e ∈ stack;
  ir_src : src ∈ visited ∨ src ∈ stack
}.

(** ** The links of [shortest_path] *)

(** What ties station [s], reached at time [t] with predecessor [p] and
    line [l], to the edge it was reached by: the seed has no predecessor,
    and any other entry extends a finalized station by one of its edges. *)
Definition sp_link (g : TransportGraph) (src : string) (dist : gmap string Qc)
    (prev : gmap string (option string * option string))
    (t : Qc) (s : string) (p l : option string) : Prop :=
  match p with
  | None => s = src ∧ l = None ∧ t = 0
  | Some p' =>
      exists e dp, is_Some (prev !! p') ∧ dist !! p' = Some dp
        ∧ e ∈ routes_from g p' ∧ to_station e = s ∧ line e = l
        ∧ t = dp + time e
  end.

Record sp_links_ok (g : TransportGraph) (src : string) (pq : list sp_entry)
    (dist : gmap string Qc) (prev : gmap string (option string * option string)) :
    Prop := {
  lk_pq : forall x, x ∈ pq ->
    sp_link g src dist prev (sp_time x) (sp_station x) (sp_pred x) x.2;
  lk_prev : forall s p l, prev !! s = Some (p, l) ->
    exists t, dist !! s = Some t ∧ sp_link g src dist prev t s p l
}.

(** The stations of a route from [src], each with the line it is reached
    by, as the searches list them. *)
Definition trace (src : string) (es : list Edge) : path_t :=
  (src, None) :: map (fun e => (to_station e, line e)) es.

(** ** Two-way stores *)

(** Every edge has its reverse, of the same duration and line. *)
Definition symmetric (g : TransportGraph) : Prop :=
  forall a e, e ∈ routes_from g a ->
    mkEdge a (time e) (line e) ∈ routes_from g (to_station e).

(** A mutation that, if it adds or removes a connection, does so in both
    directions, as the default [bidirectional=True] has it. *)
Definition two_way (m : mutation) : Prop :=
  match m with
  | AddConnection _ _ _ _ bi => bi = true
  | RemoveConnection _ _ _ bi => bi = true
  | _ => True
  end.

(** ** Journeys *)

(** A journey from [src]: the edges taken, the search state it ends in,
    [(station, line arrived on, transfers used)], and the time it takes,
    counted edge by edge as the relaxation of [fastest_route_with_transfers]
    counts it. *)
Inductive journey (g : TransportGraph) (src : string) :
    list Edge -> fr_key -> Qc -> Prop :=
  | journey_nil : journey g src [] (src, None, 0%nat) 0
  | journey_snoc es cur cl n t e :
      journey g src es (cur, cl, n) t -> e ∈ routes_from g cur ->
      journey g src (es ++ [e])
        (to_station e, line e, (transfer_step g cur cl n (line e)).2)
        (t + (transfer_step g cur cl n (line e)).1 + time e).

(** Every entry of the frontier is the end of a journey, which is empty or
    within the cap. *)
Definition fr_journeys (g : TransportGraph) (src : string) (mt : option Z)
    (pq : list fr_entry) : Prop :=
  forall t s l n, (t, s, l, n) ∈ pq ->
    exists es, journey g src es (s, l, n) t ∧ (es = [] ∨ over_cap mt n = false).

(** ** The states the transfer-aware search has dealt with *)

(** The state that edge [e] leads to from state [k]. *)
Definition fr_step (g : TransportGraph) (k : fr_key) (e : Edge) : fr_key :=
  (to_station e, line e, (transfer_step g k.1.1 k.1.2 k.2 (line e)).2).

(** State [k] has had its edges relaxed: it is not at the destination, and
    each of its edges within the cap leads to a state that has a best time. *)
Definition fr_expanded (g : TransportGraph) (dst : string) (mt : option Z)
    (best : gmap fr_key Qc) (k : fr_key) : Prop :=
  k.1.1 <> dst
  ∧ forall e, e ∈ routes_from g k.1.1 -> over_cap mt (fr_step g k e).2 = false ->
      best_get best (fr_step g k e) <> Infinity.

(** Every state that has a best time is on the frontier with that time, or
    has had its edges relaxed. *)
Definition fr_explored (g : TransportGraph) (dst : string) (mt : option Z)
    (pq : list fr_entry) (best : gmap fr_key Qc) : Prop :=
  forall k v, best_get best k = Finite v ->
    (v, k.1.1, k.1.2, k.2) ∈ pq ∨ fr_expanded g dst mt best k.

(** The same while the edges [done] out of state [k0] have been relaxed. *)
Definition fr_part (g : TransportGraph) (dst : string) (mt : option Z)
    (k0 : fr_key) (done : list Edge) (pq : list fr_entry)
    (best : gmap fr_key Qc) : Prop :=
  (forall k v, best_get best k = Finite v ->
     (v, k.1.1, k.1.2, k.2) ∈ pq ∨ k = k0 ∨ fr_expanded g dst mt best k)
  ∧ forall e, e ∈ done -> over_cap mt (fr_step g k0 e).2 = false ->
      best_get best (fr_step g k0 e) <> Infinity.

(** ** What keeps [shortest_path] from failing *)

(** The part of the state of [shortest_path] that does not depend on the
    sign of the durations: two entries of a station differ in time, so that
    no comparison goes past the station; links lead to finalized stations;
    every finalized station has a time. *)
Record sp_safe (pq : list sp_entry) (dist : gmap string Qc)
    (prev : gmap string (option string * option string)) : Prop := {
  safe_known : forall x, x ∈ pq ->
    exists d, dist !! sp_station x = Some d ∧ d <= sp_time x;
  safe_distinct : forall x y, x ∈ pq -> y ∈ pq ->
    sp_time x = sp_time y -> sp_station x = sp_station y -> x = y;
  safe_links : forall x p, x ∈ pq -> sp_pred x = Some p -> is_Some (prev !! p);
  safe_chain : forall s p l, prev !! s = Some (Some p, l) -> is_Some (prev !! p);
  safe_walks : forall s path, is_Some (prev !! s) ->
    exists r, sp_walk (size prev) prev (Some s) path = Ret r;
  safe_dist : forall s, is_Some (prev !! s) -> is_Some (dist !! s)
}.

(** ** The state of [fastest_route_with_transfers] between two turns *)

(** The state the search starts in. *)
Definition fr_src (src : string) : fr_key := (src, None, 0%nat).

Definition fr_key_of (x : fr_entry) : fr_key := (x.1.1.2, x.1.2, x.2).

Definition parent_get (parent : gmap fr_key (fr_key * option string))
    (k : fr_key) : option (fr_key * option string) :=
  parent !! k.

(** The time at which edge [e] is left, when state [k] was reached at [v]:
    the [new_time] of the relaxation. *)
Definition fr_arrive (g : TransportGraph) (k : fr_key) (v : Qc) (e : Edge) : Qc :=
  v + (transfer_step g k.1.1 k.1.2 k.2 (line e)).1 + time e.

(** State [k] is settled: it is not at the destination, its best time is
    not above the times on the frontier, and each of its edges within the
    cap leads to a state whose best time the edge does not improve by more
    than the tolerance. *)
Definition fr_settled (g : TransportGraph) (dst : string) (mt : option Z)
    (lb : Qc) (best : gmap fr_key Qc) (k : fr_key) : Prop :=
  k.1.1 <> dst
  ∧ exists v, best_get best k = Finite v ∧ v <= lb
      ∧ forall e, e ∈ routes_from g k.1.1 ->
          over_cap mt (fr_step g k e).2 = false ->
          exists v', best_get best (fr_step g k e) = Finite v'
                     ∧ v' <= fr_arrive g k v e + eps.

(** The state at the head of the loop, with durations and waits that are
    not negative; [lb] is the time of the last entry that was not stale, and
    [exc] the state whose edges are being relaxed, if any. *)
Record fr_inv (g : TransportGraph) (src dst : string) (mt : option Z)
    (lb : Qc) (exc : option fr_key) (st : fr_state) : Prop := {
  fi_heap : heap_ok fr_le st.1.1;
  fi_low : forall x, x ∈ st.1.1 -> lb <= fr_time x;
  fi_lb : 0 <= lb;
  fi_best : forall x, x ∈ st.1.1 ->
    exists v, best_get st.1.2 (fr_key_of x) = Finite v
              ∧ (v = fr_time x ∨ v + eps < fr_time x);
  fi_open : forall k v, best_get st.1.2 k = Finite v ->
    (v, k.1.1, k.1.2, k.2) ∈ st.1.1 ∨ Some k = exc
    ∨ fr_settled g dst mt lb st.1.2 k;
  fi_link : forall k p l, parent_get st.2 k = Some (p, l) ->
    exists e tp, best_get st.1.2 p = Finite tp ∧ tp <= lb
      ∧ e ∈ routes_from g p.1.1 ∧ k = fr_step g p e ∧ l = line e
      ∧ best_get st.1.2 k = Finite (fr_arrive g p tp e)
      ∧ (p = fr_src src ∨ is_Some (parent_get st.2 p));
  fi_src : parent_get st.2 (fr_src src) = None
           ∧ best_get st.1.2 (fr_src src) = Finite 0;
  fi_cap : forall x, x ∈ st.1.1 ->
    (fr_key_of x = fr_src src ∨ is_Some (parent_get st.2 (fr_key_of x)))
    ∧ (fr_key_of x = fr_src src ∨ over_cap mt x.2 = false)
}.

(** The state while the edges out of [k0], popped at [t], are relaxed;
    [done] are those relaxed so far. *)
Definition fr_mid (g : TransportGraph) (src dst : string) (mt : option Z)
    (t : Qc) (k0 : fr_key) (done : list Edge) (st : fr_state) : Prop :=
  fr_inv g src dst mt t (Some k0) st
  ∧ best_get st.1.2 k0 = Finite t
  ∧ (k0 = fr_src src ∨ is_Some (parent_get st.2 k0))
  ∧ forall e, e ∈ done -> over_cap mt (fr_step g k0 e).2 = false ->
      exists v', best_get st.1.2 (fr_step g k0 e) = Finite v'
                 ∧ v' <= fr_arrive g k0 t e + eps.

(** The tolerance of the comparisons, once for each edge. *)
Definition tolerance (es : list Edge) : Qc :=
  foldr (fun _ acc => acc + eps) 0 es.

(** ** The search under a cap, with every edge on a line *)

Definition labelled (g : TransportGraph) : Prop :=
  map_Forall (fun _ es => Forall (fun e => is_Some (line e)) es) (adj g).

(** The states that a search from [src] can reach with at most [k]
    transfers. *)
Definition fr_universe (g : TransportGraph) (src : string) (k : nat) : list fr_key :=
  fr_src src ::
    (ses ← map_to_list (adj g); e ← ses.2; n ← seq 0 (S k);
     [(to_station e, line e, n)]).

(** The turns still to come for the states of [U] that are not in [D]: one
    for each of their edges, and one for the state itself. *)
Definition fr_pending (g : TransportGraph) (U : list fr_key) (D : gset fr_key) : nat :=
  sum_list_with
    (fun k => if decide (k ∈ D) then 0%nat else S (length (routes_from g k.1.1))) U.

(** The part of the state that bounds the search: no entry twice; every
    entry a state of [U]; the states of [D], those whose edges are relaxed,
    with stale entries only; links into [D], which can be walked. *)
Record fr_safe (U : list fr_key) (lb : Qc) (D : gset fr_key) (st : fr_state) :
    Prop := {
  ft_nodup : NoDup st.1.1;
  ft_keys : forall x, x ∈ st.1.1 -> fr_key_of x ∈ U;
  ft_stale : forall k, k ∈ D ->
    exists v, best_get st.1.2 k = Finite v ∧ v <= lb
      ∧ forall x, x ∈ st.1.1 -> fr_key_of x = k -> v + eps < fr_time x;
  ft_parent : forall k p l, parent_get st.2 k = Some (p, l) -> p ∈ D;
  ft_walk : forall k ps, k ∈ D -> exists r, fr_walk (size D) st.2 k ps = Ret r
}.

(** ** The search over edges without lines *)

Definition unlabelled (g : TransportGraph) : Prop :=
  map_Forall (fun _ es => Forall (fun e => line e = None) es) (adj g).

(** The states that a search from [src] can reach when no edge has a line:
    no line, no transfer. *)
Definition fr_plain_universe (g : TransportGraph) (src : string) : list fr_key :=
  fr_src src ::
    (ses ← map_to_list (adj g); e ← ses.2; [(to_station e, None, 0%nat)]).

(** The lines of the edges are of one kind, [ok], and entries whose lines
    are of that kind can be compared. *)
Definition fr_kind (g : TransportGraph) (ok : option string -> Prop) : Prop :=
  (forall s e, e ∈ routes_from g s -> ok (line e))
  ∧ forall x y : fr_entry, ok x.1.2 -> ok y.1.2 -> comparable x y.

Definition fr_lines (ok : option string -> Prop) (pq : list fr_entry) : Prop :=
  forall x, x ∈ pq -> ok x.1.2.

(** * Properties *)

(** ** The graph store *)

Section store.
Implicit Types (g : TransportGraph) (m : gmap string (list Edge)).

Lemma append_edge_lookup s e m s' :
  append_edge s e m !! s' =
    match m !! s' with
    | Some es => Some (if decide (s = s') then es ++ [e] else es)
    | None => None
    end.
Proof.
  unfold append_edge. destruct (m !! s) as [es|] eqn:Hs.
  - destruct (decide (s = s')) as [->|Hne].
    + by rewrite lookup_insert_eq, Hs.
    + rewrite lookup_insert_ne by done. by destruct (m !! s').
  - destruct (decide (s = s')) as [->|Hne]; [by rewrite Hs|].
    by destruct (m !! s').
Qed.

Lemma drop_matching_lookup s target ln m s' :
  drop_matching s target ln m !! s' =
    match m !! s' with
    | Some es =>
        Some (if decide (s = s')
              then filter (fun e => matches target ln e = false) es else es)
    | None => None
    end.
Proof.
  unfold drop_matching. destruct (m !! s) as [es|] eqn:Hs.
  - destruct (decide (s = s')) as [->|Hne].
    + by rewrite lookup_insert_eq, Hs.
    + rewrite lookup_insert_ne by done. by destruct (m !! s').
  - destruct (decide (s = s')) as [->|Hne]; [by rewrite Hs|].
    by destruct (m !! s').
Qed.

Lemma add_station_adj g s w s' :
  adj (add_station g s w) !! s' =
    if decide (s = s') then Some (default [] (adj g !! s)) else adj g !! s'.
Proof.
  unfold add_station; simpl. destruct (adj g !! s) as [es|] eqn:Hs.
  - destruct (decide (s = s')) as [->|]; [by rewrite Hs|done].
  - destruct (decide (s = s')) as [->|].
    + by rewrite lookup_insert_eq.
    + by rewrite lookup_insert_ne.
Qed.

Lemma with_endpoints_lookup g a b s :
  with_endpoints g a b !! s =
    if decide (s = a ∨ s = b) then Some (default [] (adj g !! s)) else adj g !! s.
Proof.
  unfold with_endpoints.
  assert (Hg1 : forall s',
    adj (match adj g !! a with None => add_station g a None | Some _ => g end) !! s' =
      if decide (s' = a) then Some (default [] (adj g !! s')) else adj g !! s').
  { intros s'. destruct (adj g !! a) as [ea|] eqn:Ha.
    - case_decide; [subst; by rewrite Ha|done].
    - rewrite add_station_adj. repeat case_decide; by simplify_eq. }
  set (g1 := match adj g !! a with None => add_station g a None | Some _ => g end) in *.
  destruct (adj g1 !! b) as [eb|] eqn:Hb.
  - rewrite Hg1. rewrite Hg1 in Hb.
    repeat case_decide; simplify_eq; try done; try tauto.
    assert (s = b) as -> by tauto. by rewrite Hb.
  - rewrite add_station_adj, !Hg1. rewrite Hg1 in Hb.
    repeat case_decide; simplify_eq; try done; try (intuition congruence).
Qed.

Lemma add_connection_adj g a b t ln bi s :
  adj (add_connection g a b t ln bi) !! s =
    match with_endpoints g a b !! s with
    | Some es =>
        Some ((if decide (a = s) then es ++ [mkEdge b t ln] else es)
              ++ (if bi && bool_decide (b = s) then [mkEdge a t ln] else []))
    | None => None
    end.
Proof.
  unfold add_connection. fold (with_endpoints g a b). simpl.
  destruct bi; simpl; rewrite !append_edge_lookup.
  - destruct (with_endpoints g a b !! s); [|done].
    case_bool_decide; [rewrite decide_True by done|rewrite decide_False by done]; [done|].
    by rewrite app_nil_r.
  - destruct (with_endpoints g a b !! s); [|done]. by rewrite app_nil_r.
Qed.

Lemma remove_connection_adj g a b ln bi s :
  adj (remove_connection g a b ln bi) !! s =
    match adj g !! s with
    | Some es =>
        let es1 := if decide (a = s)
                   then filter (fun e => matches b ln e = false) es else es in
        Some (if bi && bool_decide (b = s)
              then filter (fun e => matches a ln e = false) es1 else es1)
    | None => None
    end.
Proof.
  unfold remove_connection; simpl.
  destruct bi; simpl; rewrite !drop_matching_lookup.
  - destruct (adj g !! s); [|done]. simpl.
    case_bool_decide; [rewrite decide_True by done|rewrite decide_False by done]; done.
  - by destruct (adj g !! s).
Qed.

Lemma remove_station_adj g s s' :
  is_Some (adj g !! s) ->
  adj (remove_station g s) !! s' =
    if decide (s = s') then None
    else filter (fun e => to_station e <> s) <$> adj g !! s'.
Proof.
  intros [es Hs]. unfold remove_station. rewrite Hs. simpl.
  rewrite lookup_fmap. case_decide as Hd.
  - subst. by rewrite lookup_delete_eq.
  - by rewrite lookup_delete_ne.
Qed.
End store.

Section store_properties.
Implicit Types (g : TransportGraph).

Lemma new_graph_ref_integrity w : ref_integrity (new_graph w).
Proof. intros s es e Hs. simpl in Hs. by rewrite lookup_empty in Hs. Qed.

Lemma add_station_ref_integrity g s w :
  ref_integrity g -> ref_integrity (add_station g s w).
Proof.
  intros Hg s' es e. rewrite !add_station_adj. intros Hs' He.
  assert (is_Some (adj g !! to_station e)) as [es' Hes'].
  { case_decide; simplify_eq.
    - destruct (adj g !! s') as [es0|] eqn:E; simpl in He; [eauto|].
      by apply elem_of_nil in He.
    - eauto. }
  rewrite Hes'. clear. case_decide; eauto.
Qed.

Lemma remove_station_ref_integrity g s :
  ref_integrity g -> ref_integrity (remove_station g s).
Proof.
  intros Hg. destruct (adj g !! s) as [es0|] eqn:Hs.
  2: { unfold remove_station. by rewrite Hs. }
  intros s' es e. rewrite !remove_station_adj by eauto.
  case_decide; [done|]. intros Hs' He.
  destruct (adj g !! s') as [es1|] eqn:E; simplify_eq/=.
  apply list_elem_of_filter in He as [Hne He].
  destruct (Hg _ _ _ E He) as [es2 ->].
  rewrite decide_False by done. eauto.
Qed.

Lemma add_connection_is_Some g a b t ln bi s :
  is_Some (adj (add_connection g a b t ln bi) !! s)
  <-> s = a ∨ s = b ∨ is_Some (adj g !! s).
Proof.
  rewrite add_connection_adj, with_endpoints_lookup.
  case_decide as Hd.
  - split; [tauto|eauto].
  - destruct (adj g !! s); split; intros Hs; eauto.
    destruct Hs as [?|[?|[? ?]]]; done || tauto.
Qed.

Lemma add_connection_edges g a b t ln bi s es e :
  adj (add_connection g a b t ln bi) !! s = Some es -> e ∈ es ->
  e ∈ routes_from g s ∨ e = mkEdge b t ln ∨ e = mkEdge a t ln.
Proof.
  rewrite add_connection_adj, with_endpoints_lookup. unfold routes_from.
  intros Hs He.
  assert (exists x y, es = default [] (adj g !! s) ++ x ++ y
                      ∧ (x = [] ∨ x = [mkEdge b t ln])
                      ∧ (y = [] ∨ y = [mkEdge a t ln]))
    as (x & y & -> & Hx & Hy).
  { exists (if decide (a = s) then [mkEdge b t ln] else []),
           (if bi && bool_decide (b = s) then [mkEdge a t ln] else []).
    split; [|split; [destruct (decide (a = s))|destruct (_ && _)]; auto].
    case_decide.
    - simplify_eq. clear.
      destruct (decide (a = s)); by rewrite <-?(assoc_L (++)), ?app_nil_r.
    - destruct (adj g !! s); simplify_eq/=. clear.
      destruct (decide (a = s)); by rewrite <-?(assoc_L (++)), ?app_nil_r. }
  apply elem_of_app in He as [He|He]; [by left|right].
  apply elem_of_app in He as [He|He].
  - destruct Hx; subst; [by apply elem_of_nil in He|].
    apply list_elem_of_singleton in He. by left.
  - destruct Hy; subst; [by apply elem_of_nil in He|].
    apply list_elem_of_singleton in He. by right.
Qed.

Lemma routes_from_ref_integrity g s e :
  ref_integrity g -> e ∈ routes_from g s -> is_Some (adj g !! to_station e).
Proof.
  unfold routes_from. intros Hg He.
  destruct (adj g !! s) as [es|] eqn:E; simpl in He; [eauto|].
  by apply elem_of_nil in He.
Qed.

Lemma add_connection_ref_integrity g a b t ln bi :
  ref_integrity g -> ref_integrity (add_connection g a b t ln bi).
Proof.
  intros Hg s es e Hs He. apply add_connection_is_Some.
  destruct (add_connection_edges _ _ _ _ _ _ _ _ _ Hs He) as [Hin|[->| ->]];
    simpl; eauto using routes_from_ref_integrity.
Qed.

Lemma remove_connection_ref_integrity g a b ln bi :
  ref_integrity g -> ref_integrity (remove_connection g a b ln bi).
Proof.
  intros Hg s es e. rewrite !remove_connection_adj. intros Hs He.
  destruct (adj g !! s) as [es0|] eqn:E; simplify_eq/=.
  assert (e ∈ es0) as He0.
  { repeat match goal with
      | H : _ ∈ (if ?c then _ else _) |- _ => destruct c
      | H : _ ∈ filter _ _ |- _ => apply list_elem_of_filter in H as [_ H]
      end; done. }
  destruct (Hg _ _ _ E He0) as [es' ->]. eauto.
Qed.

Lemma matches_new_edge t ln b : matches b ln (mkEdge b t ln) = true.
Proof.
  unfold matches; simpl. rewrite bool_decide_eq_true_2 by done.
  destruct ln; [|done]. by rewrite bool_decide_eq_true_2.
Qed.

Lemma filter_unmatched (es : list Edge) b ln :
  (forall e, e ∈ es -> matches b ln e = false) ->
  filter (fun e => matches b ln e = false) es = es.
Proof.
  induction es as [|e es IH]; intros Hall; [done|].
  rewrite filter_cons_True by (apply Hall; left).
  f_equal. apply IH. intros e' He'. apply Hall. by right.
Qed.

Lemma filter_drop_new (es : list Edge) (a b : string) t ln :
  (forall e, e ∈ es -> matches b ln e = false) ->
  filter (fun e => matches b ln e = false)
    (es ++ [mkEdge b t ln] ++ (if bool_decide (a = b) then [mkEdge b t ln] else []))
  = es.
Proof.
  intros Hes. rewrite !filter_app, filter_unmatched by done.
  rewrite filter_cons_False by (by rewrite matches_new_edge).
  rewrite filter_nil. case_bool_decide; simpl.
  - rewrite filter_cons_False by (by rewrite matches_new_edge).
    by rewrite filter_nil, app_nil_r.
  - by rewrite filter_nil, app_nil_r.
Qed.

Lemma add_remove_routes g a b t ln s :
  (forall e, e ∈ routes_from g a -> matches b ln e = false) ->
  (forall e, e ∈ routes_from g b -> matches a ln e = false) ->
  routes_from (remove_connection (add_connection g a b t ln true) a b ln true) s
  = routes_from g s.
Proof.
  intros Ha Hb. unfold routes_from in *.
  rewrite remove_connection_adj, add_connection_adj, with_endpoints_lookup.
  simpl.
  destruct (decide (a = s)) as [->|Has], (decide (b = s)) as [->|Hbs].
  - rewrite decide_True by auto. simpl.
    rewrite bool_decide_eq_true_2 by done.
    rewrite <-(assoc_L (++)).
    pose proof (filter_drop_new (default [] (adj g !! s)) s s t ln Ha) as Hf.
    rewrite bool_decide_eq_true_2 in Hf by done. rewrite Hf.
    by apply filter_unmatched.
  - rewrite decide_True by auto. simpl.
    rewrite bool_decide_eq_false_2 by done. rewrite app_nil_r.
    pose proof (filter_drop_new (default [] (adj g !! s)) b b t ln Ha) as Hf.
    rewrite bool_decide_eq_true_2 in Hf by done.
    rewrite !filter_app in *. rewrite filter_unmatched in * by done.
    rewrite filter_cons_False by (by rewrite matches_new_edge).
    by rewrite filter_nil, app_nil_r.
  - rewrite decide_True by auto. simpl.
    rewrite bool_decide_eq_true_2 by done.
    rewrite !filter_app. rewrite filter_unmatched by done.
    rewrite filter_cons_False by (by rewrite matches_new_edge).
    by rewrite filter_nil, app_nil_r.
  - rewrite decide_False by (intros [?|?]; congruence).
    destruct (adj g !! s); simpl; [|done].
    rewrite bool_decide_eq_false_2 by done. by rewrite app_nil_r.
Qed.
End store_properties.

(** ** Integrity and round trips of the store *)

(** C9. Referential integrity, every destination of a stored edge being a
    key of the adjacency mapping, holds of the empty store and is kept by
    each of the four mutations [add_station], [remove_station],
    [add_connection] and [remove_connection]. *)
Theorem ref_integrity_invariant (w : Qc) (g : TransportGraph) (m : mutation) :
  ref_integrity (new_graph w) ∧ (ref_integrity g -> ref_integrity (mutate g m)).
Proof.
  split; [apply new_graph_ref_integrity|].
  destruct m; simpl;
    auto using add_station_ref_integrity, remove_station_ref_integrity,
      add_connection_ref_integrity, remove_connection_ref_integrity.
Qed.

Lemma ref_integrity_invariant_witness :
  ref_integrity (mutate two_lines (RemoveStation "B")).
Proof.
  apply (proj2 (ref_integrity_invariant (Q2Qc 4) two_lines (RemoveStation "B"))).
  apply (add_connection_ref_integrity _ "B" "C").
  apply (add_connection_ref_integrity _ "A" "B").
  apply new_graph_ref_integrity.
Defined.

(** C6, as the code has it. Adding a connection in both directions and
    removing it in both directions with the same line gives back the edges
    the store had, provided that no edge from [a] to [b] or from [b] to [a]
    was there that the removal selects: one of the same line, or any at all
    when the line is absent. *)
Theorem add_remove_round_trip (g : TransportGraph) (a b : string) (t : Qc)
    (ln : option string) :
  (forall e, e ∈ routes_from g a -> matches b ln e = false) ->
  (forall e, e ∈ routes_from g b -> matches a ln e = false) ->
  round_trip g a b t ln.
Proof. intros Ha Hb s. by apply add_remove_routes. Qed.

Lemma add_remove_round_trip_witness :
  round_trip two_lines "A" "C" (Q2Qc 3) (Some "1").
Proof.
  apply add_remove_round_trip; intros e He; vm_compute in He;
    repeat (apply elem_of_cons in He as [->|He]; [reflexivity|]);
    by apply elem_of_nil in He.
Defined.

(** C6 as stated fails where the store already holds an edge that the
    removal selects: the round trip deletes it too. *)
Lemma round_trip_counterexample :
  ~ round_trip (add_connection (new_graph (Q2Qc 4)) "A" "B" (Q2Qc 5) (Some "1") true)
      "A" "B" (Q2Qc 7) (Some "1").
Proof. intros Hrt. specialize (Hrt "A"). vm_compute in Hrt. discriminate Hrt. Qed.

(** ** Fuel *)

(** More fuel does not change a result that some fuel was enough for. *)

Lemma sp_walk_fuel prev n m cur path :
  sp_walk n prev cur path <> OutOfFuel -> (n <= m)%nat ->
  sp_walk m prev cur path = sp_walk n prev cur path.
Proof.
  revert m cur path. induction n as [|n IH]; intros m cur path Hr Hle.
  - destruct cur; [done|]. by destruct m.
  - destruct m as [|m]; [lia|]. destruct cur as [c|]; [|done]. simpl in *.
    destruct (prev !! c) as [[p l]|]; [|done]. apply IH; [done|lia].
Qed.

Lemma fr_walk_fuel parent n m k path :
  fr_walk n parent k path <> OutOfFuel -> (n <= m)%nat ->
  fr_walk m parent k path = fr_walk n parent k path.
Proof.
  revert m k path. induction n as [|n IH]; intros m k path Hr Hle.
  - destruct m; simpl in *; destruct (parent !! k) as [[??]|]; done.
  - destruct m as [|m]; [lia|]. simpl in *.
    destruct (parent !! k) as [[p l]|]; [|done]. apply IH; [done|lia].
Qed.

Lemma sp_loop_fuel g dst n m pq dist prev :
  sp_loop n g dst pq dist prev <> OutOfFuel -> (n <= m)%nat ->
  sp_loop m g dst pq dist prev = sp_loop n g dst pq dist prev.
Proof.
  revert m pq dist prev. induction n as [|n IH]; intros m pq dist prev Hr Hle.
  - done.
  - destruct m as [|m]; [lia|]. simpl in *.
    destruct pq as [|x pq]; [done|].
    destruct (heappop (x :: pq)) as [[[[[t cur] p] l] pq1]| |]; simpl in *; try done.
    destruct (prev !! cur).
    + apply IH; [done|lia].
    + case_decide; [done|].
      destruct (for_each _ _ _) as [[pq2 dist2]| |]; simpl in *; try done.
      apply IH; [done|lia].
Qed.

Lemma fr_loop_fuel g src dst mt n m st :
  fr_loop n g src dst mt st <> OutOfFuel -> (n <= m)%nat ->
  fr_loop m g src dst mt st = fr_loop n g src dst mt st.
Proof.
  revert m st. induction n as [|n IH]; intros m st Hr Hle.
  - done.
  - destruct m as [|m]; [lia|]. simpl in *.
    destruct st as [[pq best] parent]. destruct pq as [|x pq]; [done|].
    destruct (heappop (x :: pq)) as [[[[[t cur] cl] tr] pq1]| |]; simpl in *; try done.
    destruct (xlt _ _).
    + apply IH; [done|lia].
    + case_decide.
      * rewrite (fr_walk_fuel _ n m); [done| |lia].
        intros Hw. by rewrite Hw in Hr.
      * destruct (for_each _ _ _) as [st2| |]; simpl in *; try done.
        apply IH; [done|lia].
Qed.

Lemma fastest_route_fuel g src dst mt n m :
  fastest_route_with_transfers n g src dst mt <> OutOfFuel -> (n <= m)%nat ->
  fastest_route_with_transfers m g src dst mt
  = fastest_route_with_transfers n g src dst mt.
Proof.
  unfold fastest_route_with_transfers. intros Hr Hle.
  destruct (adj g !! src), (adj g !! dst); try done.
  destruct (heappush _ _) as [pq| |]; simpl in *; try done.
  by apply fr_loop_fuel.
Qed.

(** ** The scenario of the two lines *)

(** C1. In the network of stations A, B and C, with A-B on line 1 and B-C on
    line 2, each of duration 5 and in both directions, and a default wait of
    4, [shortest_path] from A to C gives time 10, and the transfer-aware
    search without a cap gives time 14 and the path A, B by line 1, C by
    line 2, whatever fuel it is given beyond the six turns it takes. *)
Theorem two_lines_routes (fuel : nat) :
  shortest_path two_lines "A" "C"
    = Ret (Finite (Q2Qc 10), [("A", None); ("B", Some "1"); ("C", Some "2")])
  ∧ fastest_route_with_transfers (6 + fuel) two_lines "A" "C" None
    = Ret (Finite (Q2Qc 14), [("A", None); ("B", Some "1"); ("C", Some "2")]).
Proof.
  split; [by vm_compute|].
  rewrite (fastest_route_fuel _ _ _ _ 6); [by vm_compute|by vm_compute|lia].
Qed.

(** With a cap of zero transfers the same query finds no path. *)
Lemma two_lines_no_transfer (fuel : nat) :
  fastest_route_with_transfers (4 + fuel) two_lines "A" "C" (Some 0%Z)
  = Ret (Infinity, []).
Proof.
  rewrite (fastest_route_fuel _ _ _ _ 4); [by vm_compute|by vm_compute|lia].
Qed.

(** ** Sequencing *)

Lemma bind_Ret {A B} (a : A) (k : A -> res B) : (Ret a ≫= k) = k a.
Proof. reflexivity. Qed.

Lemma bind_Ret_inv {A B} (m : res A) (k : A -> res B) (b : B) :
  (m ≫= k) = Ret b -> exists a, m = Ret a ∧ k a = Ret b.
Proof. destruct m; [eauto|done..]. Qed.

Lemma for_each_cons {A S} (body : S -> A -> res S) (x : A) (l : list A) (st : S) :
  for_each body (x :: l) st = (body st x ≫= for_each body l).
Proof. reflexivity. Qed.

(** ** The heap with one entry *)

Lemma heappush_nil `{PyOrd A} (x : A) : heappush [] x = Ret [x].
Proof. reflexivity. Qed.

Lemma heappop_singleton `{PyOrd A} (x : A) : heappop [x] = Ret (x, []).
Proof. reflexivity. Qed.

(** ** The route from a station to itself *)

(** C10. For an existing station [s], both searches from [s] to [s] give
    time 0 and the one-entry path [(s, None)]: a success, with a path that
    is not empty. *)
Theorem self_route (g : TransportGraph) (s : string) (fuel : nat)
    (max_transfers : option Z) :
  is_Some (adj g !! s) ->
  shortest_path g s s = Ret (Finite 0, [(s, None)])
  ∧ fastest_route_with_transfers (S fuel) g s s max_transfers
    = Ret (Finite 0, [(s, None)]).
Proof.
  intros [es Hs]. split.
  - unfold shortest_path, shortest_path_fuel, sp_fuel. rewrite Hs.
    rewrite heappush_nil. simpl. rewrite lookup_empty.
    rewrite decide_True by done. simpl.
    repeat (rewrite lookup_insert_eq; simpl).
    by rewrite lookup_singleton_eq.
  - unfold fastest_route_with_transfers. rewrite Hs.
    rewrite heappush_nil. simpl. unfold best_get.
    rewrite lookup_singleton_eq.
    replace (xlt (Finite 0) (Finite (0 - eps))) with false by by vm_compute.
    rewrite decide_True by done.
    destruct fuel; simpl; by rewrite lookup_empty.
Qed.

Lemma self_route_witness :
  shortest_path two_lines "B" "B" = Ret (Finite 0, [("B", None)])
  ∧ fastest_route_with_transfers 1 two_lines "B" "B" None
    = Ret (Finite 0, [("B", None)]).
Proof. apply self_route. eexists. vm_compute. reflexivity. Defined.

(** ** Line changes *)



(** ** A comparison that Python refuses *)

(** C5 fails for [fastest_route_with_transfers]: with a walk and a line of
    the same duration between A and B, the frontier receives two entries
    that agree on time and station and differ in the line, one absent and
    one present, and comparing them raises [TypeError]. *)
Theorem walk_or_ride_type_error (fuel : nat) :
  is_Some (adj walk_or_ride !! "A") ∧ is_Some (adj walk_or_ride !! "B")
  ∧ fastest_route_with_transfers (S fuel) walk_or_ride "A" "B" None = Raise TypeError.
Proof.
  split; [|split]; [eexists; by vm_compute..|by vm_compute].
Qed.

(** ** Arithmetic on times *)

Lemma Qc_eq_iff (x y : Qc) : x = y <-> (this x == this y)%Q.
Proof. split; [by intros ->|apply Qc_is_canon]. Qed.

(** Goals of linear arithmetic over [Qc], sent to [lra] over [Q]. *)
Ltac qc_arith :=
  intros;
  repeat match goal with
    | H : @eq Qc _ _ |- _ => apply Qc_eq_iff in H
    | H : ~ @eq Qc _ _ |- _ => rewrite Qc_eq_iff in H
    | H : ~ Qclt _ _ |- _ => apply Qcnot_lt_le in H
    | H : ~ Qcle _ _ |- _ => apply Qcnot_le_lt in H
    | |- @eq Qc _ _ => apply Qc_is_canon
    | |- ~ Qclt _ _ => apply Qcle_not_lt
    | |- ~ Qcle _ _ => apply Qclt_not_le
    end;
  unfold Qcle, Qclt, Qcminus, Qcplus, Qcopp, eps, Q2Qc in *; simpl this in *;
  rewrite ?Qred_correct in *;
  try lra.

Lemma not_stale (t : Qc) : xlt (Finite t) (Finite (t - eps)) = false.
Proof. simpl. apply bool_decide_eq_false_2. qc_arith. Qed.

(** ** The table of best times *)

Lemma best_get_insert (best : gmap fr_key Qc) (k : fr_key) (t : Qc) :
  best_get (<[k := t]> best) k = Finite t.
Proof. unfold best_get. by rewrite lookup_insert_eq. Qed.

Lemma best_get_insert_ne (best : gmap fr_key Qc) (k k' : fr_key) (t : Qc) :
  k <> k' -> best_get (<[k := t]> best) k' = best_get best k'.
Proof. intros Hne. unfold best_get. by rewrite lookup_insert_ne. Qed.

Lemma best_get_singleton (k : fr_key) (t : Qc) :
  best_get {[k := t]} k = Finite t.
Proof. unfold best_get. by rewrite lookup_singleton_eq. Qed.

Lemma best_get_singleton_ne (k k' : fr_key) (t : Qc) :
  k <> k' -> best_get {[k := t]} k' = Infinity.
Proof. intros Hne. unfold best_get. by rewrite lookup_singleton_ne. Qed.

(** ** A search that does not end *)

Lemma ring_nonneg : nonneg ring.
Proof.
  assert (bool_decide (nonneg ring) = true) as Hb by by vm_compute.
  by apply bool_decide_eq_true_1 in Hb.
Qed.

Section two_cycle.
Variable g : TransportGraph.
Hypothesis HgA : adj g !! "A" = Some [mkEdge "B" (Q2Qc 5) (Some "1")].
Hypothesis HgB : adj g !! "B" = Some [mkEdge "A" (Q2Qc 5) (Some "2")].

Lemma ring_inv_push (best : gmap fr_key Qc) parent (t : Qc) (s l : string) (n : nat) :
  (s = "A" ∧ l = "2") ∨ (s = "B" ∧ l = "1") ->
  (forall k : fr_key, (n < k.2)%nat -> best_get best k = Infinity) ->
  ring_inv ([(t, s, Some l, (n + 1)%nat)], <[(s, Some l, (n + 1)%nat) := t]> best, parent).
Proof.
  intros Hsl Hfresh. exists t, s, l, (n + 1)%nat. simpl.
  split; [done|]. split; [done|]. split; [apply best_get_insert|].
  intros k Hk. rewrite best_get_insert_ne; [apply Hfresh; lia|].
  intros <-. simpl in Hk. lia.
Qed.

Lemma ring_step (src dst : string) (fuel : nat) (st : fr_state) :
  ring_inv st -> dst <> "A" -> dst <> "B" ->
  exists st', ring_inv st'
    ∧ fr_loop (S fuel) g src dst None st = fr_loop fuel g src dst None st'.
Proof.
  destruct st as [[pq best] parent].
  intros (t & s & l & n & Hpq & Hsl & Hbest & Hfresh) HA HB. simpl in *. subst pq.
  destruct Hsl as [[-> ->]|[-> ->]].
  - eexists. split; last first.
    + rewrite heappop_singleton. simpl. rewrite Hbest, not_stale.
      rewrite decide_False by done.
      rewrite HgA. simpl. rewrite Hfresh by (simpl; lia). simpl. reflexivity.
    + apply ring_inv_push; auto.
  - eexists. split; last first.
    + rewrite heappop_singleton. simpl. rewrite Hbest, not_stale.
      rewrite decide_False by done.
      rewrite HgB. simpl. rewrite Hfresh by (simpl; lia). simpl. reflexivity.
    + apply ring_inv_push; auto.
Qed.

Lemma ring_loop (src dst : string) (fuel : nat) (st : fr_state) :
  ring_inv st -> dst <> "A" -> dst <> "B" ->
  fr_loop fuel g src dst None st = OutOfFuel.
Proof.
  revert st. induction fuel as [|fuel IH]; intros st Hst HA HB; [done|].
  destruct (ring_step src dst fuel st Hst HA HB) as (st' & Hst' & ->). by apply IH.
Qed.

Lemma ring_search (src dst : string) (fuel : nat) :
  src = "A" ∨ src = "B" ->
  is_Some (adj g !! dst) -> dst <> "A" -> dst <> "B" ->
  fastest_route_with_transfers fuel g src dst None = OutOfFuel.
Proof.
  intros Hsrc [es Hdst] HA HB. unfold fastest_route_with_transfers.
  assert (is_Some (adj g !! src)) as [es' Hsrc'].
  { destruct Hsrc as [-> | ->]; eauto. }
  rewrite Hsrc', Hdst, heappush_nil. simpl.
  destruct fuel as [|fuel]; [done|]. simpl.
  rewrite best_get_singleton, not_stale.
  rewrite decide_False by (destruct Hsrc as [-> | ->]; done).
  destruct Hsrc as [-> | ->].
  - rewrite HgA. simpl.
    rewrite best_get_singleton_ne by done. simpl.
    apply ring_loop; [|done..].
    exists (0 + 0 + Q2Qc 5), "B", "1", 0%nat. simpl.
    split; [done|]. split; [auto|]. split; [apply best_get_insert|].
    intros k Hk. rewrite best_get_insert_ne by (intros <-; simpl in Hk; lia).
    apply best_get_singleton_ne. intros <-. simpl in Hk. lia.
  - rewrite HgB. simpl.
    rewrite best_get_singleton_ne by done. simpl.
    apply ring_loop; [|done..].
    exists (0 + 0 + Q2Qc 5), "A", "2", 0%nat. simpl.
    split; [done|]. split; [auto|]. split; [apply best_get_insert|].
    intros k Hk. rewrite best_get_insert_ne by (intros <-; simpl in Hk; lia).
    apply best_get_singleton_ne. intros <-. simpl in Hk. lia.
Qed.

Lemma ring_routes (src : string) (es : list Edge) (v : string) :
  src = "A" ∨ src = "B" -> route g src es v -> v = "A" ∨ v = "B".
Proof.
  intros Hsrc Hr. induction Hr as [|es b e Hr IH He]; [done|].
  unfold routes_from in He. destruct IH as [-> | ->].
  - rewrite HgA in He. apply list_elem_of_singleton in He as ->. auto.
  - rewrite HgB in He. apply list_elem_of_singleton in He as ->. auto.
Qed.
End two_cycle.

(** C2 fails on the code. In [ring], A and B are joined by line 1 one way
    and line 2 the other way, both of duration 5, and C exists and cannot be
    reached. Without a cap, every turn of the search from A to C pushes a
    state with one transfer more, which no earlier state equals: the
    frontier never empties, and no amount of fuel gives a result. *)
Theorem ring_never_returns (fuel : nat) :
  nonneg ring
  ∧ is_Some (adj ring !! "A") ∧ is_Some (adj ring !! "C")
  ∧ fastest_route_with_transfers fuel ring "A" "C" None = OutOfFuel.
Proof.
  split; [apply ring_nonneg|].
  split; [eexists; by vm_compute|]. split; [eexists; by vm_compute|].
  apply ring_search; [by vm_compute|by vm_compute|auto|eexists; by vm_compute|done|done].
Qed.

(** C4 fails on the code, by the same defect. In [ring] both B and C exist
    and no route leads from B to C: [shortest_path] gives the no-path
    result, and the transfer-aware search without a cap gives nothing,
    whatever the fuel. *)
Theorem ring_no_path (fuel : nat) :
  is_Some (adj ring !! "B") ∧ is_Some (adj ring !! "C")
  ∧ (forall es, ~ route ring "B" es "C")
  ∧ shortest_path ring "B" "C" = Ret (Infinity, [])
  ∧ fastest_route_with_transfers fuel ring "B" "C" None = OutOfFuel.
Proof.
  split; [eexists; by vm_compute|]. split; [eexists; by vm_compute|].
  split; [|split; [by vm_compute|]].
  - intros es Hes.
    by destruct (ring_routes ring ltac:(by vm_compute) ltac:(by vm_compute)
                   "B" es "C" ltac:(auto) Hes).
  - apply ring_search; [by vm_compute|by vm_compute|auto|eexists; by vm_compute|done|done].
Qed.

(** ** The binary heap of heapq *)

Lemma parent_of_div (i : nat) : parent_of i = ((i - 1) / 2)%nat.
Proof. unfold parent_of. by rewrite Nat.shiftr_div_pow2. Qed.

Lemma parent_of_lt (i : nat) : (0 < i)%nat -> (parent_of i < i)%nat.
Proof. rewrite parent_of_div. intros Hi. apply Nat.Div0.div_lt_upper_bound. lia. Qed.

Lemma parent_of_child (i p : nat) :
  (0 < i)%nat -> parent_of i = p <-> i = (2 * p + 1)%nat ∨ i = (2 * p + 2)%nat.
Proof.
  rewrite parent_of_div. intros Hi.
  pose proof (Nat.div_mod_eq (i - 1) 2) as Hd.
  pose proof (Nat.mod_upper_bound (i - 1) 2) as Hm. lia.
Qed.

Lemma insert_swap_perm {A} (l : list A) (i j : nat) (x y : A) :
  l !! i = Some x -> l !! j = Some y -> <[i := y]> (<[j := x]> l) ≡ₚ l.
Proof.
  intros Hi Hj. apply Permutation_inj. split; [by rewrite !length_insert|].
  pose proof (lookup_lt_Some _ _ _ Hi) as Hli.
  pose proof (lookup_lt_Some _ _ _ Hj) as Hlj.
  exists (fun k => if decide (k = i) then j else if decide (k = j) then i else k).
  split.
  - intros a b. repeat case_decide; lia.
  - intros k. rewrite !list_lookup_insert, !length_insert.
    repeat case_decide; simplify_eq; try done; try lia.
    all: by (destruct_and?; simplify_eq; congruence || lia).
Qed.

Section heap_theory.
Context `{PyOrd A}.
Variable le : A -> A -> Prop.
Hypothesis le_refl : forall x, le x x.
Hypothesis le_trans : forall x y z, le x y -> le y z -> le x z.
Hypothesis py_lt_le : forall x y b, py_lt x y = Ret b -> if b then le x y else le y x.

Lemma heap_except_root (h : list A) : heap_except le h 0 -> heap_ok le h.
Proof. intros [Hh _] i x y Hi. apply Hh; [done|lia]. Qed.

Lemma heap_ok_min (h : list A) (x : A) :
  heap_ok le h -> h !! 0%nat = Some x -> forall y, y ∈ h -> le x y.
Proof.
  intros Hh Hx y [i Hy]%list_elem_of_lookup. revert y Hy.
  induction (lt_wf i) as [i _ IH]. intros y Hy.
  destruct (decide (i = 0)%nat) as [->|Hi]; [by simplify_eq|].
  pose proof (parent_of_lt i ltac:(lia)) as Hp.
  destruct (lookup_lt_is_Some_2 h (parent_of i)) as [z Hz].
  { apply lookup_lt_Some in Hy. lia. }
  apply (le_trans _ z); [by apply (IH (parent_of i))|]. apply (Hh i); [lia|done..].
Qed.

(** The step of [_siftdown]: the entry and its parent change places. *)
Lemma heap_except_up (h : list A) (pos : nat) (newitem parent : A) :
  (0 < pos)%nat ->
  h !! pos = Some newitem -> h !! parent_of pos = Some parent ->
  le newitem parent ->
  heap_except le h pos ->
  heap_except le (<[parent_of pos := newitem]> (<[pos := parent]> h)) (parent_of pos).
Proof.
  intros Hpos Hn Hp Hle [He1 He2].
  pose proof (parent_of_lt pos Hpos) as Hlt.
  pose proof (lookup_lt_Some _ _ _ Hn) as Hlen.
  assert (forall k, <[parent_of pos := newitem]> (<[pos := parent]> h) !! k =
            if decide (k = parent_of pos) then Some newitem
            else if decide (k = pos) then Some parent else h !! k) as Hlk.
  { intros k. rewrite !list_lookup_insert, !length_insert.
    repeat case_decide; destruct_and?; simplify_eq; try done; lia. }
  split.
  - intros i x y Hi Hne. rewrite !Hlk. rewrite decide_False by done.
    intros Hy Hx.
    destruct (decide (i = pos)) as [->|Hip].
    + rewrite decide_True in Hx by done. by simplify_eq.
    + destruct (decide (parent_of i = parent_of pos)) as [Heq|Hpp].
      * simplify_eq. apply (le_trans _ parent); [done|].
        apply (He1 i); [done..|]. by rewrite Heq.
      * destruct (decide (parent_of i = pos)) as [Heq|Hpp'].
        -- simplify_eq. by apply (He2 i).
        -- by apply (He1 i).
  - intros i x y Hpp Hi Hpi. rewrite !Hlk.
    pose proof (parent_of_lt _ Hpp) as Hlt'.
    pose proof (parent_of_lt i Hi) as Hlti.
    rewrite (decide_False (P := i = parent_of pos)) by lia.
    rewrite (decide_False (P := parent_of (parent_of pos) = parent_of pos)) by lia.
    rewrite (decide_False (P := parent_of (parent_of pos) = pos)) by lia.
    intros Hy Hx.
    assert (le x parent) as Hxp by (apply (He1 (parent_of pos)); [done|lia|done..]).
    destruct (decide (i = pos)) as [->|Hip]; [by simplify_eq|].
    apply (le_trans _ parent); [done|].
    apply (He1 i); [done..|]. by rewrite Hpi.
Qed.

Lemma heap_except_done (h : list A) (pos : nat) (newitem parent : A) :
  (0 < pos)%nat ->
  h !! pos = Some newitem -> h !! parent_of pos = Some parent ->
  le parent newitem ->
  heap_except le h pos -> heap_ok le h.
Proof.
  intros Hpos Hn Hp Hle [He1 _] i x y Hi Hy Hx.
  destruct (decide (i = pos)) as [->|Hne]; [by simplify_eq|]. by apply (He1 i).
Qed.

Lemma siftdown_loop_spec (n : nat) (heap : list A) (pos : nat) (newitem : A) r :
  (pos <= n)%nat -> (pos < length heap)%nat ->
  heap_except le (<[pos := newitem]> heap) pos ->
  siftdown_loop n heap 0 pos newitem = Ret r ->
  heap_ok le r ∧ r ≡ₚ <[pos := newitem]> heap.
Proof.
  revert heap pos. induction n as [|n IH]; intros heap pos Hn Hlen Hex Hr; simpl in Hr.
  { assert (pos = 0)%nat as -> by lia. simplify_eq.
    split; [by apply heap_except_root|done]. }
  destruct (decide (0 < pos)%nat) as [Hpos|Hpos]; last first.
  { assert (pos = 0)%nat as -> by lia. simplify_eq.
    split; [by apply heap_except_root|done]. }
  pose proof (parent_of_lt pos Hpos) as Hlt.
  destruct (heap !! parent_of pos) as [parent|] eqn:Hp; [|done].
  destruct (py_lt newitem parent) as [b| |] eqn:Hb; simpl in Hr; try done.
  apply py_lt_le in Hb.
  assert (<[pos := newitem]> heap !! pos = Some newitem) as Hn1
    by by apply list_lookup_insert_eq.
  assert (<[pos := newitem]> heap !! parent_of pos = Some parent) as Hp1
    by (rewrite list_lookup_insert_ne by lia; done).
  destruct b.
  - apply IH in Hr as [Hok Hperm]; [|lia|rewrite length_insert; lia|].
    + split; [done|]. rewrite Hperm.
      rewrite <-(list_insert_insert_eq heap pos parent newitem).
      by apply insert_swap_perm.
    + rewrite <-(list_insert_insert_eq heap pos parent newitem).
      by apply heap_except_up.
  - simplify_eq. split; [|done]. by eapply heap_except_done.
Qed.

Lemma heappush_spec (h : list A) (x : A) r :
  heap_ok le h -> heappush h x = Ret r -> heap_ok le r ∧ r ≡ₚ x :: h.
Proof.
  intros Hh. unfold heappush, _siftdown.
  rewrite lookup_app_r, Nat.sub_diag by done. simpl. intros Hr.
  assert (<[length h := x]> (h ++ [x]) = h ++ [x]) as Hid.
  { apply list_insert_id. by rewrite lookup_app_r, Nat.sub_diag. }
  apply siftdown_loop_spec in Hr as [Hok Hperm]; [|done|rewrite length_app; simpl; lia|].
  - split; [done|]. rewrite Hperm, Hid. by rewrite Permutation_app_comm.
  - rewrite Hid. split.
    + intros i a b Hi Hne Hb Ha.
      pose proof (parent_of_lt i Hi) as Hlt.
      pose proof (lookup_lt_Some _ _ _ Hb) as Hlen.
      rewrite length_app in Hlen; simpl in Hlen.
      rewrite lookup_app_l in Hb, Ha by lia. by apply (Hh i).
    + intros i a b _ Hi Hpi Hb.
      apply (parent_of_child i _ Hi) in Hpi.
      apply lookup_lt_Some in Hb. rewrite length_app in Hb; simpl in Hb. lia.
Qed.
(** The step of [_siftup]: a child moves up into the hole. *)
Lemma heap_hole_down (h : list A) (pos c : nat) (x : A) :
  (0 < c)%nat -> parent_of c = pos -> h !! c = Some x ->
  (forall i y, (0 < i)%nat -> parent_of i = pos -> h !! i = Some y -> le x y) ->
  heap_hole le h pos ->
  heap_hole le (<[pos := x]> h) c.
Proof.
  intros Hc Hpc Hx Hsib [Hh1 Hh2].
  pose proof (parent_of_lt c Hc) as Hlt.
  pose proof (lookup_lt_Some _ _ _ Hx) as Hlen.
  assert (forall k, <[pos := x]> h !! k = if decide (k = pos) then Some x else h !! k)
    as Hlk.
  { intros k. rewrite list_lookup_insert.
    repeat case_decide; destruct_and?; simplify_eq; try done; lia. }
  split.
  - intros i a b Hi Hic Hpic. rewrite !Hlk. intros Hb Ha.
    destruct (decide (i = pos)) as [->|Hip].
    + simplify_eq. pose proof (parent_of_lt _ Hi).
      rewrite decide_False in Ha by lia. by apply (Hh2 c).
    + destruct (decide (parent_of i = pos)) as [Hpi|Hpi].
      * simplify_eq. by apply (Hsib i).
      * by apply (Hh1 i).
  - intros i a b _ Hi Hpi. rewrite !Hlk, Hpc.
    pose proof (parent_of_lt i Hi).
    rewrite decide_False by lia. rewrite decide_True by done.
    intros Hb Ha. simplify_eq. apply (Hh1 i); [done|lia|lia|done|done].
Qed.

Lemma heap_hole_leaf (h : list A) (leaf : nat) (x : A) :
  (leaf < length h)%nat -> (length h <= 2 * leaf + 1)%nat ->
  heap_hole le h leaf -> heap_except le (<[leaf := x]> h) leaf.
Proof.
  intros Hlen Hleaf [Hh1 Hh2].
  assert (forall i y, (0 < i)%nat -> h !! i = Some y -> parent_of i <> leaf) as Hno.
  { intros i y Hi Hy%lookup_lt_Some Hp. apply (parent_of_child i _ Hi) in Hp. lia. }
  split.
  - intros i a b Hi Hne. rewrite list_lookup_insert_ne by done. intros Hb.
    rewrite list_lookup_insert_ne by (intros Heq; by eapply Hno). intros Ha.
    apply (Hh1 i); eauto.
  - intros i a b _ Hi Hpi Hb. exfalso.
    destruct (decide (i = leaf)) as [->|Hne].
    + pose proof (parent_of_lt _ Hi). lia.
    + rewrite list_lookup_insert_ne in Hb by done. by eapply Hno.
Qed.

Lemma siftup_loop_spec (n : nat) (h : list A) (pos : nat) r (leaf : nat) :
  (length h <= n + pos)%nat -> (pos < length h)%nat ->
  heap_hole le h pos ->
  siftup_loop n h (length h) pos = Ret (r, leaf) ->
  heap_hole le r leaf ∧ (leaf < length r)%nat ∧ (length r <= 2 * leaf + 1)%nat
  ∧ forall newitem, <[leaf := newitem]> r ≡ₚ <[pos := newitem]> h.
Proof.
  revert h pos. induction n as [|n IH]; intros h pos Hn Hlen Hh Hr; [lia|].
  simpl in Hr. destruct (decide (2 * pos + 1 < length h)%nat) as [Hc|Hc]; last first.
  { rewrite Nat.add_0_r in Hr. rewrite decide_False in Hr by lia. simplify_eq.
    repeat split; [apply Hh..|lia|lia|done]. }
  rewrite Nat.add_0_r in Hr. rewrite decide_True in Hr by lia.
  assert (exists c x, h !! c = Some x
            ∧ (c = (2 * pos + 1)%nat ∨ c = (2 * pos + 2)%nat)
            ∧ (forall i y, (0 < i)%nat -> parent_of i = pos -> h !! i = Some y -> le x y)
            ∧ siftup_loop n (<[pos := x]> h) (length h) c = Ret (r, leaf))
    as (c & x & Hx & Hcc & Hsib & Hr').
  { destruct (lookup_lt_is_Some_2 h (pos + pos + 1)) as [l Hl]; [lia|].
    case_decide as Hright.
    - destruct (lookup_lt_is_Some_2 h (pos + pos + 1 + 1)) as [r0 Hr0]; [lia|].
      rewrite Hl, Hr0 in Hr. destruct (py_lt l r0) as [b| |] eqn:Hb; try done.
      apply py_lt_le in Hb. destruct b; simpl in Hr.
      + rewrite Hl in Hr. exists (pos + pos + 1)%nat, l.
        split; [done|]. split; [lia|]. split; [|done].
        intros i y Hi Hp Hy. apply (parent_of_child i _ Hi) in Hp as [->| ->].
        * replace (2 * pos + 1)%nat with (pos + pos + 1)%nat in Hy by lia.
          by simplify_eq.
        * replace (2 * pos + 2)%nat with (pos + pos + 1 + 1)%nat in Hy by lia.
          by simplify_eq.
      + rewrite Hr0 in Hr. exists (pos + pos + 1 + 1)%nat, r0.
        split; [done|]. split; [lia|]. split; [|done].
        intros i y Hi Hp Hy. apply (parent_of_child i _ Hi) in Hp as [->| ->].
        * replace (2 * pos + 1)%nat with (pos + pos + 1)%nat in Hy by lia.
          by simplify_eq.
        * replace (2 * pos + 2)%nat with (pos + pos + 1 + 1)%nat in Hy by lia.
          by simplify_eq.
    - simpl in Hr. rewrite Hl in Hr. exists (pos + pos + 1)%nat, l.
      split; [done|]. split; [lia|]. split; [|done].
      intros i y Hi Hp Hy. apply (parent_of_child i _ Hi) in Hp as [->| ->].
      + replace (2 * pos + 1)%nat with (pos + pos + 1)%nat in Hy by lia.
        by simplify_eq.
      + apply lookup_lt_Some in Hy. lia. }
  assert (0 < c)%nat as Hc0 by lia.
  assert (parent_of c = pos) as Hpc by (apply parent_of_child; [done|lia]).
  rewrite <-(length_insert h pos x) in Hr'.
  apply IH in Hr' as (Hhole & Hleaf & Hlast & Hperm).
  - repeat split; [apply Hhole..|done|done|].
    intros newitem. rewrite Hperm.
    rewrite <-(list_insert_insert_eq h pos x newitem).
    apply insert_swap_perm.
    + rewrite list_lookup_insert_ne by lia. done.
    + apply list_lookup_insert_eq. lia.
  - rewrite length_insert. lia.
  - rewrite length_insert. by apply lookup_lt_Some in Hx.
  - by apply heap_hole_down.
Qed.

Lemma _siftup_eq (l : list A) (pos : nat) (x : A) :
  l !! pos = Some x ->
  _siftup l pos =
    '(heap1, leaf) ← siftup_loop (length l) l (length l) pos;
    _siftdown (<[leaf := x]> heap1) pos leaf.
Proof. intros Hx. unfold _siftup. by rewrite Hx. Qed.

Lemma heappop_spec (h : list A) (x : A) (h' : list A) :
  heap_ok le h -> heappop h = Ret (x, h') ->
  heap_ok le h' ∧ h ≡ₚ x :: h' ∧ forall y, y ∈ h -> le x y.
Proof.
  intros Hh. unfold heappop.
  destruct (h !! (length h - 1)%nat) as [lastelt|] eqn:Hlast; [|done].
  assert (h = take (length h - 1) h ++ [lastelt]) as Hsplit.
  { pose proof (lookup_lt_Some _ _ _ Hlast).
    rewrite <-(take_S_r h (length h - 1) lastelt) by done.
    rewrite take_ge; [done|lia]. }
  destruct (take (length h - 1) h) as [|returnitem rest] eqn:Htake.
  { intros ?; simplify_eq/=.
    split; [|split; [done|]].
    - intros i a b _ Hb. by rewrite lookup_nil in Hb.
    - intros y ->%list_elem_of_singleton. done. }
  rewrite (_siftup_eq _ _ lastelt) by done.
  destruct (siftup_loop _ _ _ _) as [[heap1 leaf]| |] eqn:Hup; try done.
  assert (heap_hole le (lastelt :: rest) 0) as Hhole.
  { split; [|intros; lia]. intros i a b Hi _ Hp0 Hb Ha.
    pose proof (parent_of_lt i Hi) as Hlt.
    pose proof (lookup_lt_Some _ _ _ Hb) as Hlen. simpl in Hlen.
    apply (Hh i); [done|..]; rewrite Hsplit.
    + rewrite lookup_app_l by (simpl; lia).
      destruct i; [lia|done].
    + rewrite lookup_app_l by (simpl; lia).
      destruct (parent_of i); [done|done]. }
  apply siftup_loop_spec in Hup as (Hhole1 & Hleaf & Hlen1 & Hperm);
    [|simpl; lia|simpl; lia|done].
  rewrite bind_Ret. unfold _siftdown. rewrite list_lookup_insert_eq by done.
  intros Hr. destruct (siftdown_loop _ _ _ _ _) as [r| |] eqn:Hdown; try done.
  rewrite bind_Ret in Hr. injection Hr as <- <-.
  apply siftdown_loop_spec in Hdown as [Hok Hp];
    [|done|by rewrite length_insert|].
  - rewrite list_insert_insert_eq in Hp.
    split; [done|]. split.
    + rewrite Hp, Hperm, Hsplit. simpl.
      apply perm_skip. by rewrite Permutation_app_comm.
    + apply heap_ok_min; [done|]. by rewrite Hsplit.
  - rewrite list_insert_insert_eq. by apply heap_hole_leaf.
Qed.
End heap_theory.

(** When the entries can be compared with each other, the heap operations
    raise nothing. *)
Section heap_total.
Context `{PyOrd A}.

Lemma elem_of_insert_inv (l : list A) (i : nat) (x y : A) :
  y ∈ <[i := x]> l -> y = x ∨ y ∈ l.
Proof.
  intros [j Hj]%list_elem_of_lookup. rewrite list_lookup_insert in Hj.
  case_decide; simplify_eq; [by left|right]. by eapply list_elem_of_lookup_2.
Qed.

Lemma siftdown_loop_total (n : nat) (heap : list A) (pos : nat) (newitem : A) :
  (pos < length heap)%nat ->
  (forall y, y ∈ heap -> comparable newitem y) ->
  exists r, siftdown_loop n heap 0 pos newitem = Ret r.
Proof.
  revert heap pos. induction n as [|n IH]; intros heap pos Hlen Hcmp; simpl; [eauto|].
  destruct (decide (0 < pos)%nat) as [Hpos|Hpos]; [|eauto].
  pose proof (parent_of_lt pos Hpos) as Hlt.
  destruct (lookup_lt_is_Some_2 heap (parent_of pos)) as [parent Hp]; [lia|].
  rewrite Hp. destruct (Hcmp parent) as [b Hb]; [by eapply list_elem_of_lookup_2|].
  rewrite Hb, bind_Ret. destruct b; [|eauto].
  apply IH; [rewrite length_insert; lia|].
  intros y [->|Hy]%elem_of_insert_inv; [|by apply Hcmp].
  apply Hcmp. by eapply list_elem_of_lookup_2.
Qed.

Lemma siftup_loop_total (n : nat) (h : list A) (pos : nat) :
  all_comparable h ->
  exists r leaf, siftup_loop n h (length h) pos = Ret (r, leaf)
    ∧ (forall y, y ∈ r -> y ∈ h) ∧ length r = length h
    ∧ ((pos < length h)%nat -> (leaf < length h)%nat).
Proof.
  revert h pos. induction n as [|n IH]; intros h pos Hcmp; simpl.
  { exists h, pos. auto. }
  destruct (decide (pos + (pos + 0) + 1 < length h)%nat) as [Hc|Hc]; last first.
  { exists h, pos. auto. }
  assert (exists c x, h !! c = Some x
            ∧ ((if decide (pos + (pos + 0) + 1 + 1 < length h)%nat then
                  match h !! (pos + (pos + 0) + 1)%nat,
                        h !! (pos + (pos + 0) + 1 + 1)%nat with
                  | Some l, Some r =>
                      b ← py_lt l r;
                      Ret (if negb b then (pos + (pos + 0) + 1 + 1)%nat
                           else (pos + (pos + 0) + 1)%nat)
                  | _, _ => Raise IndexError
                  end
                else Ret (pos + (pos + 0) + 1)%nat) = Ret c))
    as (c & x & Hx & ->).
  { destruct (lookup_lt_is_Some_2 h (pos + (pos + 0) + 1)) as [l Hl]; [lia|].
    case_decide as Hright; [|eauto].
    destruct (lookup_lt_is_Some_2 h (pos + (pos + 0) + 1 + 1)) as [r0 Hr0]; [lia|].
    rewrite Hl, Hr0.
    destruct (Hcmp l r0) as [b ->]; [by eapply list_elem_of_lookup_2..|].
    rewrite bind_Ret. destruct b; simpl; eauto. }
  rewrite bind_Ret, Hx. rewrite <-(length_insert h pos x).
  destruct (IH (<[pos := x]> h) c) as (r & leaf & -> & Hsub & Hlen & Hleaf).
  { intros a b Ha Hb. apply Hcmp.
    - apply elem_of_insert_inv in Ha as [->|]; [by eapply list_elem_of_lookup_2|done].
    - apply elem_of_insert_inv in Hb as [->|]; [by eapply list_elem_of_lookup_2|done]. }
  exists r, leaf. split; [done|]. rewrite length_insert in *.
  split; [|split; [done|]].
  - intros y Hy%Hsub. apply elem_of_insert_inv in Hy as [->|]; [|done].
    by eapply list_elem_of_lookup_2.
  - intros _. apply Hleaf. by apply lookup_lt_Some in Hx.
Qed.

Lemma heappush_total (h : list A) (x : A) :
  all_comparable (x :: h) -> exists r, heappush h x = Ret r.
Proof.
  intros Hcmp. unfold heappush, _siftdown.
  rewrite lookup_app_r, Nat.sub_diag by done. simpl.
  apply siftdown_loop_total; [rewrite length_app; simpl; lia|].
  intros y Hy. apply Hcmp; [left|].
  apply elem_of_app in Hy as [Hy|Hy%list_elem_of_singleton]; [by right|subst; left].
Qed.

Lemma heappop_total (h : list A) :
  h <> [] -> all_comparable h -> exists x h', heappop h = Ret (x, h').
Proof.
  intros Hne Hcmp. unfold heappop.
  destruct (lookup_lt_is_Some_2 h (length h - 1)) as [lastelt Hlast].
  { destruct h; [done|simpl; lia]. }
  rewrite Hlast.
  assert (h = take (length h - 1) h ++ [lastelt]) as Hsplit.
  { pose proof (lookup_lt_Some _ _ _ Hlast).
    rewrite <-(take_S_r h (length h - 1) lastelt) by done.
    rewrite take_ge; [done|lia]. }
  destruct (take (length h - 1) h) as [|returnitem rest] eqn:Htake; [eauto|].
  rewrite (_siftup_eq _ _ lastelt) by done.
  assert (forall y, y ∈ lastelt :: rest -> y ∈ h) as Hsub.
  { intros y Hy. rewrite Hsplit.
    apply elem_of_cons in Hy as [->|Hy]; [|by apply elem_of_app; left; right].
    apply elem_of_app; right. by left. }
  destruct (siftup_loop_total (length (lastelt :: rest)) (lastelt :: rest) 0)
    as (heap1 & leaf & -> & Hsub1 & Hlen1 & Hleaf).
  { intros a b Ha Hb. apply Hcmp; by apply Hsub. }
  rewrite bind_Ret. unfold _siftdown.
  rewrite list_lookup_insert_eq by (rewrite Hlen1; apply Hleaf; simpl; lia).
  destruct (siftdown_loop_total leaf (<[leaf := lastelt]> heap1) leaf lastelt)
    as [r ->]; [rewrite length_insert, Hlen1; apply Hleaf; simpl; lia| |].
  - intros y [->|Hy]%elem_of_insert_inv; apply Hcmp; try (apply Hsub; by left).
    by apply Hsub, Hsub1.
  - rewrite bind_Ret. eauto.
Qed.
End heap_total.

(** ** The order of the frontier of [shortest_path] *)

Lemma sp_le_refl (x : sp_entry) : sp_le x x.
Proof. unfold sp_le. qc_arith. Qed.

Lemma sp_le_trans (x y z : sp_entry) : sp_le x y -> sp_le y z -> sp_le x z.
Proof. unfold sp_le. apply Qcle_trans. Qed.

Lemma Qc_lt_or_ge_bool (x y : Qc) :
  if bool_decide (x < y) then x <= y else y <= x.
Proof. case_bool_decide; qc_arith. Qed.

Lemma sp_py_lt_le (x y : sp_entry) (b : bool) :
  py_lt x y = Ret b -> if b then sp_le x y else sp_le y x.
Proof.
  destruct x as [[[t s] p] l], y as [[[t' s'] p'] l']. unfold sp_le, sp_time.
  cbn -[Qcle Qclt]. intros Hb.
  destruct (decide (t = t')) as [->|Hne].
  { destruct b; qc_arith. }
  rewrite (bool_decide_eq_false_2 (t = t')) in Hb by done. simpl in Hb.
  injection Hb as <-. apply Qc_lt_or_ge_bool.
Qed.

Lemma sp_distinct_comparable (pq : list sp_entry) :
  (forall x y, x ∈ pq -> y ∈ pq ->
     sp_time x = sp_time y -> sp_station x = sp_station y -> x = y) ->
  all_comparable pq.
Proof.
  intros Hd x y Hx Hy. specialize (Hd x y Hx Hy). unfold comparable.
  destruct x as [[[t s] p] l], y as [[[t' s'] p'] l'].
  unfold sp_time, sp_station in Hd. cbn -[Qcle Qclt] in *.
  destruct (decide (t = t')) as [->|Hne]; last first.
  { rewrite (bool_decide_eq_false_2 (t = t')) by done. simpl. eauto. }
  destruct (decide (s = s')) as [->|Hne]; last first.
  { rewrite (bool_decide_eq_true_2 (t' = t')) by done.
    rewrite (bool_decide_eq_false_2 (s = s')) by done. simpl. eauto. }
  specialize (Hd eq_refl eq_refl). simplify_eq.
  rewrite !bool_decide_eq_true_2 by done. simpl.
  destruct p' as [p'|], l' as [l'|];
    rewrite ?bool_decide_eq_true_2 by done; eauto.
Qed.

Lemma sp_heappush (pq : list sp_entry) (x : sp_entry) r :
  heap_ok sp_le pq -> heappush pq x = Ret r -> heap_ok sp_le r ∧ r ≡ₚ x :: pq.
Proof.
  apply heappush_spec; [apply sp_le_trans|apply sp_py_lt_le].
Qed.

Lemma sp_heappop (pq : list sp_entry) (x : sp_entry) pq' :
  heap_ok sp_le pq -> heappop pq = Ret (x, pq') ->
  heap_ok sp_le pq' ∧ pq ≡ₚ x :: pq' ∧ forall y, y ∈ pq -> sp_le x y.
Proof.
  apply heappop_spec; [apply sp_le_refl|apply sp_le_trans|apply sp_py_lt_le].
Qed.

(** ** Routes *)

Lemma total_time_snoc (es : list Edge) (e : Edge) :
  total_time (es ++ [e]) = total_time es + time e.
Proof.
  unfold total_time. induction es as [|e' es IH]; simpl.
  - ring.
  - rewrite IH. ring.
Qed.

Lemma nonneg_routes (g : TransportGraph) (u : string) (e : Edge) :
  nonneg_durations g -> e ∈ routes_from g u -> 0 <= time e.
Proof.
  intros Hg. unfold routes_from.
  destruct (adj g !! u) as [es|] eqn:Hu; simpl; [|by intros ?%elem_of_nil].
  apply Hg in Hu. rewrite Forall_forall in Hu. intros He.
  by apply Hu.
Qed.

Lemma total_time_nonneg (g : TransportGraph) (a b : string) (es : list Edge) :
  nonneg_durations g -> route g a es b -> 0 <= total_time es.
Proof.
  intros Hg Hr. induction Hr as [|es b e Hr IH He]; [done|].
  rewrite total_time_snoc. pose proof (nonneg_routes _ _ _ Hg He). qc_arith.
Qed.

(** ** What is left to relax *)

Lemma pending_empty (g : TransportGraph) : pending g ∅ = edge_count g.
Proof.
  unfold pending, edge_count.
  induction (adj g) as [|i x m Hi Hfirst IH] using map_first_key_ind.
  - by rewrite !map_fold_empty.
  - rewrite !map_fold_insert_first_key by done. by rewrite lookup_empty, IH.
Qed.

Lemma pending_insert (g : TransportGraph) prev (cur : string) v :
  prev !! cur = None ->
  (pending g (<[cur := v]> prev) + length (default [] (adj g !! cur)))%nat
  = pending g prev.
Proof.
  intros Hcur. unfold pending.
  induction (adj g) as [|i x m Hi Hfirst IH] using map_first_key_ind.
  - by rewrite !map_fold_empty, lookup_empty.
  - rewrite !map_fold_insert_first_key by done.
    destruct (decide (i = cur)) as [->|Hne].
    + rewrite !lookup_insert_eq, Hcur. rewrite Hi in IH. simpl in *. lia.
    + rewrite !lookup_insert_ne by done.
      destruct (prev !! i); lia.
Qed.

(** ** Walking the predecessor links *)

Lemma sp_walk_insert (prev : gmap string (option string * option string))
    (cur : string) v (n : nat) (s : string) (path : path_t) :
  (forall s p l, prev !! s = Some (Some p, l) -> is_Some (prev !! p)) ->
  prev !! cur = None -> is_Some (prev !! s) ->
  sp_walk n (<[cur := v]> prev) (Some s) path = sp_walk n prev (Some s) path.
Proof.
  intros Hchain Hcur. revert s path.
  induction n as [|n IH]; intros s path [[p l] Hs]; [done|]. simpl.
  rewrite lookup_insert_ne by congruence. rewrite Hs.
  destruct p as [p|]; [|by destruct n]. apply IH. eauto.
Qed.

Lemma sp_walks_insert (prev : gmap string (option string * option string))
    (cur : string) (p l : option string) :
  (forall s p l, prev !! s = Some (Some p, l) -> is_Some (prev !! p)) ->
  (forall s path, is_Some (prev !! s) ->
     exists r, sp_walk (size prev) prev (Some s) path = Ret r) ->
  prev !! cur = None ->
  (forall p', p = Some p' -> is_Some (prev !! p')) ->
  forall s path, is_Some (<[cur := (p, l)]> prev !! s) ->
    exists r, sp_walk (size (<[cur := (p, l)]> prev)) (<[cur := (p, l)]> prev)
                (Some s) path = Ret r.
Proof.
  intros Hchain Hwalks Hcur Hp s path Hs.
  rewrite map_size_insert_None by done.
  destruct (decide (s = cur)) as [->|Hne].
  - simpl. rewrite lookup_insert_eq. destruct p as [p'|].
    + rewrite sp_walk_insert by eauto. apply Hwalks. eauto.
    + destruct (size prev); simpl; eauto.
  - rewrite lookup_insert_ne in Hs by done.
    destruct (Hwalks s path Hs) as [r Hr].
    exists r. rewrite <-Hr, <-(sp_walk_insert prev cur (p, l)) by done.
    apply sp_walk_fuel; [|lia]. rewrite sp_walk_insert by done. by rewrite Hr.
Qed.

Lemma sp_chain_insert (prev : gmap string (option string * option string))
    (cur : string) (p l : option string) :
  (forall s p l, prev !! s = Some (Some p, l) -> is_Some (prev !! p)) ->
  (forall p', p = Some p' -> is_Some (prev !! p')) ->
  forall s p' l', <[cur := (p, l)]> prev !! s = Some (Some p', l') ->
    is_Some (<[cur := (p, l)]> prev !! p').
Proof.
  intros Hchain Hp s p' l' Hs.
  assert (is_Some (prev !! p')) as [x Hx].
  { destruct (decide (cur = s)) as [->|Hne].
    - rewrite lookup_insert_eq in Hs. simplify_eq. eauto.
    - rewrite lookup_insert_ne in Hs by done. eauto. }
  destruct (decide (cur = p')) as [->|Hne].
  - rewrite lookup_insert_eq. eauto.
  - rewrite lookup_insert_ne by done. eauto.
Qed.

(** ** Relaxing an edge in [shortest_path] *)

Section sp_relax.
Variable g : TransportGraph.
Variables src cur : string.
Variable t : Qc.
Variable prev : gmap string (option string * option string).
Hypothesis Hg : nonneg_durations g.
Hypothesis Hcur : is_Some (prev !! cur).

Lemma sp_relax_keep pq dist (e : Edge) (d : Qc) :
  sp_mid g src cur t prev pq dist ->
  dist !! to_station e = Some d -> ~ (t + time e < d) ->
  sp_relax t cur (pq, dist) e = Ret (pq, dist).
Proof.
  intros Hmid Hd Hlt. unfold sp_relax. rewrite Hd.
  by rewrite bool_decide_eq_false_2.
Qed.

Lemma sp_relax_push pq dist (e : Edge) :
  sp_mid g src cur t prev pq dist -> e ∈ routes_from g cur ->
  (forall d, dist !! to_station e = Some d -> t + time e < d) ->
  exists pq2,
    sp_relax t cur (pq, dist) e = Ret (pq2, <[to_station e := t + time e]> dist)
    ∧ pq2 ≡ₚ (t + time e, to_station e, Some cur, line e) :: pq
    ∧ sp_mid g src cur t prev pq2 (<[to_station e := t + time e]> dist).
Proof.
  intros Hmid He Hnew.
  pose proof (nonneg_routes _ _ _ Hg He) as Hw.
  pose proof (mid_tpos _ _ _ _ _ _ _ Hmid) as Ht.
  set (x := (t + time e, to_station e, Some cur, line e) : sp_entry).
  assert (forall y, y ∈ pq -> sp_station y = to_station e -> t + time e < sp_time y)
    as Hfresh.
  { intros y Hy Hst. destruct (mid_known _ _ _ _ _ _ _ Hmid y Hy) as (d & Hd & Hle).
    rewrite Hst in Hd. specialize (Hnew d Hd). qc_arith. }
  assert (prev !! to_station e = None) as Hopen.
  { destruct (prev !! to_station e) as [v|] eqn:Hp; [|done].
    destruct (mid_low _ _ _ _ _ _ _ Hmid (to_station e)) as (du & Hdu & Hle); [eauto|].
    specialize (Hnew du Hdu). qc_arith. }
  assert (to_station e <> cur) as Hne.
  { intros Heq. rewrite Heq in Hopen. rewrite Hopen in Hcur. by destruct Hcur. }
  assert (forall a b, a ∈ x :: pq -> b ∈ x :: pq ->
            sp_time a = sp_time b -> sp_station a = sp_station b -> a = b) as Hdist.
  { intros a b Ha Hb Hta Hsa.
    apply elem_of_cons in Ha as [->|Ha], Hb as [->|Hb]; [done| | |].
    - specialize (Hfresh b Hb (eq_sym Hsa)). unfold x, sp_time in *. simpl in *.
      rewrite <-Hta in Hfresh. qc_arith.
    - specialize (Hfresh a Ha Hsa). unfold x, sp_time in *. simpl in *.
      rewrite Hta in Hfresh. qc_arith.
    - by apply (mid_distinct _ _ _ _ _ _ _ Hmid). }
  destruct (heappush_total pq x) as [pq2 Hpush].
  { by apply sp_distinct_comparable. }
  destruct (sp_heappush pq x pq2) as [Hheap Hperm]; [apply Hmid|done|].
  exists pq2. split; [|split; [done|]].
  { unfold sp_relax. fold x. rewrite Hpush.
    destruct (dist !! to_station e) as [d|] eqn:Hd; [|done].
    by rewrite bool_decide_eq_true_2 by auto. }
  assert (forall y, y ∈ pq2 <-> y = x ∨ y ∈ pq) as Hin.
  { intros y. rewrite Hperm. apply elem_of_cons. }
  split.
  - done.
  - intros y [->|Hy]%Hin.
    + exists (t + time e). simpl. rewrite lookup_insert_eq. split; [done|]. qc_arith.
    + destruct (mid_known _ _ _ _ _ _ _ Hmid y Hy) as (d & Hd & Hle).
      destruct (decide (to_station e = sp_station y)) as [Heq|Hneq].
      * exists (t + time e). rewrite Heq, lookup_insert_eq. split; [done|].
        specialize (Hfresh y Hy (eq_sym Heq)). qc_arith.
      * exists d. by rewrite lookup_insert_ne.
  - intros s d Hd Hp.
    destruct (decide (to_station e = s)) as [<-|Hneq].
    + rewrite lookup_insert_eq in Hd. simplify_eq.
      exists x. split; [apply Hin; by left|done].
    + rewrite lookup_insert_ne in Hd by done.
      destruct (mid_queued _ _ _ _ _ _ _ Hmid s d Hd Hp) as (y & Hy & ? & ?).
      exists y. split; [apply Hin; by right|done].
  - intros u du e' Hu Hucur Hdu He'.
    assert (to_station e <> u) as Hneu.
    { intros <-. rewrite Hopen in Hu. by destruct Hu. }
    rewrite lookup_insert_ne in Hdu by done.
    destruct (mid_relaxed _ _ _ _ _ _ _ Hmid u du e' Hu Hucur Hdu He')
      as (dv & Hdv & Hle).
    destruct (decide (to_station e = to_station e')) as [Heq|Hneq].
    * exists (t + time e). rewrite <-Heq, lookup_insert_eq. split; [done|].
      rewrite <-Heq in Hdv. specialize (Hnew dv Hdv). qc_arith.
    * exists dv. by rewrite lookup_insert_ne.
  - intros u Hu.
    assert (to_station e <> u) as Hneu.
    { intros <-. rewrite Hopen in Hu. by destruct Hu. }
    rewrite lookup_insert_ne by done. by apply (mid_low _ _ _ _ _ _ _ Hmid).
  - intros y [->|Hy]%Hin; [unfold x, sp_time; simpl; qc_arith|].
    by apply (mid_high _ _ _ _ _ _ _ Hmid).
  - rewrite lookup_insert_ne by done. apply Hmid.
  - done.
  - destruct (decide (to_station e = src)) as [Heq|Hneq].
    + pose proof (mid_src _ _ _ _ _ _ _ Hmid) as Hs. rewrite <-Heq in Hs.
      specialize (Hnew 0 Hs). qc_arith.
    + rewrite lookup_insert_ne by done. apply Hmid.
  - intros s d Hd.
    destruct (decide (to_station e = s)) as [<-|Hneq].
    + rewrite lookup_insert_eq in Hd. simplify_eq.
      destruct (mid_real _ _ _ _ _ _ _ Hmid cur t) as (es & Hes & Htot); [apply Hmid|].
      exists (es ++ [e]). split; [by apply (route_snoc g src es cur e)|].
      by rewrite total_time_snoc, Htot.
    + rewrite lookup_insert_ne in Hd by done. by apply (mid_real _ _ _ _ _ _ _ Hmid).
  - intros a b Ha%Hin Hb%Hin. apply Hdist; by apply elem_of_cons.
  - intros y p [->|Hy]%Hin Hp.
    + unfold x, sp_pred in Hp. simpl in Hp. by simplify_eq.
    + by apply (mid_links _ _ _ _ _ _ _ Hmid y).
Qed.

(** What relaxing a list of edges out of [cur] gives. *)
Lemma sp_relax_all (es : list Edge) pq dist :
  sp_mid g src cur t prev pq dist ->
  (forall e, e ∈ es -> e ∈ routes_from g cur) ->
  exists pq2 dist2,
    for_each (sp_relax t cur) es (pq, dist) = Ret (pq2, dist2)
    ∧ sp_mid g src cur t prev pq2 dist2
    ∧ (forall s d, dist !! s = Some d -> exists d2, dist2 !! s = Some d2 ∧ d2 <= d)
    ∧ (forall e, e ∈ es ->
         exists dv, dist2 !! to_station e = Some dv ∧ dv <= t + time e)
    ∧ (length pq2 <= length pq + length es)%nat.
Proof.
  revert pq dist. induction es as [|e es IH]; intros pq dist Hmid Hes.
  { exists pq, dist. simpl. split; [done|]. split; [done|].
    split; [|split; [by intros e ?%elem_of_nil|lia]].
    intros s d Hd. exists d. split; [done|]. qc_arith. }
  assert (exists pq1 dist1,
            sp_relax t cur (pq, dist) e = Ret (pq1, dist1)
            ∧ sp_mid g src cur t prev pq1 dist1
            ∧ (forall s d, dist !! s = Some d ->
                 exists d1, dist1 !! s = Some d1 ∧ d1 <= d)
            ∧ (exists dv, dist1 !! to_station e = Some dv ∧ dv <= t + time e)
            ∧ (length pq1 <= S (length pq))%nat)
    as (pq1 & dist1 & Hstep & Hmid1 & Hmono1 & Hrel1 & Hlen1).
  { destruct (dist !! to_station e) as [d|] eqn:Hd.
    - destruct (decide (t + time e < d)) as [Hlt|Hge].
      + destruct (sp_relax_push pq dist e Hmid) as (pq1 & Hstep & Hperm & Hmid1).
        { apply Hes. by left. }
        { intros d' Hd'. by simplify_eq. }
        exists pq1, (<[to_station e := t + time e]> dist).
        split; [done|]. split; [done|]. split; [|split].
        * intros s d' Hd'. destruct (decide (to_station e = s)) as [<-|Hne].
          -- exists (t + time e). rewrite lookup_insert_eq. split; [done|].
             simplify_eq. qc_arith.
          -- exists d'. rewrite lookup_insert_ne by done. split; [done|]. qc_arith.
        * exists (t + time e). rewrite lookup_insert_eq. split; [done|]. qc_arith.
        * by rewrite Hperm.
      + exists pq, dist. split; [by eapply sp_relax_keep|]. split; [done|].
        split; [|split; [|lia]].
        * intros s d' Hd'. exists d'. split; [done|]. qc_arith.
        * exists d. split; [done|]. qc_arith.
    - destruct (sp_relax_push pq dist e Hmid) as (pq1 & Hstep & Hperm & Hmid1).
      { apply Hes. by left. }
      { intros d' Hd'. by simplify_eq. }
      exists pq1, (<[to_station e := t + time e]> dist).
      split; [done|]. split; [done|]. split; [|split].
      * intros s d' Hd'. destruct (decide (to_station e = s)) as [<-|Hne].
        -- by simplify_eq.
        -- exists d'. rewrite lookup_insert_ne by done. split; [done|]. qc_arith.
      * exists (t + time e). rewrite lookup_insert_eq. split; [done|]. qc_arith.
      * by rewrite Hperm. }
  destruct (IH pq1 dist1 Hmid1) as (pq2 & dist2 & Hfold & Hmid2 & Hmono2 & Hrel2 & Hlen2).
  { intros e' He'. apply Hes. by right. }
  exists pq2, dist2. rewrite for_each_cons, Hstep, bind_Ret.
  split; [done|]. split; [done|]. split; [|split].
  - intros s d Hd. destruct (Hmono1 s d Hd) as (d1 & Hd1 & Hle1).
    destruct (Hmono2 s d1 Hd1) as (d2 & Hd2 & Hle2). exists d2. split; [done|]. qc_arith.
  - intros e' [->|He']%elem_of_cons; [|by apply Hrel2].
    destruct Hrel1 as (dv & Hdv & Hle).
    destruct (Hmono2 _ dv Hdv) as (d2 & Hd2 & Hle2). exists d2. split; [done|]. qc_arith.
  - simpl. lia.
Qed.
End sp_relax.

(** ** The loop of [shortest_path] *)

Lemma sp_loop_S (fuel : nat) (g : TransportGraph) (dst : string)
    (y : sp_entry) (pq : list sp_entry) dist prev :
  sp_loop (S fuel) g dst (y :: pq) dist prev =
    '(time_so_far, cur, prev_station, line_used, pq1) ← heappop (y :: pq);
    match prev !! cur with
    | Some _ => sp_loop fuel g dst pq1 dist prev
    | None =>
        let prev1 := <[cur := (prev_station, line_used)]> prev in
        if decide (cur = dst) then Ret (dist, prev1)
        else
          '(pq2, dist2) ← for_each (sp_relax time_so_far cur)
                            (default [] (adj g !! cur)) (pq1, dist);
          sp_loop fuel g dst pq2 dist2 prev1
    end.
Proof. reflexivity. Qed.

Section sp_loop.
Variable g : TransportGraph.
Variables src dst : string.
Hypothesis Hg : nonneg_durations g.

(** A route ends in a finalized station whose time it does not beat, or it
    takes at least as long as the least entry of the frontier. *)
Lemma sp_lower_bound pq dist prev (tmin : Qc) (es : list Edge) (v : string) :
  sp_inv g src dst pq dist prev ->
  (forall x, x ∈ pq -> tmin <= sp_time x) ->
  route g src es v ->
  (is_Some (prev !! v) ∧ exists d, dist !! v = Some d ∧ d <= total_time es)
  ∨ tmin <= total_time es.
Proof.
  intros Hinv Hmin Hr. induction Hr as [|es b e Hr IH He].
  - destruct (prev !! src) as [v|] eqn:Hp.
    + left. split; [eauto|]. exists 0. split; [apply Hinv|]. unfold total_time; simpl.
      qc_arith.
    + right. destruct (sp_queued _ _ _ _ _ _ Hinv src 0) as (x & Hx & _ & Ht);
        [apply Hinv|done|].
      specialize (Hmin x Hx). rewrite Ht in Hmin. done.
  - pose proof (nonneg_routes _ _ _ Hg He) as Hw. rewrite total_time_snoc.
    destruct IH as [[Hb (d & Hd & Hle)]|Hle]; [|right; qc_arith].
    destruct (sp_relaxed _ _ _ _ _ _ Hinv b d e Hb Hd He) as (dv & Hdv & Hle').
    destruct (prev !! to_station e) as [v|] eqn:Hp.
    + left. split; [eauto|]. exists dv. split; [done|]. qc_arith.
    + right. destruct (sp_queued _ _ _ _ _ _ Hinv _ dv Hdv Hp) as (x & Hx & _ & Ht).
      specialize (Hmin x Hx). rewrite Ht in Hmin. qc_arith.
Qed.

(** Once the frontier is empty, every station a route leads to is
    finalized. *)
Lemma sp_all_final dist prev (es : list Edge) (v : string) :
  sp_inv g src dst [] dist prev -> route g src es v -> is_Some (prev !! v).
Proof.
  intros Hinv Hr. induction Hr as [|es b e Hr IH He].
  - destruct (prev !! src) as [v|] eqn:Hp; [eauto|].
    destruct (sp_queued _ _ _ _ _ _ Hinv src 0) as (x & Hx & _); [apply Hinv|done|].
    by apply elem_of_nil in Hx.
  - destruct (sp_final _ _ _ _ _ _ Hinv b IH) as (d & Hd & _).
    destruct (sp_relaxed _ _ _ _ _ _ Hinv b d e IH Hd He) as (dv & Hdv & _).
    destruct (prev !! to_station e) as [v|] eqn:Hp; [eauto|].
    destruct (sp_queued _ _ _ _ _ _ Hinv _ dv Hdv Hp) as (x & Hx & _).
    by apply elem_of_nil in Hx.
Qed.

(** The state at the start: the seed on the frontier. *)
Lemma sp_inv_init :
  sp_inv g src dst [(0, src, None, None)] {[src := 0]} ∅.
Proof.
  split.
  - intros i x y Hi Hy. apply lookup_lt_Some in Hy. simpl in Hy. lia.
  - intros x ->%list_elem_of_singleton. exists 0. unfold sp_station, sp_time. simpl.
    rewrite lookup_singleton_eq. split; [done|]. qc_arith.
  - intros s d [<- <-]%lookup_singleton_Some _.
    exists (0, src, None, None). split; [by left|done].
  - intros u du e [? Hu]. by rewrite lookup_empty in Hu.
  - intros u [? Hu]. by rewrite lookup_empty in Hu.
  - apply lookup_singleton_eq.
  - intros s d [<- <-]%lookup_singleton_Some. exists []. split; [constructor|done].
  - intros x ->%list_elem_of_singleton. unfold sp_time; simpl. qc_arith.
  - by intros x y ->%list_elem_of_singleton ->%list_elem_of_singleton.
  - by intros x p ->%list_elem_of_singleton.
  - intros s p l Hs. by rewrite lookup_empty in Hs.
  - intros s path [? Hs]. by rewrite lookup_empty in Hs.
  - apply lookup_empty.
  - rewrite map_size_empty, pending_empty. simpl. lia.
Qed.

(** Dropping a stale entry. *)
Lemma sp_inv_stale pq dist prev (x : sp_entry) pq1 :
  sp_inv g src dst pq dist prev ->
  heap_ok sp_le pq1 -> pq ≡ₚ x :: pq1 ->
  is_Some (prev !! sp_station x) ->
  sp_inv g src dst pq1 dist prev.
Proof.
  intros Hinv Hheap Hperm Hx.
  assert (forall y, y ∈ pq1 -> y ∈ pq) as Hsub.
  { intros y Hy. rewrite Hperm. by right. }
  split; try apply Hinv.
  - done.
  - intros y Hy. apply Hinv. auto.
  - intros s d Hd Hp.
    destruct (sp_queued _ _ _ _ _ _ Hinv s d Hd Hp) as (y & Hy & Hs & Ht).
    exists y. split; [|done]. rewrite Hperm in Hy.
    apply elem_of_cons in Hy as [->|Hy]; [|done].
    rewrite Hs, Hp in Hx. by destruct Hx.
  - intros u Hu. destruct (sp_final _ _ _ _ _ _ Hinv u Hu) as (du & Hdu & Hle).
    exists du. split; [done|]. auto.
  - intros y Hy. apply Hinv. auto.
  - intros a b Ha Hb. apply Hinv; auto.
  - intros y p Hy. eapply (sp_links _ _ _ _ _ _ Hinv); auto.
  - pose proof (sp_budget _ _ _ _ _ _ Hinv) as Hb.
    rewrite Hperm in Hb. simpl in Hb. lia.
Qed.

(** The popped entry of a station not yet finalized carries its time. *)
Lemma sp_popped_time pq dist prev (x : sp_entry) :
  sp_inv g src dst pq dist prev ->
  x ∈ pq -> (forall y, y ∈ pq -> sp_le x y) ->
  prev !! sp_station x = None ->
  dist !! sp_station x = Some (sp_time x).
Proof.
  intros Hinv Hx Hmin Hp.
  destruct (sp_known _ _ _ _ _ _ Hinv x Hx) as (d & Hd & Hle).
  destruct (sp_queued _ _ _ _ _ _ Hinv _ d Hd Hp) as (y & Hy & _ & Ht).
  specialize (Hmin y Hy). unfold sp_le in Hmin. rewrite Ht in Hmin.
  rewrite Hd. f_equal. by apply Qcle_antisym.
Qed.

(** Finalizing the popped entry. *)
Lemma sp_mid_start pq dist prev (x : sp_entry) pq1 :
  sp_inv g src dst pq dist prev ->
  heap_ok sp_le pq1 -> pq ≡ₚ x :: pq1 -> (forall y, y ∈ pq -> sp_le x y) ->
  prev !! sp_station x = None ->
  sp_mid g src (sp_station x) (sp_time x)
    (<[sp_station x := (sp_pred x, x.2)]> prev) pq1 dist.
Proof.
  intros Hinv Hheap Hperm Hmin Hp.
  assert (x ∈ pq) as Hx by (rewrite Hperm; by left).
  assert (forall y, y ∈ pq1 -> y ∈ pq) as Hsub.
  { intros y Hy. rewrite Hperm. by right. }
  assert (forall u, is_Some (<[sp_station x := (sp_pred x, x.2)]> prev !! u) ->
            u = sp_station x ∨ is_Some (prev !! u)) as Hfin.
  { intros u Hu. destruct (decide (sp_station x = u)) as [|Hne]; [by left|right].
    by rewrite lookup_insert_ne in Hu. }
  pose proof (sp_popped_time _ _ _ _ Hinv Hx Hmin Hp) as Hd.
  split.
  - done.
  - intros y Hy. apply Hinv. auto.
  - intros s d Hds Hps.
    destruct (decide (sp_station x = s)) as [<-|Hne].
    { by rewrite lookup_insert_eq in Hps. }
    rewrite lookup_insert_ne in Hps by done.
    destruct (sp_queued _ _ _ _ _ _ Hinv s d Hds Hps) as (y & Hy & Hs & Ht).
    exists y. split; [|done]. rewrite Hperm in Hy.
    apply elem_of_cons in Hy as [->|Hy]; [congruence|done].
  - intros u du e [->|Hu]%Hfin Hne; [done|]. by apply Hinv.
  - intros u [->|Hu]%Hfin.
    + exists (sp_time x). split; [done|]. qc_arith.
    + destruct (sp_final _ _ _ _ _ _ Hinv u Hu) as (du & Hdu & Hle).
      exists du. split; [done|]. by apply Hle.
  - intros y Hy. apply Hmin. auto.
  - done.
  - by apply Hinv.
  - apply Hinv.
  - apply Hinv.
  - intros a b Ha Hb. apply Hinv; auto.
  - intros y p Hy Hpy.
    destruct (sp_links _ _ _ _ _ _ Hinv y p (Hsub y Hy) Hpy) as [v Hv].
    destruct (decide (sp_station x = p)) as [<-|Hne].
    + rewrite lookup_insert_eq. eauto.
    + rewrite lookup_insert_ne by done. eauto.
Qed.

(** The state once all the edges out of the finalized station are relaxed. *)
Lemma sp_inv_next pq dist prev (x : sp_entry) pq2 dist2 :
  sp_inv g src dst pq dist prev ->
  x ∈ pq -> prev !! sp_station x = None -> sp_station x <> dst ->
  sp_mid g src (sp_station x) (sp_time x)
    (<[sp_station x := (sp_pred x, x.2)]> prev) pq2 dist2 ->
  (forall e, e ∈ routes_from g (sp_station x) ->
     exists dv, dist2 !! to_station e = Some dv ∧ dv <= sp_time x + time e) ->
  (length pq2 <= length pq - 1 + length (routes_from g (sp_station x)))%nat ->
  sp_inv g src dst pq2 dist2 (<[sp_station x := (sp_pred x, x.2)]> prev).
Proof.
  intros Hinv Hx Hp Hdst Hmid Hrel Hlen.
  assert (forall p', sp_pred x = Some p' -> is_Some (prev !! p')) as Hpred.
  { intros p' Hp'. by apply (sp_links _ _ _ _ _ _ Hinv x). }
  split.
  - apply Hmid.
  - apply Hmid.
  - apply Hmid.
  - intros u du e Hu Hdu He.
    destruct (decide (u = sp_station x)) as [->|Hne].
    + pose proof (mid_cur _ _ _ _ _ _ _ Hmid) as Hc. simplify_eq. by apply Hrel.
    + by apply (mid_relaxed _ _ _ _ _ _ _ Hmid u).
  - intros u Hu. destruct (mid_low _ _ _ _ _ _ _ Hmid u Hu) as (du & Hdu & Hle).
    exists du. split; [done|]. intros y Hy.
    pose proof (mid_high _ _ _ _ _ _ _ Hmid y Hy). qc_arith.
  - apply Hmid.
  - apply Hmid.
  - intros y Hy. pose proof (mid_high _ _ _ _ _ _ _ Hmid y Hy).
    pose proof (mid_tpos _ _ _ _ _ _ _ Hmid). qc_arith.
  - apply Hmid.
  - apply Hmid.
  - apply sp_chain_insert; [apply Hinv|done].
  - apply sp_walks_insert; [apply Hinv|apply Hinv|done|done].
  - rewrite lookup_insert_ne by done. apply Hinv.
  - pose proof (sp_budget _ _ _ _ _ _ Hinv) as Hb.
    pose proof (pending_insert g prev (sp_station x) (sp_pred x, x.2) Hp) as Hpe.
    rewrite map_size_insert_None by done. unfold routes_from in Hlen.
    assert (0 < length pq)%nat. { destruct pq; [by apply elem_of_nil in Hx|simpl; lia]. }
    lia.
Qed.

Lemma sp_loop_total (fuel : nat) pq dist prev :
  sp_inv g src dst pq dist prev ->
  (length pq + pending g prev < fuel)%nat ->
  exists dist' prev',
    sp_loop fuel g dst pq dist prev = Ret (dist', prev')
    ∧ sp_post g src dst dist' prev'.
Proof.
  revert pq dist prev. induction fuel as [|fuel IH]; intros pq dist prev Hinv Hfuel; [lia|].
  destruct pq as [|y pq].
  { exists dist, prev. split; [done|]. split; [apply Hinv|]. split.
    - pose proof (sp_budget _ _ _ _ _ _ Hinv). lia.
    - rewrite (sp_undone _ _ _ _ _ _ Hinv). intros es Hes.
      pose proof (sp_all_final _ _ _ _ Hinv Hes) as [v Hv].
      by rewrite (sp_undone _ _ _ _ _ _ Hinv) in Hv. }
  destruct (heappop_total (y :: pq)) as (x & pq1 & Hpop); [done| |].
  { apply sp_distinct_comparable, Hinv. }
  destruct (sp_heappop _ _ _ (sp_heap _ _ _ _ _ _ Hinv) Hpop) as (Hheap & Hperm & Hmin).
  assert (x ∈ y :: pq) as Hx by (rewrite Hperm; by left).
  rewrite sp_loop_S, Hpop, bind_Ret.
  destruct x as [[[t cur] p] l].
  change cur with (sp_station (t, cur, p, l)).
  destruct (prev !! sp_station (t, cur, p, l)) as [v|] eqn:Hp.
  { apply IH.
    - eapply sp_inv_stale; eauto.
    - rewrite Hperm in Hfuel. simpl in Hfuel. lia. }
  pose proof (sp_mid_start _ _ _ _ _ Hinv Hheap Hperm Hmin Hp) as Hmid.
  pose proof (sp_popped_time _ _ _ _ Hinv Hx Hmin Hp) as Hd.
  assert (forall p', sp_pred (t, cur, p, l) = Some p' -> is_Some (prev !! p')) as Hpred.
  { intros p' Hp'. by apply (sp_links _ _ _ _ _ _ Hinv (t, cur, p, l)). }
  cbv zeta. destruct (decide (sp_station (t, cur, p, l) = dst)) as [Hdst|Hdst].
  { eexists _, _. split; [reflexivity|]. split; [|split].
    - apply sp_walks_insert; [apply Hinv|apply Hinv|done|done].
    - rewrite map_size_insert_None by done.
      pose proof (sp_budget _ _ _ _ _ _ Hinv) as Hb. simpl in Hb. lia.
    - rewrite <-Hdst, lookup_insert_eq. exists t. split; [done|]. split.
      + by apply (sp_real _ _ _ _ _ _ Hinv).
      + intros es Hes.
        destruct (sp_lower_bound _ _ _ t es _ Hinv Hmin Hes) as [[Hfin _]|Hle]; [|done].
        rewrite Hp in Hfin. by destruct Hfin. }
  destruct (sp_relax_all g src _ _ _ Hg (ltac:(by rewrite lookup_insert_eq))
              (default [] (adj g !! cur)) pq1 dist Hmid)
    as (pq2 & dist2 & Hfold & Hmid2 & Hmono & Hrel & Hlen); [done|].
  assert (length pq1 = length pq) as Hlen1.
  { apply Permutation_length in Hperm. simpl in Hperm. lia. }
  destruct (IH pq2 dist2 (<[cur := (p, l)]> prev)) as (dist' & prev' & Hloop & Hpost).
  - apply (sp_inv_next (y :: pq) dist prev (t, cur, p, l)); try done.
    simpl. unfold routes_from, sp_station. simpl. lia.
  - pose proof (pending_insert g prev cur (p, l) Hp) as Hpe. simpl in Hfuel.
    unfold sp_station in *; simpl in *. lia.
  - exists dist', prev'. split; [|done].
    change (sp_station (t, cur, p, l)) with cur in *.
    change (sp_time (t, cur, p, l)) with t in *.
    by rewrite Hfold, bind_Ret.
Qed.
End sp_loop.

(** ** [shortest_path] *)

(** With durations that are not negative, [shortest_path] between two
    existing stations returns: the time of a route that no route beats, or
    the no-path result when there is no route. *)
Lemma shortest_path_cases (g : TransportGraph) (src dst : string) :
  nonneg_durations g -> is_Some (adj g !! src) -> is_Some (adj g !! dst) ->
  (exists d path,
     shortest_path g src dst = Ret (Finite d, path)
     ∧ (exists es, route g src es dst ∧ total_time es = d)
     ∧ forall es, route g src es dst -> d <= total_time es)
  ∨ (shortest_path g src dst = Ret (Infinity, [])
     ∧ forall es, ~ route g src es dst).
Proof.
  intros Hg [es1 Hsrc] [es2 Hdst].
  unfold shortest_path, shortest_path_fuel. rewrite Hsrc, Hdst, heappush_nil, bind_Ret.
  destruct (sp_loop_total g src dst Hg (sp_fuel g) _ _ _ (sp_inv_init g src dst))
    as (dist & prev & -> & Hwalks & Hsize & Hpost).
  { rewrite pending_empty. unfold sp_fuel. simpl. lia. }
  rewrite bind_Ret. destruct (prev !! dst) as [v|] eqn:Hp; [left|by right].
  destruct Hpost as (d & Hd & Hreal & Hopt).
  destruct (Hwalks dst []) as [r Hr]; [eauto|].
  rewrite (sp_walk_fuel _ (size prev)); [|by rewrite Hr|unfold sp_fuel; lia].
  rewrite Hr, bind_Ret, Hd. eauto.
Qed.


(** ** Comparisons *)

Section comparisons.
Context {A B : Type}.

Lemma cmp_refl (c : A -> A -> comparison) `{!GoodCmp c} (x : A) : c x x = Eq.
Proof. by apply cmp_eq_iff. Qed.

Lemma cmp_le_refl (c : A -> A -> comparison) `{!GoodCmp c} (x : A) : cmp_le c x x.
Proof. unfold cmp_le. by rewrite cmp_refl. Qed.

Lemma cmp_le_trans (c : A -> A -> comparison) `{!GoodCmp c} (x y z : A) :
  cmp_le c x y -> cmp_le c y z -> cmp_le c x z.
Proof.
  unfold cmp_le. intros Hxy Hyz.
  destruct (c x y) eqn:E1; [|clear Hxy|done].
  { apply cmp_eq_iff in E1 as ->. done. }
  destruct (c y z) eqn:E2; [|clear Hyz|done].
  { apply cmp_eq_iff in E2 as ->. by rewrite E1. }
  by rewrite (cmp_lt_trans (c := c) x y z E1 E2).
Qed.

Lemma cmp_le_antisym (c : A -> A -> comparison) `{!GoodCmp c} (x y : A) :
  cmp_le c x y -> cmp_le c y x -> x = y.
Proof.
  unfold cmp_le. rewrite (cmp_opp (c := c) x y). intros Hxy Hyx.
  apply (cmp_eq_iff (c := c)). by destruct (c x y).
Qed.

Lemma py_lt_cmp_le (c : A -> A -> comparison) `{PyOrd A} `{!GoodCmp c} `{!PyAgree c}
    (x y : A) (b : bool) :
  py_lt x y = Ret b -> if b then cmp_le c x y else cmp_le c y x.
Proof.
  intros Hb. apply (py_lt_cmp (c := c)) in Hb. unfold cmp_le.
  rewrite (cmp_opp (c := c) x y).
  destruct b.
  - by rewrite (proj1 Hb eq_refl).
  - destruct (c x y); simpl; [done| |done]. discriminate (proj2 Hb eq_refl).
Qed.

#[global] Instance lex_cmp_good (c1 : A -> A -> comparison) (c2 : B -> B -> comparison)
  `{!GoodCmp c1} `{!GoodCmp c2} : GoodCmp (lex_cmp c1 c2).
Proof.
  split.
  - intros [a b] [a' b']. unfold lex_cmp. simpl.
    destruct (c1 a a') eqn:E1.
    + apply cmp_eq_iff in E1 as ->. rewrite (cmp_eq_iff (c := c2)). naive_solver.
    + split; [done|]. intros [= -> ->]. by rewrite cmp_refl in E1.
    + split; [done|]. intros [= -> ->]. by rewrite cmp_refl in E1.
  - intros [a b] [a' b']. unfold lex_cmp. simpl.
    rewrite (cmp_opp (c := c1) a a').
    destruct (c1 a a'); simpl; [apply cmp_opp|done..].
  - intros [a b] [a' b'] [a'' b'']. unfold lex_cmp. simpl.
    destruct (c1 a a') eqn:E1; [| |done];
      (destruct (c1 a' a'') eqn:E2; [| |done]).
    + apply cmp_eq_iff in E1 as ->. rewrite E2. apply cmp_lt_trans.
    + apply cmp_eq_iff in E1 as ->. by rewrite E2.
    + intros _ _. apply cmp_eq_iff in E2 as <-. by rewrite E1.
    + intros _ _. by rewrite (cmp_lt_trans (c := c1) a a' a'' E1 E2).
Qed.

#[global] Instance lex_cmp_agree `{PyOrd A} `{PyOrd B}
  (c1 : A -> A -> comparison) (c2 : B -> B -> comparison)
  `{!GoodCmp c1} `{!GoodCmp c2} `{!PyAgree c1} `{!PyAgree c2} :
  PyAgree (lex_cmp c1 c2).
Proof.
  split.
  - intros [a b] [a' b']. simpl. rewrite andb_true_iff.
    rewrite (py_eq_iff (c := c1)), (py_eq_iff (c := c2)). naive_solver.
  - intros [a b] [a' b'] r. unfold lex_cmp. simpl.
    destruct (py_eq a a') eqn:E1.
    + apply (py_eq_iff (c := c1)) in E1 as ->. rewrite (cmp_refl c1).
      destruct (py_eq b b') eqn:E2.
      * apply (py_eq_iff (c := c2)) in E2 as ->. intros [= <-].
        by rewrite (proj2 (cmp_eq_iff (c := c2) b' b') eq_refl).
      * apply (py_lt_cmp (c := c2)).
    + intros Hr. pose proof (py_lt_cmp (c := c1) _ _ _ Hr) as Hc.
      destruct (c1 a a') eqn:E; [|done|].
      * apply cmp_eq_iff in E as ->.
        by rewrite (proj2 (py_eq_iff (c := c1) a' a') eq_refl) in E1.
      * rewrite Hc. done.
Qed.

#[global] Instance opt_cmp_good (c : A -> A -> comparison) `{!GoodCmp c} :
  GoodCmp (opt_cmp c).
Proof.
  split.
  - intros [a|] [b|]; simpl; try done. rewrite (cmp_eq_iff (c := c)). naive_solver.
  - intros [a|] [b|]; simpl; try done. apply cmp_opp.
  - intros [a|] [b|] [d|]; simpl; try done. apply cmp_lt_trans.
Qed.

#[global] Instance opt_cmp_agree `{PyOrd A} (c : A -> A -> comparison)
  `{!PyAgree c} : PyAgree (opt_cmp c).
Proof.
  split.
  - intros [a|] [b|]; simpl; try done. rewrite (py_eq_iff (c := c)). naive_solver.
  - intros [a|] [b|] r; simpl; try done. apply py_lt_cmp.
Qed.
End comparisons.

#[global] Instance Qccompare_good : GoodCmp Qccompare.
Proof.
  split.
  - intros x y. symmetry. apply Qceq_alt.
  - intros x y. unfold Qccompare. by rewrite <-Qcompare_antisym.
  - intros x y z. rewrite <-!Qclt_alt. apply Qclt_trans.
Qed.

#[global] Instance Qccompare_agree : PyAgree Qccompare.
Proof.
  split.
  - intros x y. simpl. apply bool_decide_eq_true.
  - intros x y b [= <-]. rewrite <-Qclt_alt. apply bool_decide_eq_true.
Qed.

#[global] Instance string_compare_good : GoodCmp String.compare.
Proof.
  split.
  - apply OrderedTypeEx.String_as_OT.cmp_eq.
  - intros x y. apply OrderedTypeEx.String_as_OT.cmp_antisym.
  - intros x y z. rewrite !OrderedTypeEx.String_as_OT.cmp_lt.
    apply OrderedTypeEx.String_as_OT.lt_trans.
Qed.

#[global] Instance string_compare_agree : PyAgree String.compare.
Proof.
  split.
  - intros x y. simpl. apply bool_decide_eq_true.
  - intros x y b [= <-]. unfold String.ltb. by destruct (String.compare x y).
Qed.

#[global] Instance nat_compare_good : GoodCmp Nat.compare.
Proof.
  split.
  - apply Nat.compare_eq_iff.
  - intros x y. apply Nat.compare_antisym.
  - intros x y z. rewrite !Nat.compare_lt_iff. lia.
Qed.

#[global] Instance nat_compare_agree : PyAgree Nat.compare.
Proof.
  split.
  - intros x y. simpl. apply bool_decide_eq_true.
  - intros x y b [= <-]. rewrite Nat.compare_lt_iff. apply bool_decide_eq_true.
Qed.

#[global] Instance fr_cmp_good : GoodCmp fr_cmp.
Proof. unfold fr_cmp. apply _. Qed.

#[global] Instance fr_cmp_agree : PyAgree fr_cmp.
Proof. unfold fr_cmp. apply _. Qed.

Lemma fr_le_time (x y : fr_entry) : fr_le x y -> fr_time x <= fr_time y.
Proof.
  destruct x as [[[t s] l] n], y as [[[t' s'] l'] n'].
  unfold fr_le, cmp_le, fr_cmp, lex_cmp, fr_time. simpl.
  intros Hc. apply Qcle_alt. by destruct (t ?= t').
Qed.

Lemma fr_heappush (pq : list fr_entry) (x : fr_entry) r :
  heap_ok fr_le pq -> heappush pq x = Ret r -> heap_ok fr_le r ∧ r ≡ₚ x :: pq.
Proof.
  apply heappush_spec; [apply (cmp_le_trans fr_cmp)|apply (py_lt_cmp_le fr_cmp)].
Qed.

Lemma fr_heappop (pq : list fr_entry) (x : fr_entry) pq' :
  heap_ok fr_le pq -> heappop pq = Ret (x, pq') ->
  heap_ok fr_le pq' ∧ pq ≡ₚ x :: pq' ∧ forall y, y ∈ pq -> fr_le x y.
Proof.
  apply heappop_spec;
    [apply (cmp_le_refl fr_cmp)|apply (cmp_le_trans fr_cmp)|apply (py_lt_cmp_le fr_cmp)].
Qed.

(** ** Membership in a heap *)

Lemma heappush_perm `{PyOrd A} (h : list A) (x : A) r :
  heappush h x = Ret r -> r ≡ₚ x :: h.
Proof.
  intros Hr. apply (heappush_spec (fun _ _ => True)) in Hr; [by destruct Hr|done| |done].
  intros a b c _. by destruct c.
Qed.

Lemma heappop_perm `{PyOrd A} (h : list A) (x : A) h' :
  heappop h = Ret (x, h') -> h ≡ₚ x :: h'.
Proof.
  intros Hr.
  apply (heappop_spec (fun _ _ => True)) in Hr; [by destruct Hr as (_ & ? & _)|done..| |done].
  intros a b c _. by destruct c.
Qed.

(** ** Relaxing an edge in the transfer-aware search *)

Lemma fr_loop_S (fuel : nat) (g : TransportGraph) (src dst : string)
    (mt : option Z) (y : fr_entry) (pq : list fr_entry) best parent :
  fr_loop (S fuel) g src dst mt (y :: pq, best, parent) =
    '(time_so_far, cur, cur_line, transfers_used, pq1) ← heappop (y :: pq);
    let key := (cur, cur_line, transfers_used) in
    if xlt (best_get best key) (Finite (time_so_far - eps))
    then fr_loop fuel g src dst mt (pq1, best, parent)
    else if decide (cur = dst) then
      path_states ← fr_walk fuel parent key [];
      Ret (Finite time_so_far, reverse (path_states ++ [(src, None)]))
    else
      st2 ← for_each (fr_relax g mt time_so_far cur cur_line transfers_used)
              (default [] (adj g !! cur)) (pq1, best, parent);
      fr_loop fuel g src dst mt st2.
Proof. reflexivity. Qed.

Lemma transfer_step_bounds (g : TransportGraph) (cur : string) (cl : option string)
    (n : nat) (el : option string) :
  ((transfer_step g cur cl n el).1 = 0 ∨ (transfer_step g cur cl n el).1 = wait_at g cur)
  ∧ ((transfer_step g cur cl n el).2 = n ∨ (transfer_step g cur cl n el).2 = S n).
Proof.
  unfold transfer_step. destruct cl; [|auto].
  destruct (_ && _); simpl; [|auto]. split; [auto|right; lia].
Qed.

Lemma wait_at_nonneg (g : TransportGraph) (cur : string) :
  nonneg g -> 0 <= wait_at g cur.
Proof.
  intros (_ & Hw & Hd). unfold wait_at.
  destruct (transfer_waits g !! cur) as [w|] eqn:E; simpl; [|done]. by apply Hw in E.
Qed.

Lemma fr_relax_cases (g : TransportGraph) (mt : option Z) (t : Qc) (cur : string)
    (cl : option string) (n : nat) pq best parent (e : Edge) (st2 : fr_state) :
  fr_relax g mt t cur cl n (pq, best, parent) e = Ret st2 ->
  let n' := (transfer_step g cur cl n (line e)).2 in
  let nt := t + (transfer_step g cur cl n (line e)).1 + time e in
  let key := (to_station e, line e, n') in
  (st2 = (pq, best, parent)
   ∧ (over_cap mt n' = true ∨ xlt (Finite (nt + eps)) (best_get best key) = false))
  ∨ (over_cap mt n' = false
     ∧ xlt (Finite (nt + eps)) (best_get best key) = true
     ∧ exists pq2, heappush pq (nt, to_station e, line e, n') = Ret pq2
         ∧ st2 = (pq2, <[key := nt]> best, <[key := ((cur, cl, n), line e)]> parent)).
Proof.
  unfold fr_relax. destruct (transfer_step g cur cl n (line e)) as [w n'].
  cbv beta iota zeta. cbn [fst snd].
  destruct (over_cap mt n'); [intros [= <-]; auto|].
  destruct (xlt (Finite (t + w + time e + eps)) _); [|intros [= <-]; auto].
  intros (pq2 & Hpush & [= <-])%bind_Ret_inv. right. eauto.
Qed.

(** Every entry pushed is at least as late as the entry it comes from. *)
Lemma fr_relax_bound (g : TransportGraph) (mt : option Z) (t : Qc) (cur : string)
    (cl : option string) (n : nat) (st st2 : fr_state) (e : Edge) (lb : Qc) :
  nonneg g -> e ∈ routes_from g cur -> lb <= t ->
  (forall y, y ∈ st.1.1 -> lb <= fr_time y) ->
  fr_relax g mt t cur cl n st e = Ret st2 ->
  forall y, y ∈ st2.1.1 -> lb <= fr_time y.
Proof.
  intros Hg He Hlb Hst. destruct st as [[pq best] parent].
  intros [[-> _]|(_ & _ & pq2 & Hpush%heappush_perm & ->)]%fr_relax_cases; [done|].
  simpl in *. intros y. rewrite Hpush. intros [->|Hy]%elem_of_cons; [|auto].
  unfold fr_time. simpl.
  pose proof (nonneg_routes _ _ _ (proj1 Hg) He).
  pose proof (wait_at_nonneg g cur Hg).
  destruct (transfer_step_bounds g cur cl n (line e)) as [[-> | ->] _]; qc_arith.
Qed.

Lemma fr_relax_all_bound (g : TransportGraph) (mt : option Z) (t : Qc) (cur : string)
    (cl : option string) (n : nat) (es : list Edge) (st st2 : fr_state) (lb : Qc) :
  nonneg g -> (forall e, e ∈ es -> e ∈ routes_from g cur) -> lb <= t ->
  (forall y, y ∈ st.1.1 -> lb <= fr_time y) ->
  for_each (fr_relax g mt t cur cl n) es st = Ret st2 ->
  forall y, y ∈ st2.1.1 -> lb <= fr_time y.
Proof.
  intros Hg Hes Hlb. revert st. induction es as [|e es IH]; intros st Hst.
  { by intros [= <-]. }
  rewrite for_each_cons. intros (st1 & Hstep & Hrest)%bind_Ret_inv.
  eapply IH; [|eapply fr_relax_bound; eauto|done].
  - intros e' He'. apply Hes. by right.
  - apply Hes. by left.
Qed.

(** With durations and waits that are not negative, the time the search
    returns is not below the times on the frontier. *)
Lemma fr_loop_lower_bound (fuel : nat) (g : TransportGraph) (src dst : string)
    (mt : option Z) (st : fr_state) (lb : Qc) r :
  nonneg g ->
  (forall y, y ∈ st.1.1 -> lb <= fr_time y) ->
  fr_loop fuel g src dst mt st = Ret r ->
  xle (Finite lb) r.1.
Proof.
  intros Hg. revert st. induction fuel as [|fuel IH]; intros st Hst; [done|].
  destruct st as [[[|y pq] best] parent]; [by intros [= <-]|].
  rewrite fr_loop_S.
  intros ([[[[t cur] cl] n] pq1] & Hpop%heappop_perm & Hr)%bind_Ret_inv.
  simpl in Hst.
  assert (lb <= t) as Hlb.
  { apply (Hst (t, cur, cl, n)). rewrite Hpop. by left. }
  assert (forall y', y' ∈ pq1 -> lb <= fr_time y') as Hst1.
  { intros y' Hy'. apply Hst. rewrite Hpop. by right. }
  cbv zeta in Hr. destruct (xlt _ _); [by eapply IH; [|exact Hr]|].
  destruct (decide (cur = dst)).
  { apply bind_Ret_inv in Hr as (ps & _ & [= <-]). done. }
  apply bind_Ret_inv in Hr as (st2 & Hfold & Hr).
  eapply IH; [|exact Hr].
  eapply (fr_relax_all_bound g mt t cur cl n _ (pq1, best, parent));
    [done| |exact Hlb|exact Hst1|exact Hfold].
  done.
Qed.

(** ** The run under cap [k] inside the run under cap [k + 1] *)

Lemma over_cap_nat (k n : nat) :
  over_cap (Some (Z.of_nat k)) n = bool_decide (k < n)%nat.
Proof. unfold over_cap. apply bool_decide_ext. lia. Qed.

Section simulation.
Variable g : TransportGraph.
Variable k : nat.

Lemma fr_sim_push_both pq best parent pq' best' parent' (x : fr_entry) pq2 pq2'
    (key : fr_key) (v : Qc) parent2 parent2' :
  fr_sim k (pq, best, parent) (pq', best', parent') ->
  heappush pq x = Ret pq2 -> heappush pq' x = Ret pq2' ->
  (fr_transfers x <= k)%nat ->
  fr_sim k (pq2, <[key := v]> best, parent2) (pq2', <[key := v]> best', parent2').
Proof.
  intros [Hh Hh' Hpq Hbest] Hpush Hpush' Hx. simpl in *.
  destruct (fr_heappush _ _ _ Hh Hpush) as [Hh2 Hp2].
  destruct (fr_heappush _ _ _ Hh' Hpush') as [Hh2' Hp2'].
  split; simpl; [done|done| |].
  - rewrite Hp2, Hp2', filter_cons_True by done. by rewrite Hpq.
  - intros key0 Hk. destruct (decide (key = key0)) as [->|Hne].
    + by rewrite !best_get_insert.
    + rewrite !best_get_insert_ne by done. auto.
Qed.

Lemma fr_sim_push_extra st pq' best' parent' (x : fr_entry) pq2'
    (key : fr_key) (v : Qc) parent2' :
  fr_sim k st (pq', best', parent') ->
  heappush pq' x = Ret pq2' ->
  (k < fr_transfers x)%nat -> (k < key.2)%nat ->
  fr_sim k st (pq2', <[key := v]> best', parent2').
Proof.
  intros [Hh Hh' Hpq Hbest] Hpush' Hx Hkey. simpl in *.
  destruct (fr_heappush _ _ _ Hh' Hpush') as [Hh2' Hp2'].
  split; simpl; [done|done| |].
  - rewrite Hp2', filter_cons_False by lia. done.
  - intros key0 Hk. rewrite best_get_insert_ne; [auto|].
    intros ->. lia.
Qed.

Lemma sim_relax_both (t : Qc) (cur : string) (cl : option string) (n : nat)
    (st st' st2 st2' : fr_state) (e : Edge) :
  (n <= k)%nat -> fr_sim k st st' ->
  fr_relax g (Some (Z.of_nat k)) t cur cl n st e = Ret st2 ->
  fr_relax g (Some (Z.of_nat (S k))) t cur cl n st' e = Ret st2' ->
  fr_sim k st2 st2'.
Proof.
  destruct st as [[pq best] parent], st' as [[pq' best'] parent'].
  intros Hn Hsim H1%fr_relax_cases H2%fr_relax_cases. cbv zeta in *.
  rewrite over_cap_nat in *.
  pose proof (sim_best _ _ _ Hsim
    (to_station e, line e, (transfer_step g cur cl n (line e)).2)) as Hbest.
  simpl in Hbest.
  destruct (transfer_step_bounds g cur cl n (line e)) as [_ Hn'].
  destruct (decide ((transfer_step g cur cl n (line e)).2 <= k)%nat) as [Hle|Hgt].
  - rewrite Hbest in H1 by done.
    destruct H1 as [[-> [Hc|Hx]]|(Hc & Hx & pq2 & Hpush & ->)],
      H2 as [[-> [Hc'|Hx']]|(Hc' & Hx' & pq2' & Hpush' & ->)];
      try done; try (apply bool_decide_eq_true_1 in Hc; lia);
      try (apply bool_decide_eq_true_1 in Hc'; lia); try congruence.
    by eapply fr_sim_push_both.
  - destruct H1 as [[-> _]|(Hc & _)]; last first.
    { apply bool_decide_eq_false_1 in Hc. lia. }
    destruct H2 as [[-> _]|(Hc' & Hx' & pq2' & Hpush' & ->)]; [done|].
    eapply fr_sim_push_extra; [done|done|simpl; lia..].
Qed.

Lemma sim_relax_extra (t : Qc) (cur : string) (cl : option string) (n : nat)
    (st st' st2' : fr_state) (e : Edge) :
  (k < n)%nat -> fr_sim k st st' ->
  fr_relax g (Some (Z.of_nat (S k))) t cur cl n st' e = Ret st2' ->
  fr_sim k st st2'.
Proof.
  destruct st' as [[pq' best'] parent'].
  intros Hn Hsim H2%fr_relax_cases. cbv zeta in *.
  destruct (transfer_step_bounds g cur cl n (line e)) as [_ Hn'].
  destruct H2 as [[-> _]|(Hc' & Hx' & pq2' & Hpush' & ->)]; [done|].
  eapply fr_sim_push_extra; [done|done|simpl; lia..].
Qed.

Lemma sim_relax_all_both (t : Qc) (cur : string) (cl : option string) (n : nat)
    (es : list Edge) (st st' st2 st2' : fr_state) :
  (n <= k)%nat -> fr_sim k st st' ->
  for_each (fr_relax g (Some (Z.of_nat k)) t cur cl n) es st = Ret st2 ->
  for_each (fr_relax g (Some (Z.of_nat (S k))) t cur cl n) es st' = Ret st2' ->
  fr_sim k st2 st2'.
Proof.
  intros Hn. revert st st'. induction es as [|e es IH]; intros st st' Hsim.
  { by intros [= <-] [= <-]. }
  rewrite !for_each_cons.
  intros (st1 & Hstep & Hrest)%bind_Ret_inv (st1' & Hstep' & Hrest')%bind_Ret_inv.
  eapply IH; [|done|done]. by eapply sim_relax_both.
Qed.

Lemma sim_relax_all_extra (t : Qc) (cur : string) (cl : option string) (n : nat)
    (es : list Edge) (st st' st2' : fr_state) :
  (k < n)%nat -> fr_sim k st st' ->
  for_each (fr_relax g (Some (Z.of_nat (S k))) t cur cl n) es st' = Ret st2' ->
  fr_sim k st st2'.
Proof.
  intros Hn. revert st'. induction es as [|e es IH]; intros st' Hsim.
  { by intros [= <-]. }
  rewrite !for_each_cons. intros (st1' & Hstep' & Hrest')%bind_Ret_inv.
  eapply IH; [|done]. by eapply sim_relax_extra.
Qed.
End simulation.

Lemma heap_ok_singleton {A} (le : A -> A -> Prop) (x : A) : heap_ok le [x].
Proof. intros i a b Hi Hb. apply lookup_lt_Some in Hb. simpl in Hb. lia. Qed.

Lemma xle_refl (a : xtime) : xle a a.
Proof. destruct a; simpl; [|done]. qc_arith. Qed.

(** The run under cap [k + 1] follows the run under cap [k] entry by entry,
    except for the entries of [k + 1] transfers, which only it has. It
    stops on an entry the other run stops on as well, or on one of its own
    that is popped earlier. *)
Lemma fr_sim_loop (g : TransportGraph) (k : nat) (src dst : string)
    (fuel2 fuel1 : nat) (st st' : fr_state) r1 r2 :
  nonneg g -> fr_sim k st st' ->
  fr_loop fuel1 g src dst (Some (Z.of_nat k)) st = Ret r1 ->
  fr_loop fuel2 g src dst (Some (Z.of_nat (S k))) st' = Ret r2 ->
  xle r2.1 r1.1.
Proof.
  intros Hg. revert fuel1 st st'.
  induction fuel2 as [|fuel2 IH]; intros fuel1 st st' Hsim H1 H2; [done|].
  destruct st as [[pq best] parent], st' as [[pq' best'] parent'].
  pose proof Hsim as [Hh Hh' Hpq Hbest]. simpl in Hh, Hh', Hpq, Hbest.
  destruct pq' as [|y' pq'].
  { apply Permutation_nil_r in Hpq as ->.
    destruct fuel1; [done|]. by simplify_eq/=. }
  rewrite fr_loop_S in H2.
  apply bind_Ret_inv in H2 as ([[[[t cur] cl] n] pq1'] & Hpop' & H2).
  destruct (fr_heappop _ _ _ Hh' Hpop') as (Hh1' & Hperm' & Hmin').
  cbv zeta in H2.
  destruct (decide (n <= k)%nat) as [Hn|Hn].
  - assert ((t, cur, cl, n) ∈ pq) as Hin.
    { rewrite Hpq, Hperm'. apply list_elem_of_filter. split; [done|by left]. }
    destruct fuel1 as [|fuel1]; [done|].
    destruct pq as [|y pq]; [by apply elem_of_nil in Hin|].
    rewrite fr_loop_S in H1.
    apply bind_Ret_inv in H1 as (x & Hpop & H1).
    destruct x as [x pq1].
    destruct (fr_heappop _ _ _ Hh Hpop) as (Hh1 & Hperm & Hmin).
    assert (x = (t, cur, cl, n)) as ->.
    { apply (cmp_le_antisym fr_cmp); [by apply Hmin|].
      apply Hmin'. assert (x ∈ y :: pq) as Hx by (rewrite Hperm; by left).
      rewrite Hpq in Hx. by apply list_elem_of_filter in Hx as [_ ?]. }
    assert (fr_sim k (pq1, best, parent) (pq1', best', parent')) as Hsim1.
    { split; simpl; [done|done| |done].
      apply (Permutation_cons_inv (a := (t, cur, cl, n))).
      rewrite <-Hperm, Hpq, Hperm', filter_cons_True by done. done. }
    cbv zeta in H1. rewrite (Hbest (cur, cl, n)) in H1 by done.
    destruct (xlt (best_get best' (cur, cl, n)) (Finite (t - eps))).
    { by eapply IH. }
    destruct (decide (cur = dst)).
    { apply bind_Ret_inv in H1 as (ps & _ & [= <-]).
      apply bind_Ret_inv in H2 as (ps' & _ & [= <-]). apply xle_refl. }
    apply bind_Ret_inv in H1 as (st2 & Hfold & H1).
    apply bind_Ret_inv in H2 as (st2' & Hfold' & H2).
    eapply IH; [|exact H1|exact H2].
    by eapply sim_relax_all_both.
  - assert (fr_sim k (pq, best, parent) (pq1', best', parent')) as Hsim1.
    { split; simpl; [done|done| |done].
      rewrite Hpq, Hperm', filter_cons_False by done. done. }
    destruct (xlt (best_get best' (cur, cl, n)) (Finite (t - eps))).
    { by eapply IH. }
    destruct (decide (cur = dst)).
    { apply bind_Ret_inv in H2 as (ps' & _ & [= <-]).
      eapply (fr_loop_lower_bound _ _ _ _ _ (pq, best, parent)); [done| |exact H1].
      simpl. intros y Hy. apply (fr_le_time (t, cur, cl, n)). apply Hmin'.
      rewrite Hpq in Hy. by apply list_elem_of_filter in Hy as [_ ?]. }
    apply bind_Ret_inv in H2 as (st2' & Hfold' & H2).
    eapply IH; [|exact H1|exact H2].
    eapply sim_relax_all_extra; [|done|done]. lia.
Qed.




(** ** Unknown stations *)

(** Both searches raise [ValueError] when an endpoint is not a station. *)
Lemma unknown_station (g : TransportGraph) (src dst : string) (fuel : nat)
    (max_transfers : option Z) :
  adj g !! src = None ∨ adj g !! dst = None ->
  shortest_path g src dst = Raise ValueError
  ∧ fastest_route_with_transfers fuel g src dst max_transfers = Raise ValueError.
Proof.
  unfold shortest_path, shortest_path_fuel, fastest_route_with_transfers.
  intros [-> | ->]; [done|]. by destruct (adj g !! src).
Qed.

(** * Further properties *)

(** ** Stations and their edges under the mutations *)

(** X1. [add_station] leaves the outgoing edges of every station as they
    were, also those of a station that exists already, and the station
    exists afterwards. *)
Theorem add_station_routes (g : TransportGraph) (s : string) (w : option Qc)
    (s' : string) :
  routes_from (add_station g s w) s' = routes_from g s'
  ∧ is_Some (adj (add_station g s w) !! s).
Proof.
  unfold routes_from. rewrite !add_station_adj. split.
  - case_decide; [by subst|done].
  - rewrite decide_True by done. eauto.
Qed.

(** X2. Removing an existing station deletes it and its wait, leaves no
    edge that leads to it, and keeps the other edges of the other stations
    in their order. *)
Theorem remove_station_gone (g : TransportGraph) (s s' : string) :
  is_Some (adj g !! s) ->
  adj (remove_station g s) !! s = None
  ∧ transfer_waits (remove_station g s) !! s = None
  ∧ (forall e, e ∈ routes_from (remove_station g s) s' -> to_station e <> s)
  ∧ (s' <> s ->
     routes_from (remove_station g s) s'
     = filter (fun e => to_station e <> s) (routes_from g s')).
Proof.
  intros Hs.
  assert (s' <> s ->
          routes_from (remove_station g s) s'
          = filter (fun e => to_station e <> s) (routes_from g s')) as Hother.
  { intros Hne. unfold routes_from. rewrite remove_station_adj by done.
    rewrite decide_False by done. by destruct (adj g !! s'). }
  split; [|split; [|split; [|done]]].
  - rewrite remove_station_adj by done. by rewrite decide_True.
  - destruct Hs as [es Hs]. unfold remove_station. rewrite Hs. simpl.
    apply lookup_delete_eq.
  - intros e He. destruct (decide (s' = s)) as [->|Hne].
    + unfold routes_from in He. rewrite remove_station_adj in He by done.
      rewrite decide_True in He by done. by apply elem_of_nil in He.
    + rewrite Hother in He by done. by apply list_elem_of_filter in He as [? _].
Qed.

Lemma remove_station_gone_witness :
  adj (remove_station two_lines "B") !! "B" = None
  ∧ transfer_waits (remove_station two_lines "B") !! "B" = None
  ∧ (forall e, e ∈ routes_from (remove_station two_lines "B") "A" ->
       to_station e <> "B")
  ∧ ("A" <> "B" ->
     routes_from (remove_station two_lines "B") "A"
     = filter (fun e => to_station e <> "B") (routes_from two_lines "A")).
Proof. apply remove_station_gone. eexists. vm_compute. reflexivity. Defined.

(** X3. [add_connection] creates the missing endpoints and appends the new
    edge to the edges out of [a], and its reverse to those out of [b] when
    bidirectional; the edges that were there stay in front, in their
    order. *)
Theorem add_connection_routes (g : TransportGraph) (a b : string) (t : Qc)
    (ln : option string) (bi : bool) (s : string) :
  routes_from (add_connection g a b t ln bi) s
  = routes_from g s
    ++ (if decide (a = s) then [mkEdge b t ln] else [])
    ++ (if bi && bool_decide (b = s) then [mkEdge a t ln] else [])
  ∧ is_Some (adj (add_connection g a b t ln bi) !! a)
  ∧ is_Some (adj (add_connection g a b t ln bi) !! b).
Proof.
  split; [|split; apply add_connection_is_Some; auto].
  unfold routes_from. rewrite add_connection_adj, with_endpoints_lookup.
  case_decide as Hd.
  - simpl. destruct (decide (a = s)); by rewrite <-?(assoc_L (++)), ?app_nil_r.
  - destruct (decide (a = s)) as [->|Ha]; [by destruct Hd; auto|].
    rewrite bool_decide_eq_false_2 by (intros ->; auto). rewrite andb_false_r.
    destruct (adj g !! s); simpl; by rewrite ?app_nil_r.
Qed.

Lemma remove_connection_filter (g : TransportGraph) (a b : string)
    (ln : option string) (bi : bool) (s : string) :
  routes_from (remove_connection g a b ln bi) s
  = filter (fun e => ~ selected a b ln bi s e) (routes_from g s)
  ∧ (is_Some (adj (remove_connection g a b ln bi) !! s) <-> is_Some (adj g !! s)).
Proof.
  split.
  - unfold routes_from. rewrite remove_connection_adj.
    destruct (adj g !! s) as [es|]; simpl; [|done].
    assert (forall P : Edge -> Prop, forall `{!forall e, Decision (P e)},
              (forall e, P e) -> filter P es = es) as Hall.
    { intros P ? HP. induction es as [|e es IH]; [done|].
      by rewrite filter_cons_True, IH. }
    unfold selected.
    destruct (decide (a = s)) as [Ha|Ha], bi, (decide (b = s)) as [Hb|Hb];
      rewrite ?bool_decide_eq_true_2, ?bool_decide_eq_false_2 by done; simpl.
    + rewrite list_filter_filter. apply list_filter_iff. intros e.
      destruct (matches b ln e), (matches a ln e); naive_solver.
    + apply list_filter_iff. intros e. destruct (matches b ln e); naive_solver.
    + apply list_filter_iff. intros e. destruct (matches b ln e); naive_solver.
    + apply list_filter_iff. intros e. destruct (matches b ln e); naive_solver.
    + apply list_filter_iff. intros e. destruct (matches a ln e); naive_solver.
    + symmetry. apply Hall. naive_solver.
    + symmetry. apply Hall. naive_solver.
    + symmetry. apply Hall. naive_solver.
  - rewrite remove_connection_adj. destruct (adj g !! s); [|done].
    split; eauto.
Qed.

(** X4. [remove_connection] deletes from the edges out of [a] those that
    lead to [b] on the line given (all that lead to [b] when no line is
    given), and likewise from [b] to [a] when bidirectional; it keeps every
    other edge in its order and adds or removes no station. *)
Theorem remove_connection_routes (g : TransportGraph) (a b : string)
    (ln : option string) (bi : bool) (s : string) :
  routes_from (remove_connection g a b ln bi) s
  = filter (fun e => ~ selected a b ln bi s e) (routes_from g s)
  ∧ (is_Some (adj (remove_connection g a b ln bi) !! s) <-> is_Some (adj g !! s)).
Proof. apply remove_connection_filter. Qed.

(** Two stores with the same stations and the same edges out of each have
    the same adjacency mapping. *)
Lemma adj_eq (m1 m2 : gmap string (list Edge)) :
  (forall s, default [] (m1 !! s) = default [] (m2 !! s)) ->
  (forall s, is_Some (m1 !! s) <-> is_Some (m2 !! s)) ->
  m1 = m2.
Proof.
  intros Hr Hs. apply map_eq. intros s. specialize (Hr s). specialize (Hs s).
  destruct (m1 !! s) as [es1|], (m2 !! s) as [es2|]; simpl in *; try done.
  - by subst.
  - destruct (proj1 Hs); eauto; done.
  - destruct (proj2 Hs); eauto; done.
Qed.

(** X5. Removing a connection a second time changes nothing. *)
Theorem remove_connection_twice (g : TransportGraph) (a b : string)
    (ln : option string) (bi : bool) :
  remove_connection (remove_connection g a b ln bi) a b ln bi
  = remove_connection g a b ln bi.
Proof.
  set (g1 := remove_connection g a b ln bi).
  assert (adj (remove_connection g1 a b ln bi) = adj g1) as Hadj.
  { apply adj_eq; intros s.
    - destruct (remove_connection_filter g1 a b ln bi s) as [Hr _].
      unfold routes_from in Hr. rewrite Hr.
      destruct (remove_connection_filter g a b ln bi s) as [Hr1 _].
      fold g1 in Hr1. unfold routes_from in Hr1. rewrite Hr1.
      rewrite list_filter_filter. apply list_filter_iff. tauto.
    - apply remove_connection_filter. }
  destruct g1 as [adj1 tw1 dw1] eqn:E. unfold remove_connection at 1.
  unfold remove_connection in Hadj. simpl in *. by rewrite Hadj.
Qed.

Lemma elem_of_stations (g : TransportGraph) (s : string) :
  s ∈ stations g <-> is_Some (adj g !! s).
Proof.
  unfold stations. rewrite list_elem_of_fmap. split.
  - intros ([s' es] & -> & Hin). apply elem_of_map_to_list in Hin. eauto.
  - intros [es Hs]. exists (s, es). split; [done|]. by apply elem_of_map_to_list.
Qed.

(** X6. [stations] lists each station once, and the mutations change the
    stations listed as follows: [add_station] adds its station,
    [remove_station] removes it, [add_connection] adds both endpoints and
    [remove_connection] changes nothing. *)
Theorem stations_mutate (g : TransportGraph) (m : mutation) (s : string) :
  NoDup (stations g)
  ∧ (s ∈ stations (mutate g m) <->
     match m with
     | AddStation x _ => s = x ∨ s ∈ stations g
     | RemoveStation x => s <> x ∧ s ∈ stations g
     | AddConnection a b _ _ _ => s = a ∨ s = b ∨ s ∈ stations g
     | RemoveConnection _ _ _ _ => s ∈ stations g
     end).
Proof.
  split; [apply NoDup_fst_map_to_list|].
  destruct m as [x w|x|a b t ln bi|a b ln bi]; cbn [mutate];
    rewrite !elem_of_stations.
  - rewrite add_station_adj. case_decide; subst.
    + split; [auto|eauto].
    + split; [auto|]. by intros [->|?].
  - destruct (adj g !! x) as [es|] eqn:Hx.
    + rewrite remove_station_adj by eauto. case_decide; subst.
      * split; [by intros [? ?]|tauto].
      * rewrite fmap_is_Some. naive_solver.
    + unfold remove_station. rewrite Hx. split; [|tauto].
      intros Hs. split; [|done]. intros ->. rewrite Hx in Hs. by destruct Hs.
  - apply add_connection_is_Some.
  - apply remove_connection_filter.
Qed.

(** X7. A wait given to [add_station] is the wait of that station and of no
    other, and removing the station brings its wait back to the default of
    the network. *)
Theorem wait_override (g : TransportGraph) (s s' : string) (w : Qc) :
  wait_at (add_station g s (Some w)) s'
    = (if decide (s = s') then w else wait_at g s')
  ∧ wait_at (add_station g s None) s' = wait_at g s'
  ∧ wait_at (remove_station (add_station g s (Some w)) s) s'
    = (if decide (s = s') then default_transfer_wait g else wait_at g s').
Proof.
  split; [|split].
  - unfold wait_at, add_station. simpl. case_decide; subst.
    + by rewrite lookup_insert_eq.
    + by rewrite lookup_insert_ne.
  - done.
  - assert (is_Some (adj (add_station g s (Some w)) !! s)) as [es Hs].
    { rewrite add_station_adj, decide_True by done. eauto. }
    unfold wait_at, remove_station. rewrite Hs. simpl. case_decide; subst.
    + by rewrite lookup_delete_eq.
    + rewrite lookup_delete_ne, lookup_insert_ne by done. done.
Qed.

(** ** Invariants of the stores built by the mutations *)

Lemma add_connection_waits (g : TransportGraph) (a b : string) (t : Qc)
    (ln : option string) (bi : bool) :
  transfer_waits (add_connection g a b t ln bi) = transfer_waits g
  ∧ default_transfer_wait (add_connection g a b t ln bi) = default_transfer_wait g.
Proof.
  unfold add_connection. cbn [transfer_waits default_transfer_wait].
  destruct (adj g !! a); simpl; repeat case_match; done.
Qed.

Lemma mutate_default (g : TransportGraph) (m : mutation) :
  default_transfer_wait (mutate g m) = default_transfer_wait g.
Proof.
  destruct m as [x w|x|a b t ln bi|a b ln bi]; cbn [mutate]; try done.
  - unfold remove_station. by destruct (adj g !! x).
  - apply add_connection_waits.
Qed.

Lemma waits_known_mutate (g : TransportGraph) (m : mutation) :
  waits_known g -> waits_known (mutate g m).
Proof.
  intros Hg. destruct m as [x w|x|a b t ln bi|a b ln bi]; cbn [mutate]; intros s v.
  - rewrite add_station_adj. case_decide; [eauto|].
    destruct w as [w|]; simpl; [rewrite lookup_insert_ne by done|]; apply Hg.
  - destruct (adj g !! x) as [es|] eqn:Hx.
    + rewrite remove_station_adj by eauto. unfold remove_station. rewrite Hx. simpl.
      case_decide; subst; [by rewrite lookup_delete_eq|].
      rewrite lookup_delete_ne by done. intros Hs%Hg. by rewrite fmap_is_Some.
    + unfold remove_station. rewrite Hx. apply Hg.
  - rewrite (proj1 (add_connection_waits g a b t ln bi)).
    intros Hs%Hg. apply add_connection_is_Some. auto.
  - simpl. intros Hs%Hg. by apply remove_connection_filter.
Qed.

(** X8. In every store built from the empty one by the mutations, each
    station that has a transfer-wait override is a station of the store. *)
Theorem waits_known_built (w0 : Qc) (ms : list mutation) :
  waits_known (foldl mutate (new_graph w0) ms).
Proof.
  assert (waits_known (new_graph w0)) as Hinit.
  { intros s v Hs. simpl in Hs. by rewrite lookup_empty in Hs. }
  revert Hinit. generalize (new_graph w0).
  induction ms as [|m ms IH]; intros g Hg; [done|].
  simpl. apply IH. by apply waits_known_mutate.
Qed.

Lemma nonneg_durations_routes (g : TransportGraph) :
  nonneg_durations g <-> forall s e, e ∈ routes_from g s -> 0 <= time e.
Proof.
  split; [intros Hg s e; by apply nonneg_routes|].
  intros Hg s es Hs. apply Forall_forall. intros e He. apply (Hg s).
  unfold routes_from. by rewrite Hs.
Qed.

Lemma nonneg_mutate (g : TransportGraph) (m : mutation) :
  nonneg g -> nonneg_mutation m -> nonneg (mutate g m).
Proof.
  intros [Hd [Hw Hdef]] Hm. split; [|split].
  - apply nonneg_durations_routes. intros s e.
    rewrite nonneg_durations_routes in Hd.
    destruct m as [x w|x|a b t ln bi|a b ln bi]; cbn [mutate].
    + unfold routes_from. rewrite add_station_adj.
      case_decide; subst; apply Hd.
    + destruct (adj g !! x) as [es|] eqn:Hx.
      * unfold routes_from at 1. rewrite remove_station_adj by eauto.
        case_decide; [by intros ?%elem_of_nil|].
        destruct (adj g !! s) as [es'|] eqn:Hs; simpl; [|by intros ?%elem_of_nil].
        intros [_ He]%list_elem_of_filter. apply (Hd s). unfold routes_from.
        by rewrite Hs.
      * unfold remove_station. rewrite Hx. apply Hd.
    + unfold routes_from at 1.
      destruct (adj (add_connection g a b t ln bi) !! s) as [es|] eqn:Hs;
        simpl; [|by intros ?%elem_of_nil].
      intros He. destruct (add_connection_edges _ _ _ _ _ _ _ _ _ Hs He)
        as [Hin|[-> | ->]]; [by apply (Hd s)|done..].
    + rewrite (proj1 (remove_connection_filter g a b ln bi s)).
      intros [_ He]%list_elem_of_filter. by apply (Hd s).
  - intros s v.
    destruct m as [x w|x|a b t ln bi|a b ln bi]; cbn [mutate].
    + unfold add_station. simpl. destruct w as [w|]; [|apply Hw].
      destruct (decide (x = s)) as [->|Hne].
      * rewrite lookup_insert_eq. by intros [= <-].
      * rewrite lookup_insert_ne by done. apply Hw.
    + unfold remove_station. destruct (adj g !! x); [|apply Hw]. simpl.
      intros Hs. apply lookup_delete_Some in Hs as [_ Hs]. by apply (Hw s).
    + rewrite (proj1 (add_connection_waits g a b t ln bi)). apply Hw.
    + apply Hw.
  - by rewrite mutate_default.
Qed.

(** X9. A store built from the empty one, with a default wait that is not
    negative, by mutations whose durations and waits are not negative, has
    no negative duration and no negative wait. *)
Theorem nonneg_built (w0 : Qc) (ms : list mutation) :
  0 <= w0 -> Forall nonneg_mutation ms ->
  nonneg (foldl mutate (new_graph w0) ms).
Proof.
  intros Hw0 Hms.
  assert (nonneg (new_graph w0)) as Hinit.
  { split; [|split; [|done]]; intros s v Hs; simpl in Hs;
      by rewrite lookup_empty in Hs. }
  revert Hinit. generalize (new_graph w0).
  induction Hms as [|m ms Hm Hms IH]; intros g Hg; [done|].
  simpl. apply IH. by apply nonneg_mutate.
Qed.

Lemma nonneg_built_witness :
  nonneg (foldl mutate (new_graph (Q2Qc 4))
            [AddConnection "A" "B" (Q2Qc 5) (Some "1") true;
             AddStation "B" (Some (Q2Qc 2));
             RemoveConnection "B" "A" None false]).
Proof.
  apply nonneg_built.
  - vm_compute. discriminate.
  - repeat constructor; vm_compute; discriminate.
Defined.

(** ** Reachability *)

Lemma ir_push_fold (visited : gset string) (es : list Edge) (stack : list string) :
  (forall x, x ∈ foldl (ir_push visited) stack es
     <-> x ∈ stack ∨ (x ∉ visited ∧ exists e, e ∈ es ∧ to_station e = x))
  ∧ (length (foldl (ir_push visited) stack es) <= length stack + length es)%nat.
Proof.
  revert stack. induction es as [|e es IH]; intros stack; simpl.
  - split; [|lia]. intros x. split; [auto|].
    intros [Hx|[_ (e & He & _)]]; [done|by apply elem_of_nil in He].
  - destruct (IH (ir_push visited stack e)) as [Hin Hlen]. split.
    + intros x. rewrite Hin. unfold ir_push. case_decide as Hv.
      * split.
        -- intros [Hx|[Hx (e' & He' & <-)]]; [auto|]. right. split; [done|].
           exists e'. split; [by right|done].
        -- intros [Hx|[Hx (e' & He' & <-)]]; [auto|].
           apply elem_of_cons in He' as [->|He']; [done|]. right. eauto.
      * rewrite elem_of_cons. split.
        -- intros [[->|Hx]|[Hx (e' & He' & <-)]]; [|auto|].
           ++ right. split; [done|]. exists e. split; [by left|done].
           ++ right. split; [done|]. exists e'. split; [by right|done].
        -- intros [Hx|[Hx (e' & He' & <-)]]; [auto|].
           apply elem_of_cons in He' as [->|He']; [auto|]. right. eauto.
    + assert (length (ir_push visited stack e) <= S (length stack))%nat
        by (unfold ir_push; case_decide; simpl; lia).
      lia.
Qed.

Section reachability.
Variables (g : TransportGraph) (src dst : string).

Lemma ir_inv_init : ir_inv g src dst ∅ [src].
Proof.
  split.
  - intros s ->%list_elem_of_singleton. exists []. constructor.
  - set_solver.
  - set_solver.
  - right. by left.
Qed.

Lemma ir_all_seen (visited : gset string) (es : list Edge) (s : string) :
  ir_inv g src dst visited [] -> route g src es s -> s ∈ visited.
Proof.
  intros Hinv. induction 1 as [|es b e Hes IH He].
  - destruct (ir_src _ _ _ _ _ Hinv) as [?|Hs]; [done|by apply elem_of_nil in Hs].
  - destruct (ir_closed _ _ _ _ _ Hinv b e IH He) as [?|Hs];
      [done|by apply elem_of_nil in Hs].
Qed.

Lemma ir_inv_stale (visited : gset string) (cur : string) (stack : list string) :
  ir_inv g src dst visited (cur :: stack) -> cur ∈ visited ->
  ir_inv g src dst visited stack.
Proof.
  intros Hinv Hcur. split.
  - intros s Hs. apply (ir_real _ _ _ _ _ Hinv). by right.
  - apply Hinv.
  - intros v e Hv He.
    destruct (ir_closed _ _ _ _ _ Hinv v e Hv He) as [?|[->|?]%elem_of_cons]; auto.
  - destruct (ir_src _ _ _ _ _ Hinv) as [?|[->|?]%elem_of_cons]; auto.
Qed.

Lemma ir_inv_next (visited : gset string) (cur : string) (stack : list string) :
  ir_inv g src dst visited (cur :: stack) -> cur <> dst ->
  ir_inv g src dst ({[cur]} ∪ visited)
    (foldl (ir_push ({[cur]} ∪ visited)) stack (routes_from g cur)).
Proof.
  intros Hinv Hcur.
  pose proof (proj1 (ir_push_fold ({[cur]} ∪ visited) (routes_from g cur) stack))
    as Hin.
  assert (forall x, x ∈ cur :: stack ->
            x ∈ {[cur]} ∪ visited
            ∨ x ∈ foldl (ir_push ({[cur]} ∪ visited)) stack (routes_from g cur))
    as Hkeep.
  { intros x [->|Hx]%elem_of_cons; [left; set_solver|]. right. apply Hin. auto. }
  split.
  - intros s [Hs|[_ (e & He & <-)]]%Hin.
    + apply (ir_real _ _ _ _ _ Hinv). by right.
    + destruct (ir_real _ _ _ _ _ Hinv cur) as [es Hes]; [by left|].
      exists (es ++ [e]). by apply (route_snoc _ _ _ cur).
  - pose proof (ir_undone _ _ _ _ _ Hinv). set_solver.
  - intros v e [->%elem_of_singleton|Hv]%elem_of_union He.
    + destruct (decide (to_station e ∈ {[cur]} ∪ visited)) as [?|Hn]; [auto|].
      right. apply Hin. right. eauto.
    + destruct (ir_closed _ _ _ _ _ Hinv v e Hv He) as [?|Hs];
        [left; set_solver|by apply Hkeep].
  - destruct (ir_src _ _ _ _ _ Hinv) as [?|Hs]; [left; set_solver|by apply Hkeep].
Qed.

Lemma ir_loop_total (fuel : nat) (visited : gset string) (stack : list string) :
  ir_inv g src dst visited stack ->
  (length stack + pending g (seen visited) < fuel)%nat ->
  exists b, ir_loop fuel g dst visited stack = Ret b
            ∧ (b = true <-> exists es, route g src es dst).
Proof.
  revert visited stack.
  induction fuel as [|fuel IH]; intros visited stack Hinv Hfuel; [lia|].
  destruct stack as [|cur stack]; simpl.
  { exists false. split; [done|]. split; [done|]. intros [es Hes].
    destruct (ir_undone _ _ _ _ _ Hinv). by eapply ir_all_seen. }
  case_decide as Hd.
  { exists true. split; [done|]. split; [|done]. intros _. subst.
    apply (ir_real _ _ _ _ _ Hinv). by left. }
  case_decide as Hv.
  { apply IH; [by eapply ir_inv_stale|]. simpl in Hfuel. lia. }
  apply IH; [by apply ir_inv_next|].
  pose proof (proj2 (ir_push_fold ({[cur]} ∪ visited) (routes_from g cur) stack)).
  pose proof (pending_insert g (seen visited) cur (None, None)) as Hp.
  unfold seen in *. rewrite gset_to_gmap_union_singleton.
  rewrite lookup_gset_to_gmap_None in Hp. specialize (Hp Hv).
  unfold routes_from in *. simpl in Hfuel. lia.
Qed.

End reachability.

Lemma ir_answer (g : TransportGraph) (src dst : string) :
  exists b, ir_loop (sp_fuel g) g dst ∅ [src] = Ret b
            ∧ (b = true <-> exists es, route g src es dst).
Proof.
  apply ir_loop_total; [apply ir_inv_init|].
  unfold seen. rewrite gset_to_gmap_empty, pending_empty. unfold sp_fuel.
  simpl. lia.
Qed.

(** X10. [is_reachable] always answers, and it answers true exactly when
    both stations exist and a route leads from the first to the second. *)
Theorem is_reachable_route (g : TransportGraph) (src dst : string) :
  exists b, is_reachable g src dst = Ret b
    ∧ (b = true <-> is_Some (adj g !! src) ∧ is_Some (adj g !! dst)
                    ∧ exists es, route g src es dst).
Proof.
  unfold is_reachable, is_reachable_fuel.
  destruct (adj g !! src) as [es1|] eqn:Hsrc.
  2: { exists false. split; [done|]. split; [done|]. by intros [[? ?] _]. }
  destruct (adj g !! dst) as [es2|] eqn:Hdst.
  2: { exists false. split; [done|]. split; [done|]. by intros (_ & [? ?] & _). }
  destruct (ir_answer g src dst) as (b & Hb & Hroute).
  exists b. split; [done|]. rewrite Hroute. split; [eauto|]. by intros (_ & _ & ?).
Qed.

(** ** The path of [shortest_path] *)

Lemma sp_link_mono (g : TransportGraph) (src : string) (dist dist' : gmap string Qc)
    (prev prev' : gmap string (option string * option string))
    (t : Qc) (s : string) (p l : option string) :
  (forall u, is_Some (prev !! u) ->
     is_Some (prev' !! u) ∧ dist' !! u = dist !! u) ->
  sp_link g src dist prev t s p l -> sp_link g src dist' prev' t s p l.
Proof.
  intros Hmono. destruct p as [p'|]; simpl; [|done].
  intros (e & dp & Hp & Hd & He & Hs & Hl & Ht).
  destruct (Hmono p' Hp) as [Hp' Hd'].
  exists e, dp. by rewrite Hd'.
Qed.

Section sp_links.
Variable g : TransportGraph.
Variable src : string.
Hypothesis Hg : nonneg_durations g.

Lemma sp_relax_links (cur : string) (t : Qc) prev pq dist (e : Edge) :
  is_Some (prev !! cur) ->
  sp_mid g src cur t prev pq dist -> e ∈ routes_from g cur ->
  sp_links_ok g src pq dist prev ->
  exists pq1 dist1,
    sp_relax t cur (pq, dist) e = Ret (pq1, dist1)
    ∧ sp_mid g src cur t prev pq1 dist1
    ∧ sp_links_ok g src pq1 dist1 prev.
Proof.
  intros Hcur Hmid He Hlk.
  assert ((forall d, dist !! to_station e = Some d -> t + time e < d) ->
          exists pq1 dist1,
            sp_relax t cur (pq, dist) e = Ret (pq1, dist1)
            ∧ sp_mid g src cur t prev pq1 dist1
            ∧ sp_links_ok g src pq1 dist1 prev) as Hpush.
  { intros Hlt.
    destruct (sp_relax_push g src cur t prev Hg Hcur pq dist e Hmid He Hlt)
      as (pq1 & Hstep & Hperm & Hmid1).
    exists pq1, (<[to_station e := t + time e]> dist).
    split; [done|]. split; [done|].
    assert (prev !! to_station e = None) as Hfresh.
    { destruct (prev !! to_station e) as [v|] eqn:Hpe; [|done].
      destruct (mid_low _ _ _ _ _ _ _ Hmid (to_station e)) as (du & Hdu & Hle);
        [eauto|].
      specialize (Hlt du Hdu). pose proof (nonneg_routes g cur e Hg He).
      exfalso. revert Hlt. qc_arith. }
    assert (forall u, is_Some (prev !! u) ->
              is_Some (prev !! u)
              ∧ <[to_station e := t + time e]> dist !! u = dist !! u) as Hstable.
    { intros u Hu. split; [done|]. apply lookup_insert_ne. intros <-.
      rewrite Hfresh in Hu. by destruct Hu. }
    split.
    - intros x Hx. rewrite Hperm in Hx. apply elem_of_cons in Hx as [->|Hx].
      + exists e, t. split; [done|]. split; [|done].
        rewrite (proj2 (Hstable cur Hcur)). apply Hmid.
      + eapply sp_link_mono; [exact Hstable|]. by apply Hlk.
    - intros s p l Hs.
      destruct (lk_prev _ _ _ _ _ Hlk s p l Hs) as (ts & Hts & Hlink).
      exists ts. split; [by rewrite (proj2 (Hstable s ltac:(eauto)))|].
      eapply sp_link_mono; eauto. }
  destruct (dist !! to_station e) as [d|] eqn:Hd.
  - destruct (decide (t + time e < d)) as [Hlt|Hge].
    + apply Hpush. intros d' Hd'. by simplify_eq.
    + exists pq, dist. split; [by eapply sp_relax_keep|done].
  - apply Hpush. intros d' Hd'. by simplify_eq.
Qed.

Lemma sp_relax_all_links (cur : string) (t : Qc) prev (es : list Edge) pq dist :
  is_Some (prev !! cur) ->
  sp_mid g src cur t prev pq dist ->
  (forall e, e ∈ es -> e ∈ routes_from g cur) ->
  sp_links_ok g src pq dist prev ->
  exists pq2 dist2,
    for_each (sp_relax t cur) es (pq, dist) = Ret (pq2, dist2)
    ∧ sp_links_ok g src pq2 dist2 prev.
Proof.
  intros Hcur. revert pq dist.
  induction es as [|e es IH]; intros pq dist Hmid Hes Hlk.
  { by exists pq, dist. }
  destruct (sp_relax_links cur t prev pq dist e Hcur Hmid) as
    (pq1 & dist1 & Hstep & Hmid1 & Hlk1); [apply Hes; by left|done|].
  destruct (IH pq1 dist1 Hmid1) as (pq2 & dist2 & Hfold & Hlk2); [|done|].
  { intros e' He'. apply Hes. by right. }
  exists pq2, dist2. by rewrite for_each_cons, Hstep, bind_Ret.
Qed.

Lemma sp_loop_links (dst : string) (fuel : nat) pq dist prev dist' prev' :
  sp_inv g src dst pq dist prev -> sp_links_ok g src pq dist prev ->
  sp_loop fuel g dst pq dist prev = Ret (dist', prev') ->
  forall s p l, prev' !! s = Some (p, l) ->
    exists t, dist' !! s = Some t ∧ sp_link g src dist' prev' t s p l.
Proof.
  revert pq dist prev.
  induction fuel as [|fuel IH]; intros pq dist prev Hinv Hlk Hloop; [done|].
  destruct pq as [|y pq].
  { simpl in Hloop. injection Hloop as <- <-. apply Hlk. }
  destruct (heappop_total (y :: pq)) as (x & pq1 & Hpop); [done| |].
  { apply sp_distinct_comparable, Hinv. }
  destruct (sp_heappop _ _ _ (sp_heap _ _ _ _ _ _ Hinv) Hpop) as (Hheap & Hperm & Hmin).
  assert (x ∈ y :: pq) as Hx by (rewrite Hperm; by left).
  rewrite sp_loop_S, Hpop, bind_Ret in Hloop.
  destruct x as [[[t cur] p] l].
  destruct (prev !! cur) as [v|] eqn:Hp.
  { apply (IH pq1 dist prev); [| |done].
    - apply (sp_inv_stale g src dst (y :: pq) dist prev (t, cur, p, l) pq1);
        [done..|by exists v].
    - split; [|apply Hlk]. intros x' Hx'. apply Hlk. rewrite Hperm. by right. }
  pose proof (sp_mid_start g src dst _ _ _ (t, cur, p, l) pq1 Hinv Hheap Hperm Hmin Hp)
    as Hmid.
  pose proof (sp_popped_time g src dst _ _ _ (t, cur, p, l) Hinv Hx Hmin Hp) as Hd.
  pose proof (lk_pq _ _ _ _ _ Hlk (t, cur, p, l) Hx) as Hlink.
  pose proof (sp_inv_next g src dst (y :: pq) dist prev (t, cur, p, l)) as Hnext.
  change (sp_station (t, cur, p, l)) with cur in *.
  change (sp_time (t, cur, p, l)) with t in *.
  change (sp_pred (t, cur, p, l)) with p in *.
  change ((t, cur, p, l).2) with l in *.
  assert (sp_links_ok g src pq1 dist (<[cur := (p, l)]> prev)) as Hlk1.
  { assert (forall u, is_Some (prev !! u) ->
              is_Some (<[cur := (p, l)]> prev !! u) ∧ dist !! u = dist !! u)
      as Hmono.
    { intros u Hu. split; [|done]. rewrite lookup_insert_ne; [done|].
      intros <-. rewrite Hp in Hu. by destruct Hu. }
    split.
    - intros x' Hx'. eapply sp_link_mono; [exact Hmono|].
      apply Hlk. rewrite Hperm. by right.
    - intros s p' l' Hs. destruct (decide (cur = s)) as [<-|Hne].
      + rewrite lookup_insert_eq in Hs. injection Hs as <- <-.
        exists t. split; [done|]. eapply sp_link_mono; [exact Hmono|done].
      + rewrite lookup_insert_ne in Hs by done.
        destruct (lk_prev _ _ _ _ _ Hlk s p' l' Hs) as (ts & Hts & Hlink').
        exists ts. split; [done|]. eapply sp_link_mono; eauto. }
  cbv zeta in Hloop. destruct (decide (cur = dst)) as [Hdst|Hdst].
  { injection Hloop as <- <-. apply Hlk1. }
  assert (is_Some (<[cur := (p, l)]> prev !! cur)) as Hcur
    by (by rewrite lookup_insert_eq).
  destruct (sp_relax_all g src cur t _ Hg Hcur (default [] (adj g !! cur)) pq1 dist Hmid)
    as (pq2 & dist2 & Hfold & Hmid2 & Hmono & Hrel & Hlen); [done|].
  destruct (sp_relax_all_links cur t _ (default [] (adj g !! cur)) pq1 dist Hcur Hmid)
    as (pq2' & dist2' & Hfold' & Hlk2); [done|done|].
  rewrite Hfold in Hfold'. injection Hfold' as <- <-.
  rewrite Hfold, bind_Ret in Hloop.
  apply (IH pq2 dist2 (<[cur := (p, l)]> prev)); [|done|done].
  apply Hnext; try done.
  assert (length pq1 = length pq) as Hlen1.
  { apply Permutation_length in Hperm. simpl in Hperm. lia. }
  simpl. unfold routes_from. lia.
Qed.

Lemma sp_walk_route (dist : gmap string Qc)
    (prev : gmap string (option string * option string)) :
  (forall s p l, prev !! s = Some (p, l) ->
     exists t, dist !! s = Some t ∧ sp_link g src dist prev t s p l) ->
  forall (n : nat) (s : string) (path r : path_t),
    sp_walk n prev (Some s) path = Ret r ->
    exists es, route g src es s ∧ dist !! s = Some (total_time es)
               ∧ r = path ++ reverse (trace src es).
Proof.
  intros Hpost. induction n as [|n IH]; intros s path r Hwalk; [done|].
  simpl in Hwalk. destruct (prev !! s) as [[p l]|] eqn:Hs; [|done].
  destruct (Hpost s p l Hs) as (t & Hd & Hlink). destruct p as [p'|]; simpl in Hlink.
  - destruct Hlink as (e & dp & Hp' & Hdp & He & <- & <- & ->).
    destruct (IH p' _ r Hwalk) as (es & Hes & Hd' & ->).
    exists (es ++ [e]). split; [by apply (route_snoc _ _ _ p')|]. split.
    + rewrite total_time_snoc, Hd. rewrite Hdp in Hd'. by injection Hd' as ->.
    + unfold trace. rewrite map_app, app_comm_cons, reverse_app. simpl.
      by rewrite <-app_assoc.
  - destruct Hlink as (-> & -> & ->).
    assert (r = path ++ [(src, None)]) as ->
      by (destruct n; simpl in Hwalk; by injection Hwalk as <-).
    exists []. split; [constructor|]. by split.
Qed.

End sp_links.



(** ** Two-way stores *)

Lemma routes_add_connection (g : TransportGraph) (a b : string) (t : Qc)
    (ln : option string) (bi : bool) (s : string) :
  routes_from (add_connection g a b t ln bi) s
  = routes_from g s
    ++ (if decide (a = s) then [mkEdge b t ln] else [])
    ++ (if bi && bool_decide (b = s) then [mkEdge a t ln] else []).
Proof.
  unfold routes_from. rewrite add_connection_adj, with_endpoints_lookup.
  case_decide as Hd.
  - simpl. destruct (decide (a = s)); by rewrite <-?(assoc_L (++)), ?app_nil_r.
  - destruct (decide (a = s)) as [->|Ha]; [by destruct Hd; auto|].
    rewrite bool_decide_eq_false_2 by (intros ->; auto). rewrite andb_false_r.
    destruct (adj g !! s); simpl; by rewrite ?app_nil_r.
Qed.

Lemma routes_remove_station (g : TransportGraph) (s s' : string) (e : Edge) :
  is_Some (adj g !! s) ->
  e ∈ routes_from (remove_station g s) s'
  <-> s' <> s ∧ to_station e <> s ∧ e ∈ routes_from g s'.
Proof.
  intros Hs. unfold routes_from. rewrite remove_station_adj by done.
  case_decide as Hd.
  - subst. split; [by intros ?%elem_of_nil|by intros [? _]].
  - destruct (adj g !! s') as [es|]; simpl.
    + rewrite list_elem_of_filter. naive_solver.
    + split; [by intros ?%elem_of_nil|by intros (_ & _ & ?%elem_of_nil)].
Qed.

Lemma symmetric_mutate (g : TransportGraph) (m : mutation) :
  symmetric g -> two_way m -> symmetric (mutate g m).
Proof.
  intros Hg Hm. destruct m as [x w|x|a b t ln bi|a b ln bi]; cbn [mutate];
    simpl in Hm; subst; intros s e.
  - unfold routes_from. rewrite !add_station_adj.
    intros He.
    assert (e ∈ routes_from g s) as He'.
    { unfold routes_from. by case_decide; subst. }
    apply Hg in He'. unfold routes_from in He'.
    by destruct (decide (x = to_station e)) as [->|].
  - destruct (adj g !! x) as [es|] eqn:Hx.
    + rewrite !routes_remove_station by eauto.
      intros (Hs & He & Hin). split; [done|]. split; [done|]. by apply Hg.
    + unfold remove_station. rewrite Hx. apply Hg.
  - rewrite !routes_add_connection. simpl. rewrite !elem_of_app.
    intros [He|[He|He]].
    + left. by apply Hg.
    + destruct (decide (a = s)) as [->|Hne]; [|by apply elem_of_nil in He].
      apply list_elem_of_singleton in He as ->. simpl. right. right.
      rewrite bool_decide_eq_true_2 by done. by left.
    + case_bool_decide as Hb; [|by apply elem_of_nil in He]. subst.
      apply list_elem_of_singleton in He as ->. simpl. right. left.
      rewrite decide_True by done. by left.
  - rewrite (proj1 (remove_connection_filter g a b ln true s)),
      (proj1 (remove_connection_filter g a b ln true (to_station e))).
    rewrite !list_elem_of_filter. intros [Hsel He]. split; [|by apply Hg].
    intros Hsel'. apply Hsel. unfold selected, matches in *. simpl in Hsel'.
    destruct Hsel' as [[Ha Hmatch]|(_ & Hb & Hmatch)];
      apply andb_true_iff in Hmatch as [Hto%bool_decide_eq_true Hline].
    + right. split; [done|]. split; [done|].
      rewrite bool_decide_eq_true_2 by done. done.
    + left. split; [done|]. rewrite bool_decide_eq_true_2 by done. done.
Qed.

Lemma symmetric_foldl (g : TransportGraph) (ms : list mutation) :
  symmetric g -> Forall two_way ms -> symmetric (foldl mutate g ms).
Proof.
  intros Hg Hms. revert g Hg.
  induction Hms as [|m ms Hm Hms IH]; intros g Hg; [done|].
  simpl. apply IH. by apply symmetric_mutate.
Qed.

Lemma symmetric_new (w0 : Qc) : symmetric (new_graph w0).
Proof. intros a e He. by apply elem_of_nil in He. Qed.

(** X12. A store built from the empty one by mutations that add and remove
    connections in both directions only, as the default does, holds for
    every edge its reverse with the same duration and line. *)
Theorem symmetric_built (w0 : Qc) (ms : list mutation) :
  Forall two_way ms -> symmetric (foldl mutate (new_graph w0) ms).
Proof. apply symmetric_foldl, symmetric_new. Qed.

Lemma symmetric_built_witness :
  symmetric (foldl mutate (new_graph (Q2Qc 4))
               [AddConnection "A" "B" (Q2Qc 5) (Some "1") true;
                AddConnection "B" "C" (Q2Qc 5) (Some "2") true;
                RemoveStation "C";
                RemoveConnection "B" "A" None true]).
Proof. apply symmetric_built. repeat constructor. Defined.

Lemma route_cons (g : TransportGraph) (a : string) (e : Edge) (es : list Edge)
    (b : string) :
  e ∈ routes_from g a -> route g (to_station e) es b -> route g a (e :: es) b.
Proof.
  intros He. induction 1 as [|es c e' Hes IH He'].
  - apply (route_snoc g a [] a e); [constructor|done].
  - apply (route_snoc g a (e :: es) c e'); done.
Qed.

Lemma route_reverse (g : TransportGraph) (a b : string) (es : list Edge) :
  symmetric g -> route g a es b -> exists es', route g b es' a.
Proof.
  intros Hg. induction 1 as [|es c e Hes [es' IH] He].
  - exists []. constructor.
  - exists (mkEdge c (time e) (line e) :: es').
    apply route_cons; [by apply Hg|done].
Qed.

(** X13. In a store where every edge has its reverse, [is_reachable] gives
    the same answer in both directions. *)
Theorem is_reachable_symmetric (g : TransportGraph) (a b : string) :
  symmetric g -> is_reachable g a b = is_reachable g b a.
Proof.
  intros Hg. unfold is_reachable, is_reachable_fuel.
  destruct (adj g !! a) as [ea|]; destruct (adj g !! b) as [eb|]; try done.
  destruct (ir_answer g a b) as (x & -> & Hx).
  destruct (ir_answer g b a) as (y & -> & Hy).
  f_equal. apply eq_true_iff_eq. rewrite Hx, Hy.
  split; intros [es Hes]; by eapply route_reverse.
Qed.

Lemma is_reachable_symmetric_witness :
  is_reachable two_lines "A" "C" = is_reachable two_lines "C" "A".
Proof.
  apply is_reachable_symmetric.
  apply (symmetric_foldl (new_graph (Q2Qc 4))
           [AddConnection "A" "B" (Q2Qc 5) (Some "1") true;
            AddConnection "B" "C" (Q2Qc 5) (Some "2") true]).
  - apply symmetric_new.
  - repeat constructor.
Defined.

(** ** The two answers to whether a station can be reached *)



(** ** The time of the transfer-aware search *)

Lemma fr_relax_journeys (g : TransportGraph) (src : string) (mt : option Z)
    (t : Qc) (cur : string) (cl : option string) (n : nat) (es : list Edge)
    (st st2 : fr_state) (e : Edge) :
  journey g src es (cur, cl, n) t -> e ∈ routes_from g cur ->
  fr_journeys g src mt st.1.1 ->
  fr_relax g mt t cur cl n st e = Ret st2 ->
  fr_journeys g src mt st2.1.1.
Proof.
  intros Hes He Hst Hstep. destruct st as [[pq best] parent].
  apply fr_relax_cases in Hstep as [[-> _]|(Hcap & _ & pq2 & Hpush & ->)]; [done|].
  apply heappush_perm in Hpush. simpl in *.
  intros t' s l n' Hx. rewrite Hpush in Hx.
  apply elem_of_cons in Hx as [[= -> -> -> ->]|Hx]; [|by apply Hst].
  exists (es ++ [e]). split; [by apply journey_snoc|by right].
Qed.

Lemma fr_relax_all_journeys (g : TransportGraph) (src : string) (mt : option Z)
    (t : Qc) (cur : string) (cl : option string) (n : nat) (es : list Edge)
    (out : list Edge) (st st2 : fr_state) :
  journey g src es (cur, cl, n) t -> (forall e, e ∈ out -> e ∈ routes_from g cur) ->
  fr_journeys g src mt st.1.1 ->
  for_each (fr_relax g mt t cur cl n) out st = Ret st2 ->
  fr_journeys g src mt st2.1.1.
Proof.
  intros Hes. revert st. induction out as [|e out IH]; intros st Hout Hst.
  { by intros [= <-]. }
  rewrite for_each_cons. intros (st1 & Hstep & Hrest)%bind_Ret_inv.
  apply (IH st1); [|eapply fr_relax_journeys; eauto|done].
  - intros e' He'. apply Hout. by right.
  - apply Hout. by left.
Qed.

Lemma fr_loop_journey (fuel : nat) (g : TransportGraph) (src dst : string)
    (mt : option Z) (st : fr_state) (t : Qc) (path : path_t) :
  fr_journeys g src mt st.1.1 ->
  fr_loop fuel g src dst mt st = Ret (Finite t, path) ->
  exists es cl n,
    journey g src es (dst, cl, n) t ∧ (es = [] ∨ over_cap mt n = false).
Proof.
  revert st. induction fuel as [|fuel IH]; intros st Hst; [done|].
  destruct st as [[[|y pq] best] parent]; [done|].
  rewrite fr_loop_S.
  intros ([[[[t' cur] cl] n] pq1] & Hpop%heappop_perm & Hr)%bind_Ret_inv.
  simpl in Hst.
  assert (fr_journeys g src mt pq1) as Hst1.
  { intros t1 s1 l1 n1 Hx. apply Hst. rewrite Hpop. by right. }
  destruct (Hst t' cur cl n) as (es & Hes & Hcap); [rewrite Hpop; by left|].
  cbv zeta in Hr. destruct (xlt _ _); [by eapply IH; [|exact Hr]|].
  destruct (decide (cur = dst)) as [->|Hne].
  { apply bind_Ret_inv in Hr as (ps & _ & [= <- _]). eauto. }
  apply bind_Ret_inv in Hr as (st2 & Hfold & Hr).
  eapply IH; [|exact Hr].
  eapply (fr_relax_all_journeys g src mt t' cur cl n es _ (pq1, best, parent));
    [done| |exact Hst1|exact Hfold].
  done.
Qed.



Lemma journey_route (g : TransportGraph) (src : string) (es : list Edge)
    (k : fr_key) (t : Qc) :
  journey g src es k t ->
  route g src es k.1.1 ∧ (nonneg g -> total_time es <= t).
Proof.
  induction 1 as [|es cur cl n t e Hes [IHr IHt] He]; simpl in *.
  - split; [constructor|]. intros _. apply Qcle_refl.
  - split; [by apply (route_snoc _ _ _ cur)|]. intros Hg. specialize (IHt Hg).
    rewrite total_time_snoc.
    pose proof (wait_at_nonneg g cur Hg).
    destruct (transfer_step_bounds g cur cl n (line e)) as [[-> | ->] _]; qc_arith.
Qed.

(** X16. With durations and waits that are not negative, a time that
    [fastest_route_with_transfers] returns is never below the time that
    [shortest_path] returns for the same two stations, which then is a time
    and not the no-path result. *)
Theorem fastest_route_above_shortest (fuel : nat) (g : TransportGraph)
    (a b : string) (mt : option Z) (t : Qc) (path : path_t) :
  nonneg g ->
  fastest_route_with_transfers fuel g a b mt = Ret (Finite t, path) ->
  exists d path', shortest_path g a b = Ret (Finite d, path') ∧ d <= t.
Proof.
  intros Hg. unfold fastest_route_with_transfers.
  destruct (adj g !! a) as [ea|] eqn:Ha; [|done].
  destruct (adj g !! b) as [eb|] eqn:Hb; [|done].
  rewrite heappush_nil, bind_Ret. intros Hloop.
  apply fr_loop_journey in Hloop as (es & cl & n & Hes & _).
  2: { simpl. intros t' s l n [= -> -> -> ->]%list_elem_of_singleton.
       exists []. split; [constructor|by left]. }
  apply journey_route in Hes as [Hroute Htime]. specialize (Htime Hg).
  simpl in Hroute.
  destruct (shortest_path_cases g a b (proj1 Hg)) as
    [(d & path' & Hsp & _ & Hopt)|[_ Hno]]; [eauto..| |by destruct (Hno es)].
  exists d, path'. split; [done|]. specialize (Hopt es Hroute). qc_arith.
Qed.

Lemma fastest_route_above_shortest_witness :
  exists d path', shortest_path two_lines "A" "C" = Ret (Finite d, path')
                  ∧ d <= Q2Qc 14.
Proof.
  apply (fastest_route_above_shortest 6 two_lines "A" "C" None (Q2Qc 14)
           [("A", None); ("B", Some "1"); ("C", Some "2")]).
  - apply (bool_decide_unpack (nonneg two_lines)). vm_compute. exact I.
  - by vm_compute.
Defined.

(** ** A cap below zero *)

Lemma over_cap_negative (m : Z) (n : nat) : (m < 0)%Z -> over_cap (Some m) n = true.
Proof. intros Hm. simpl. apply bool_decide_eq_true_2. lia. Qed.

Lemma fr_relax_negative (g : TransportGraph) (m : Z) (t : Qc) (cur : string)
    (cl : option string) (n : nat) (es : list Edge) (st : fr_state) :
  (m < 0)%Z -> for_each (fr_relax g (Some m) t cur cl n) es st = Ret st.
Proof.
  intros Hm.
  assert (forall e, fr_relax g (Some m) t cur cl n st e = Ret st) as Hstep.
  { intros e. destruct st as [[pq best] parent]. unfold fr_relax.
    destruct (transfer_step g cur cl n (line e)) as [w n'].
    by rewrite over_cap_negative. }
  induction es as [|e es IH]; [done|].
  by rewrite for_each_cons, Hstep, bind_Ret.
Qed.

(** X17. Under a cap below zero, [fastest_route_with_transfers] between two
    different stations of the store finds no path, whatever the edges are:
    the test against the cap skips every edge, also those that change no
    line. *)
Theorem negative_cap (fuel : nat) (g : TransportGraph) (a b : string) (m : Z) :
  (m < 0)%Z -> a <> b -> is_Some (adj g !! a) -> is_Some (adj g !! b) ->
  fastest_route_with_transfers (2 + fuel) g a b (Some m) = Ret (Infinity, []).
Proof.
  intros Hm Hab [ea Ha] [eb Hb]. unfold fastest_route_with_transfers.
  rewrite Ha, Hb, heappush_nil, bind_Ret.
  change (2 + fuel)%nat with (S (S fuel)).
  rewrite fr_loop_S, heappop_singleton, bind_Ret. cbv zeta.
  rewrite best_get_singleton.
  assert (xlt (Finite 0) (Finite (0 - eps)) = false) as -> by (by vm_compute).
  rewrite decide_False by done.
  by rewrite fr_relax_negative, bind_Ret.
Qed.

Lemma negative_cap_witness :
  fastest_route_with_transfers (2 + 0) two_lines "A" "B" (Some (-1)%Z)
  = Ret (Infinity, []).
Proof.
  apply negative_cap; [lia|done|eexists; vm_compute; reflexivity..].
Defined.

(** ** The no-path result of the transfer-aware search *)

Lemma over_cap_mono (mt : option Z) (n n' : nat) :
  (n <= n')%nat -> over_cap mt n' = false -> over_cap mt n = false.
Proof.
  destruct mt as [m|]; simpl; [|done]. intros Hn Hcap%bool_decide_eq_false.
  apply bool_decide_eq_false_2. lia.
Qed.

Lemma fr_expanded_mono (g : TransportGraph) (dst : string) (mt : option Z)
    (best best' : gmap fr_key Qc) (k : fr_key) :
  (forall k', best_get best k' <> Infinity -> best_get best' k' <> Infinity) ->
  fr_expanded g dst mt best k -> fr_expanded g dst mt best' k.
Proof. intros Hmono [Hdst Hk]. split; [done|]. intros e He Hcap. auto. Qed.

Lemma fr_relax_explored (g : TransportGraph) (dst : string) (mt : option Z)
    (t : Qc) (cur : string) (cl : option string) (n : nat) (done : list Edge)
    (st st2 : fr_state) (e : Edge) :
  fr_part g dst mt (cur, cl, n) done st.1.1 st.1.2 ->
  fr_relax g mt t cur cl n st e = Ret st2 ->
  fr_part g dst mt (cur, cl, n) (done ++ [e]) st2.1.1 st2.1.2
  ∧ forall k, best_get st.1.2 k <> Infinity -> best_get st2.1.2 k <> Infinity.
Proof.
  destruct st as [[pq best] parent]. intros [Ha Hb] Hstep.
  apply fr_relax_cases in Hstep. cbv zeta in Hstep. simpl in Ha, Hb.
  destruct Hstep as [[-> Hskip]|(Hcap & Hlt & pq2 & Hpush & ->)];
    [|apply heappush_perm in Hpush]; simpl.
  - split; [|done]. split; [done|].
    intros e' [He' | ->%list_elem_of_singleton]%elem_of_app Hcap; [by apply Hb|].
    unfold fr_step in *. simpl in *.
    destruct Hskip as [Hover|Hx]; [congruence|].
    intros Hinf. by rewrite Hinf in Hx.
  - set (n' := (transfer_step g cur cl n (line e)).2) in *.
    set (nt := t + (transfer_step g cur cl n (line e)).1 + time e) in *.
    assert (forall k, best_get best k <> Infinity ->
              best_get (<[(to_station e, line e, n') := nt]> best) k <> Infinity)
      as Hmono.
    { intros k Hk. destruct (decide ((to_station e, line e, n') = k)) as [<-|Hne].
      - by rewrite best_get_insert.
      - by rewrite best_get_insert_ne. }
    split; [|done]. split.
    + intros k v Hk. destruct (decide ((to_station e, line e, n') = k)) as [<-|Hne].
      * rewrite best_get_insert in Hk. injection Hk as <-. left.
        rewrite Hpush. by left.
      * rewrite best_get_insert_ne in Hk by done.
        destruct (Ha k v Hk) as [Hin|[->|Hex]]; [|auto|].
        -- left. rewrite Hpush. by right.
        -- right. right. by eapply fr_expanded_mono.
    + intros e' [He' | ->%list_elem_of_singleton]%elem_of_app Hcap'.
      * by apply Hmono, Hb.
      * unfold fr_step. simpl. fold n'. by rewrite best_get_insert.
Qed.

Lemma fr_relax_all_explored (g : TransportGraph) (dst : string) (mt : option Z)
    (t : Qc) (cur : string) (cl : option string) (n : nat) (out done : list Edge)
    (st st2 : fr_state) :
  fr_part g dst mt (cur, cl, n) done st.1.1 st.1.2 ->
  for_each (fr_relax g mt t cur cl n) out st = Ret st2 ->
  fr_part g dst mt (cur, cl, n) (done ++ out) st2.1.1 st2.1.2
  ∧ forall k, best_get st.1.2 k <> Infinity -> best_get st2.1.2 k <> Infinity.
Proof.
  revert done st. induction out as [|e out IH]; intros done st Hst.
  { intros [= <-]. by rewrite app_nil_r. }
  rewrite for_each_cons. intros (st1 & Hstep & Hrest)%bind_Ret_inv.
  destruct (fr_relax_explored g dst mt t cur cl n done st st1 e Hst Hstep)
    as [Hst1 Hmono1].
  destruct (IH (done ++ [e]) st1 Hst1 Hrest) as [Hst2 Hmono2].
  rewrite <-app_assoc in Hst2. split; [done|auto].
Qed.

Lemma fr_loop_no_path (fuel : nat) (g : TransportGraph) (src dst : string)
    (mt : option Z) (st : fr_state) (path : path_t) :
  fr_explored g dst mt st.1.1 st.1.2 ->
  best_get st.1.2 (src, None, 0%nat) <> Infinity ->
  fr_loop fuel g src dst mt st = Ret (Infinity, path) ->
  forall es k t, journey g src es k t -> es = [] ∨ over_cap mt k.2 = false ->
    k.1.1 <> dst.
Proof.
  revert st. induction fuel as [|fuel IH]; intros st Hst Hsrc; [done|].
  destruct st as [[[|y pq] best] parent]; simpl in Hst, Hsrc.
  { intros _ es k t Hes Hcap.
    assert (best_get best k <> Infinity) as Hk.
    { revert Hcap.
      induction Hes as [|es cur cl n t e Hes IHes He]; intros Hcap; [done|].
      destruct Hcap as [Hnil|Hcap]; [by destruct es|]. simpl in Hcap.
      assert (best_get best (cur, cl, n) <> Infinity) as Hcur.
      { apply IHes. right. simpl.
        apply (over_cap_mono mt n _) in Hcap; [done|].
        destruct (transfer_step_bounds g cur cl n (line e)) as [_ [-> | ->]]; lia. }
      destruct (best_get best (cur, cl, n)) as [v|] eqn:Hv; [|done].
      destruct (Hst _ _ Hv) as [Hin|[_ Hex]]; [by apply elem_of_nil in Hin|].
      by apply (Hex e). }
    destruct (best_get best k) as [v|] eqn:Hv; [|done].
    destruct (Hst _ _ Hv) as [Hin|[Hdst _]]; [by apply elem_of_nil in Hin|done]. }
  rewrite fr_loop_S.
  intros ([[[[t' cur] cl] n] pq1] & Hpop%heappop_perm & Hr)%bind_Ret_inv.
  cbv zeta in Hr.
  destruct (xlt (best_get best (cur, cl, n)) (Finite (t' - eps))) eqn:Hstale.
  { apply (IH (pq1, best, parent)); [|done|done]. simpl.
    intros k v Hk. destruct (Hst k v Hk) as [Hin|Hex]; [|by right].
    rewrite Hpop in Hin. apply elem_of_cons in Hin as [[= -> Hk1 Hk2 Hk3]|Hin];
      [|by left].
    destruct k as [[s l] m]. simpl in *. subst.
    rewrite Hk, not_stale in Hstale. done. }
  destruct (decide (cur = dst)) as [->|Hne].
  { by apply bind_Ret_inv in Hr as (ps & _ & [=]). }
  apply bind_Ret_inv in Hr as (st2 & Hfold & Hr).
  destruct (fr_relax_all_explored g dst mt t' cur cl n (default [] (adj g !! cur))
              [] (pq1, best, parent) st2) as [[Ha Hb] Hmono]; [|exact Hfold|].
  { split; [|by intros e ?%elem_of_nil]. simpl. intros k v Hk.
    destruct (Hst k v Hk) as [Hin|Hex]; [|auto].
    rewrite Hpop in Hin. apply elem_of_cons in Hin as [[= -> Hk1 Hk2 Hk3]|Hin];
      [|by left].
    right. left. destruct k as [[s l] m]. simpl in *. by subst. }
  apply (IH st2); [|by apply Hmono|done].
  intros k v Hk. destruct (Ha k v Hk) as [Hin|[->|Hex]]; [by left| |by right].
  right. split; [done|]. intros e He. apply Hb. by rewrite app_nil_l.
Qed.



(** ** [shortest_path] with durations of any sign *)

Lemma sp_relax_safe (t : Qc) (cur : string) pq dist prev (e : Edge) :
  sp_safe pq dist prev -> is_Some (prev !! cur) ->
  exists pq1 dist1,
    sp_relax t cur (pq, dist) e = Ret (pq1, dist1)
    ∧ sp_safe pq1 dist1 prev
    ∧ (length pq1 <= S (length pq))%nat.
Proof.
  intros Hs Hcur.
  assert ((forall d, dist !! to_station e = Some d -> t + time e < d) ->
          exists pq1 dist1,
            sp_relax t cur (pq, dist) e = Ret (pq1, dist1)
            ∧ sp_safe pq1 dist1 prev
            ∧ (length pq1 <= S (length pq))%nat) as Hpush.
  { intros Hnew.
    set (x := (t + time e, to_station e, Some cur, line e) : sp_entry).
    assert (forall y, y ∈ pq -> sp_station y = to_station e -> t + time e < sp_time y)
      as Hfresh.
    { intros y Hy Hst. destruct (safe_known _ _ _ Hs y Hy) as (d & Hd & Hle).
      rewrite Hst in Hd. specialize (Hnew d Hd). qc_arith. }
    assert (forall a b, a ∈ x :: pq -> b ∈ x :: pq ->
              sp_time a = sp_time b -> sp_station a = sp_station b -> a = b) as Hdist.
    { intros a b Ha Hb Hta Hsa.
      apply elem_of_cons in Ha as [->|Ha], Hb as [->|Hb]; [done| | |].
      - specialize (Hfresh b Hb (eq_sym Hsa)). unfold x, sp_time in *. simpl in *.
        rewrite <-Hta in Hfresh. qc_arith.
      - specialize (Hfresh a Ha Hsa). unfold x, sp_time in *. simpl in *.
        rewrite Hta in Hfresh. qc_arith.
      - by apply (safe_distinct _ _ _ Hs). }
    destruct (heappush_total pq x) as [pq2 Hpush].
    { by apply sp_distinct_comparable. }
    pose proof (heappush_perm pq x pq2 Hpush) as Hperm.
    exists pq2, (<[to_station e := t + time e]> dist). split; [|split].
    { unfold sp_relax. fold x. rewrite Hpush.
      destruct (dist !! to_station e) as [d|] eqn:Hd; [|done].
      by rewrite bool_decide_eq_true_2 by auto. }
    2: { rewrite Hperm. simpl. lia. }
    assert (forall y, y ∈ pq2 <-> y = x ∨ y ∈ pq) as Hin.
    { intros y. rewrite Hperm. apply elem_of_cons. }
    split.
    - intros y [->|Hy]%Hin.
      + exists (t + time e). simpl. rewrite lookup_insert_eq. split; [done|]. qc_arith.
      + destruct (safe_known _ _ _ Hs y Hy) as (d & Hd & Hle).
        destruct (decide (to_station e = sp_station y)) as [Heq|Hneq].
        * exists (t + time e). rewrite Heq, lookup_insert_eq. split; [done|].
          specialize (Hfresh y Hy (eq_sym Heq)). qc_arith.
        * exists d. by rewrite lookup_insert_ne.
    - intros a b Ha%Hin Hb%Hin. apply Hdist; by apply elem_of_cons.
    - intros y p [->|Hy]%Hin Hp.
      + unfold x, sp_pred in Hp. simpl in Hp. by simplify_eq.
      + by apply (safe_links _ _ _ Hs y).
    - apply Hs.
    - apply Hs.
    - intros s Hps. apply (safe_dist _ _ _ Hs) in Hps.
      destruct (decide (to_station e = s)) as [<-|Hneq].
      + rewrite lookup_insert_eq. eauto.
      + by rewrite lookup_insert_ne. }
  destruct (dist !! to_station e) as [d|] eqn:Hd.
  - destruct (decide (t + time e < d)) as [Hlt|Hge].
    + apply Hpush. intros d' Hd'. by simplify_eq.
    + exists pq, dist. split; [|split; [done|lia]].
      unfold sp_relax. rewrite Hd. by rewrite bool_decide_eq_false_2.
  - apply Hpush. intros d' Hd'. by simplify_eq.
Qed.

Lemma sp_relax_all_safe (t : Qc) (cur : string) prev (es : list Edge) pq dist :
  sp_safe pq dist prev -> is_Some (prev !! cur) ->
  exists pq2 dist2,
    for_each (sp_relax t cur) es (pq, dist) = Ret (pq2, dist2)
    ∧ sp_safe pq2 dist2 prev
    ∧ (length pq2 <= length pq + length es)%nat.
Proof.
  intros Hs Hcur. revert pq dist Hs.
  induction es as [|e es IH]; intros pq dist Hs.
  { exists pq, dist. split; [done|]. split; [done|]. simpl. lia. }
  destruct (sp_relax_safe t cur pq dist prev e Hs Hcur)
    as (pq1 & dist1 & Hstep & Hs1 & Hlen1).
  destruct (IH pq1 dist1 Hs1) as (pq2 & dist2 & Hfold & Hs2 & Hlen2).
  exists pq2, dist2. rewrite for_each_cons, Hstep, bind_Ret.
  split; [done|]. split; [done|]. simpl. lia.
Qed.

Lemma sp_loop_safe (g : TransportGraph) (dst : string) (fuel : nat) pq dist prev :
  sp_safe pq dist prev ->
  (size prev + length pq + pending g prev <= S (edge_count g))%nat ->
  (length pq + pending g prev < fuel)%nat ->
  exists dist' prev',
    sp_loop fuel g dst pq dist prev = Ret (dist', prev')
    ∧ (forall s path, is_Some (prev' !! s) ->
         exists r, sp_walk (size prev') prev' (Some s) path = Ret r)
    ∧ (size prev' <= S (edge_count g))%nat
    ∧ (forall s, is_Some (prev' !! s) -> is_Some (dist' !! s)).
Proof.
  revert pq dist prev.
  induction fuel as [|fuel IH]; intros pq dist prev Hs Hbudget Hfuel; [lia|].
  destruct pq as [|y pq].
  { exists dist, prev. split; [done|]. split; [apply Hs|]. split; [lia|apply Hs]. }
  destruct (heappop_total (y :: pq)) as (x & pq1 & Hpop); [done| |].
  { apply sp_distinct_comparable, Hs. }
  pose proof (heappop_perm _ _ _ Hpop) as Hperm.
  assert (x ∈ y :: pq) as Hx by (rewrite Hperm; by left).
  assert (forall z, z ∈ pq1 -> z ∈ y :: pq) as Hsub
    by (intros z Hz; rewrite Hperm; by right).
  assert (S (length pq1) = length (y :: pq)) as Hlen1
    by (by rewrite Hperm).
  rewrite sp_loop_S, Hpop, bind_Ret.
  destruct x as [[[t cur] p] l].
  destruct (prev !! cur) as [v|] eqn:Hp.
  { apply IH.
    - split; try apply Hs.
      + intros z Hz. apply (safe_known _ _ _ Hs). auto.
      + intros a b Ha Hb. apply (safe_distinct _ _ _ Hs); auto.
      + intros z q Hz. apply (safe_links _ _ _ Hs). auto.
    - simpl in *. lia.
    - simpl in *. lia. }
  assert (forall p', p = Some p' -> is_Some (prev !! p')) as Hpred.
  { intros p' Hp'. by apply (safe_links _ _ _ Hs (t, cur, p, l)). }
  assert (forall s, is_Some (prev !! s) -> is_Some (<[cur := (p, l)]> prev !! s))
    as Hgrow.
  { intros s Hps. rewrite lookup_insert_ne; [done|]. intros <-.
    rewrite Hp in Hps. by destruct Hps. }
  assert (sp_safe pq1 dist (<[cur := (p, l)]> prev)) as Hs1.
  { split.
    - intros z Hz. apply (safe_known _ _ _ Hs). auto.
    - intros a b Ha Hb. apply (safe_distinct _ _ _ Hs); auto.
    - intros z q Hz Hq. apply Hgrow. apply (safe_links _ _ _ Hs z); auto.
    - apply sp_chain_insert; [apply Hs|done].
    - apply sp_walks_insert; [apply Hs|apply Hs|done|done].
    - intros s. destruct (decide (cur = s)) as [<-|Hne].
      + intros _. destruct (safe_known _ _ _ Hs _ Hx) as (d & Hd & _). eauto.
      + rewrite lookup_insert_ne by done. apply Hs. }
  pose proof (pending_insert g prev cur (p, l) Hp) as Hpe.
  cbv zeta. destruct (decide (cur = dst)) as [Hdst|Hdst].
  { eexists _, _. split; [reflexivity|]. split; [apply Hs1|]. split; [|apply Hs1].
    rewrite map_size_insert_None by done. simpl in Hbudget. lia. }
  destruct (sp_relax_all_safe t cur _ (default [] (adj g !! cur)) pq1 dist Hs1)
    as (pq2 & dist2 & Hfold & Hs2 & Hlen2); [by rewrite lookup_insert_eq|].
  destruct (IH pq2 dist2 (<[cur := (p, l)]> prev)) as (dist' & prev' & Hloop & Hpost).
  - done.
  - rewrite map_size_insert_None by done. simpl in *. lia.
  - simpl in *. lia.
  - exists dist', prev'. split; [|done]. by rewrite Hfold, bind_Ret.
Qed.

(** X19. [shortest_path] always answers, whatever the durations, negative
    ones included: between two stations of the store it returns a result,
    without an error of comparison or of lookup, and with a station that is
    not in the store it raises [ValueError]. *)
Theorem shortest_path_total (g : TransportGraph) (a b : string) :
  match adj g !! a, adj g !! b with
  | Some _, Some _ => exists r, shortest_path g a b = Ret r
  | _, _ => shortest_path g a b = Raise ValueError
  end.
Proof.
  unfold shortest_path, shortest_path_fuel.
  destruct (adj g !! a) as [ea|] eqn:Ha; [|done].
  destruct (adj g !! b) as [eb|] eqn:Hb; [|done].
  rewrite heappush_nil, bind_Ret.
  destruct (sp_loop_safe g b (sp_fuel g) [(0, a, None, None)] {[a := 0]} ∅)
    as (dist & prev & -> & Hwalks & Hsize & Hdist).
  - split.
    + intros x ->%list_elem_of_singleton. exists 0. unfold sp_station, sp_time.
      simpl. rewrite lookup_singleton_eq. split; [done|]. qc_arith.
    + by intros x y ->%list_elem_of_singleton ->%list_elem_of_singleton.
    + by intros x p ->%list_elem_of_singleton.
    + intros s p l Hs. by rewrite lookup_empty in Hs.
    + intros s path [? Hs]. by rewrite lookup_empty in Hs.
    + intros s [? Hs]. by rewrite lookup_empty in Hs.
  - rewrite map_size_empty, pending_empty. simpl. lia.
  - rewrite pending_empty. unfold sp_fuel. simpl. lia.
  - rewrite bind_Ret. destruct (prev !! b) as [v|] eqn:Hp; [|eauto].
    destruct (Hwalks b []) as [r Hr]; [eauto|].
    rewrite (sp_walk_fuel _ (size prev)); [|by rewrite Hr|unfold sp_fuel; lia].
    rewrite Hr, bind_Ret. destruct (Hdist b) as [d ->]; eauto.
Qed.

(** ** The transfer-aware search with durations and waits that are not negative *)

Lemma parent_get_insert (parent : gmap fr_key (fr_key * option string))
    (k : fr_key) (v : fr_key * option string) :
  parent_get (<[k := v]> parent) k = Some v.
Proof. unfold parent_get. by rewrite lookup_insert_eq. Qed.

Lemma parent_get_insert_ne (parent : gmap fr_key (fr_key * option string))
    (k k' : fr_key) (v : fr_key * option string) :
  k <> k' -> parent_get (<[k := v]> parent) k' = parent_get parent k'.
Proof. intros Hne. unfold parent_get. by rewrite lookup_insert_ne. Qed.

Lemma fr_arrive_le (g : TransportGraph) (k : fr_key) (v : Qc) (e : Edge) :
  nonneg g -> e ∈ routes_from g k.1.1 -> v <= fr_arrive g k v e.
Proof.
  intros Hg He. unfold fr_arrive.
  pose proof (nonneg_routes _ _ _ (proj1 Hg) He).
  pose proof (wait_at_nonneg g k.1.1 Hg).
  destruct (transfer_step_bounds g k.1.1 k.1.2 k.2 (line e)) as [[-> | ->] _];
    qc_arith.
Qed.

Lemma tolerance_snoc (es : list Edge) (e : Edge) :
  tolerance (es ++ [e]) = tolerance es + eps.
Proof.
  unfold tolerance. induction es as [|e' es IH]; simpl.
  - ring.
  - by rewrite IH.
Qed.

Lemma tolerance_nonneg (es : list Edge) : 0 <= tolerance es.
Proof.
  induction es as [|e' es IH]; [apply Qcle_refl|].
  change (tolerance (e' :: es)) with (tolerance es + eps).
  revert IH. generalize (tolerance es). qc_arith.
Qed.

Section fr_correct.
Variable g : TransportGraph.
Variables src dst : string.
Variable mt : option Z.
Hypothesis Hg : nonneg g.

Lemma fr_settled_later (lb lb' : Qc) best (k : fr_key) :
  lb <= lb' -> fr_settled g dst mt lb best k -> fr_settled g dst mt lb' best k.
Proof.
  intros Hlb (Hd & v & Hv & Hle & Hsucc). split; [done|].
  exists v. split; [done|]. split; [|done]. qc_arith.
Qed.

(** Lowering the best time of a state that is not settled keeps the settled
    states settled. *)
Lemma fr_settled_insert (t : Qc) best (k' : fr_key) (nt : Qc) (k : fr_key) :
  t <= nt -> (forall v, best_get best k' = Finite v -> nt + eps < v) ->
  fr_settled g dst mt t best k ->
  k <> k' ∧ fr_settled g dst mt t (<[k' := nt]> best) k.
Proof.
  intros Hnt Hlt (Hd & v & Hv & Hle & Hsucc).
  assert (k <> k') as Hne.
  { intros ->. specialize (Hlt v Hv). revert Hlt. qc_arith. }
  split; [done|]. split; [done|]. exists v.
  rewrite best_get_insert_ne by done. split; [done|]. split; [done|].
  intros e He Hcap. destruct (Hsucc e He Hcap) as (v' & Hv' & Hle').
  destruct (decide (k' = fr_step g k e)) as [Heq|Hne'].
  - exists nt. rewrite <-Heq, best_get_insert. split; [done|].
    rewrite <-Heq in Hv'. specialize (Hlt v' Hv'). revert Hlt Hle'. qc_arith.
  - exists v'. by rewrite best_get_insert_ne.
Qed.

Lemma fr_relax_mid (t : Qc) (cur : string) (cl : option string) (n : nat)
    (done : list Edge) (st st2 : fr_state) (e : Edge) :
  e ∈ routes_from g cur ->
  fr_mid g src dst mt t (cur, cl, n) done st ->
  fr_relax g mt t cur cl n st e = Ret st2 ->
  fr_mid g src dst mt t (cur, cl, n) (done ++ [e]) st2.
Proof.
  destruct st as [[pq best] parent].
  intros He (Hinv & Hbest0 & Hpar0 & Hdone) Hstep.
  apply fr_relax_cases in Hstep. cbv zeta in Hstep. simpl in Hbest0, Hpar0, Hdone.
  set (k0 := (cur, cl, n) : fr_key) in *.
  set (k' := fr_step g k0 e).
  set (nt := fr_arrive g k0 t e).
  change (transfer_step g cur cl n (line e)).2 with (k'.2) in Hstep.
  change (to_station e, line e, k'.2) with k' in Hstep.
  change (t + (transfer_step g cur cl n (line e)).1 + time e) with nt in Hstep.
  assert (t <= nt) as Hnt by (by apply fr_arrive_le).
  destruct Hstep as [[-> Hskip]|(Hcap & Hlt & pq2 & Hpush & ->)].
  { split; [done|]. split; [done|]. split; [done|].
    intros e' [He' | ->%list_elem_of_singleton]%elem_of_app Hc; [auto|].
    fold k' nt. fold k' in Hc.
    destruct Hskip as [Hover|Hx]; [congruence|].
    destruct (best_get best k') as [v'|] eqn:Hv'; [|done].
    exists v'. split; [done|]. simpl in Hx. apply bool_decide_eq_false in Hx.
    revert Hx. qc_arith. }
  destruct (fr_heappush _ _ _ (fi_heap _ _ _ _ _ _ _ Hinv) Hpush) as [Hheap2 Hperm].
  assert (forall v, best_get best k' = Finite v -> nt + eps < v) as Hlt'.
  { intros v Hv. rewrite Hv in Hlt. simpl in Hlt. by apply bool_decide_eq_true in Hlt. }
  pose proof (fi_lb _ _ _ _ _ _ _ Hinv) as Hlb.
  destruct (fi_src _ _ _ _ _ _ _ Hinv) as [Hsrc1 Hsrc2]. simpl in Hsrc1, Hsrc2.
  assert (k' <> k0) as Hne0.
  { intros Heq. rewrite Heq in Hlt'. specialize (Hlt' t Hbest0).
    revert Hlt' Hnt. qc_arith. }
  assert (k' <> fr_src src) as Hnesrc.
  { intros Heq. rewrite Heq in Hlt'. specialize (Hlt' 0 Hsrc2).
    revert Hlt' Hnt Hlb. qc_arith. }
  assert (forall y, y ∈ pq2 <-> y = (nt, to_station e, line e, k'.2) ∨ y ∈ pq) as Hin.
  { intros y. rewrite Hperm. apply elem_of_cons. }
  assert (forall k, is_Some (parent_get parent k) ->
            is_Some (parent_get (<[k' := (k0, line e)]> parent) k)) as Hpar.
  { intros k Hk. destruct (decide (k' = k)) as [<-|Hne].
    - rewrite parent_get_insert. eauto.
    - by rewrite parent_get_insert_ne. }
  split; [|split; [|split]]; simpl.
  2: { by rewrite best_get_insert_ne. }
  2: { destruct Hpar0; auto. }
  2: { intros e' [He' | ->%list_elem_of_singleton]%elem_of_app Hc.
       - destruct (Hdone e' He' Hc) as (v' & Hv' & Hle').
         destruct (decide (k' = fr_step g k0 e')) as [Heq|Hne].
         + exists nt. rewrite <-Heq, best_get_insert. split; [done|].
           rewrite <-Heq in Hv'. specialize (Hlt' v' Hv'). revert Hlt' Hle'. qc_arith.
         + exists v'. by rewrite best_get_insert_ne.
       - fold k' nt. exists nt. rewrite best_get_insert. split; [done|]. qc_arith. }
  split; simpl.
  - done.
  - intros y [-> | Hy]%Hin; [done|]. by apply (fi_low _ _ _ _ _ _ _ Hinv).
  - done.
  - intros y [-> | Hy]%Hin.
    + exists nt. change (fr_key_of (nt, to_station e, line e, k'.2)) with k'.
      rewrite best_get_insert. split; [done|]. by left.
    + destruct (fi_best _ _ _ _ _ _ _ Hinv y Hy) as (v & Hv & Hcase). simpl in Hv.
      destruct (decide (k' = fr_key_of y)) as [Heq|Hne].
      * exists nt. rewrite <-Heq, best_get_insert. split; [done|]. right.
        rewrite <-Heq in Hv. specialize (Hlt' v Hv).
        destruct Hcase as [<-|Hcase]; revert Hlt'; [|revert Hcase]; qc_arith.
      * exists v. by rewrite best_get_insert_ne.
  - intros k v Hk. destruct (decide (k' = k)) as [<-|Hne].
    + rewrite best_get_insert in Hk. injection Hk as <-. left. apply Hin. by left.
    + rewrite best_get_insert_ne in Hk by done.
      destruct (fi_open _ _ _ _ _ _ _ Hinv k v Hk) as [Hy|[Hexc|Hset]].
      * left. apply Hin. by right.
      * by right; left.
      * right. right. by apply (fr_settled_insert t best k' nt k).
  - intros k p l Hk. destruct (decide (k' = k)) as [<-|Hne].
    + rewrite parent_get_insert in Hk. injection Hk as <- <-.
      exists e, t. rewrite best_get_insert_ne by done. rewrite best_get_insert.
      split; [done|]. split; [apply Qcle_refl|]. split; [done|]. split; [done|].
      split; [done|]. split; [done|]. destruct Hpar0; auto.
    + rewrite parent_get_insert_ne in Hk by done.
      destruct (fi_link _ _ _ _ _ _ _ Hinv k p l Hk)
        as (e' & tp & Hp & Htp & He' & Hstep' & Hl & Hbk & Hpp). simpl in *.
      assert (k' <> p) as Hnep.
      { intros Heq. rewrite Heq in Hlt'. specialize (Hlt' tp Hp).
        revert Hlt' Htp Hnt. qc_arith. }
      exists e', tp. rewrite !best_get_insert_ne by done.
      split; [done|]. split; [done|]. split; [done|]. split; [done|].
      split; [done|]. split; [done|]. destruct Hpp; auto.
  - split; [by rewrite parent_get_insert_ne|by rewrite best_get_insert_ne].
  - intros y [-> | Hy]%Hin.
    + change (fr_key_of (nt, to_station e, line e, k'.2)) with k'. simpl.
      rewrite parent_get_insert. split; right; eauto.
    + destruct (fi_cap _ _ _ _ _ _ _ Hinv y Hy) as [Hc1 Hc2]. simpl in Hc1.
      split; [|done]. destruct Hc1; auto.
Qed.

Lemma fr_relax_all_mid (t : Qc) (cur : string) (cl : option string) (n : nat)
    (out done : list Edge) (st st2 : fr_state) :
  (forall e, e ∈ out -> e ∈ routes_from g cur) ->
  fr_mid g src dst mt t (cur, cl, n) done st ->
  for_each (fr_relax g mt t cur cl n) out st = Ret st2 ->
  fr_mid g src dst mt t (cur, cl, n) (done ++ out) st2.
Proof.
  revert done st. induction out as [|e out IH]; intros done st Hout Hst.
  { intros [= <-]. by rewrite app_nil_r. }
  rewrite for_each_cons. intros (st1 & Hstep & Hrest)%bind_Ret_inv.
  rewrite (assoc_L (++) done [e] out : done ++ e :: out = (done ++ [e]) ++ out).
  apply (IH (done ++ [e]) st1); [|eapply fr_relax_mid; eauto|done].
  - intros e' He'. apply Hout. by right.
  - apply Hout. by left.
Qed.

(** The journey behind the links of a state. *)
Lemma fr_walk_journey (lb : Qc) (exc : option fr_key) (st : fr_state) (fuel : nat)
    (k : fr_key) (v : Qc) (ps r : path_t) :
  fr_inv g src dst mt lb exc st ->
  fr_walk fuel st.2 k ps = Ret r ->
  k = fr_src src ∨ is_Some (parent_get st.2 k) ->
  best_get st.1.2 k = Finite v ->
  exists es, journey g src es k v
    ∧ r ++ [(src, None)] = ps ++ reverse (trace src es)
    ∧ (k = fr_src src -> es = []).
Proof.
  intros Hinv. destruct (fi_src _ _ _ _ _ _ _ Hinv) as [Hsrc1 Hsrc2].
  revert k v ps. induction fuel as [|fuel IH]; intros k v ps Hwalk Hk Hv.
  - simpl in Hwalk. fold (parent_get st.2 k) in Hwalk.
    destruct (parent_get st.2 k) as [[p l]|] eqn:Hp; [done|].
    destruct Hk as [->|[? ?]]; [|done]. injection Hwalk as <-.
    rewrite Hsrc2 in Hv. injection Hv as <-.
    exists []. split; [constructor|done].
  - simpl in Hwalk. fold (parent_get st.2 k) in Hwalk.
    destruct (parent_get st.2 k) as [[p l]|] eqn:Hp.
    + destruct (fi_link _ _ _ _ _ _ _ Hinv k p l Hp)
        as (e & tp & Hbp & _ & He & -> & -> & Hbk & Hpp).
      rewrite Hv in Hbk. injection Hbk as ->.
      destruct (IH p tp _ Hwalk Hpp Hbp) as (es & Hes & Hr & _).
      exists (es ++ [e]). split; [|split].
      * destruct p as [[s cl] n]. by apply journey_snoc.
      * rewrite Hr. unfold trace. rewrite map_app, app_comm_cons, reverse_app.
        simpl. by rewrite <-app_assoc.
      * intros Heq. rewrite Heq, Hsrc1 in Hp. done.
    + destruct Hk as [->|[? ?]]; [|done]. injection Hwalk as <-.
      rewrite Hsrc2 in Hv. injection Hv as <-.
      exists []. split; [constructor|done].
Qed.

(** A journey within the cap has a state on the frontier that it does not
    beat by more than the tolerance, or it ends in a settled state that it
    does not beat by more than the tolerance. *)
Lemma fr_reach (lb : Qc) (st : fr_state) (es : list Edge) (k : fr_key) (c : Qc) :
  fr_inv g src dst mt lb None st ->
  journey g src es k c -> es = [] ∨ over_cap mt k.2 = false ->
  (exists x, x ∈ st.1.1 ∧ fr_time x <= c + tolerance es)
  ∨ (fr_settled g dst mt lb st.1.2 k
     ∧ exists v, best_get st.1.2 k = Finite v ∧ v <= c + tolerance es).
Proof.
  intros Hinv.
  assert (forall k v c' es', best_get st.1.2 k = Finite v -> v <= c' + tolerance es' ->
            (exists x, x ∈ st.1.1 ∧ fr_time x <= c' + tolerance es')
            ∨ (fr_settled g dst mt lb st.1.2 k
               ∧ exists v, best_get st.1.2 k = Finite v ∧ v <= c' + tolerance es'))
    as Hcase.
  { intros k' v c' es' Hv Hle.
    destruct (fi_open _ _ _ _ _ _ _ Hinv k' v Hv) as [Hx|[Hexc|Hset]]; [|done|].
    - left. eexists. split; [exact Hx|done].
    - right. eauto. }
  induction 1 as [|es cur cl n t e Hes IH He]; intros Hcap.
  - apply (Hcase _ 0); [apply (fi_src _ _ _ _ _ _ _ Hinv)|].
    simpl. apply Qcle_refl.
  - destruct Hcap as [Hnil|Hcap]; [by destruct es|]. simpl in Hcap.
    pose proof (tolerance_nonneg es) as Htol.
    pose proof (fr_arrive_le g (cur, cl, n) t e Hg He) as Hcost.
    unfold fr_arrive in Hcost. simpl in Hcost.
    destruct IH as [(x & Hx & Hle)|[(_ & v & Hv & _ & Hsucc) (v0 & Hv0 & Hle)]].
    + right. simpl.
      apply (over_cap_mono mt n _) in Hcap; [done|].
      destruct (transfer_step_bounds g cur cl n (line e)) as [_ [-> | ->]]; lia.
    + left. exists x. split; [done|]. rewrite tolerance_snoc.
      revert Hle Hcost Htol. qc_arith.
    + rewrite Hv in Hv0. injection Hv0 as <-.
      destruct (Hsucc e He Hcap) as (v' & Hv' & Hle').
      unfold fr_arrive, fr_step in Hv', Hle'. simpl in Hv', Hle'.
      apply (Hcase _ v'); [done|]. rewrite tolerance_snoc.
      revert Hle Hle'. qc_arith.
Qed.

(** Dropping a stale entry. *)
Lemma fr_inv_stale (lb : Qc) pq best parent (x : fr_entry) pq1 (v : Qc) :
  fr_inv g src dst mt lb None (pq, best, parent) ->
  heap_ok fr_le pq1 -> pq ≡ₚ x :: pq1 ->
  best_get best (fr_key_of x) = Finite v -> v < fr_time x - eps ->
  fr_inv g src dst mt lb None (pq1, best, parent).
Proof.
  intros [H1 H2 H3 H4 H5 H6 H7 H8] Hheap Hperm Hv Hstale. simpl in *.
  assert (forall z, z ∈ pq1 -> z ∈ pq) as Hsub
    by (intros z Hz; rewrite Hperm; by right).
  split; simpl; auto.
  intros k v0 Hk. destruct (H5 k v0 Hk) as [Hy|[Hexc|Hset]]; [|done|auto].
  rewrite Hperm in Hy. apply elem_of_cons in Hy as [<-|Hy]; [|by left].
  destruct k as [[s l] m]. unfold fr_key_of, fr_time in *. simpl in *.
  rewrite Hv in Hk. injection Hk as ->. revert Hstale. qc_arith.
Qed.

(** The state once the least entry, which is not stale, is taken off. *)
Lemma fr_mid_start (lb : Qc) pq best parent (x : fr_entry) pq1 :
  fr_inv g src dst mt lb None (pq, best, parent) ->
  heap_ok fr_le pq1 -> pq ≡ₚ x :: pq1 -> (forall y, y ∈ pq -> fr_le x y) ->
  best_get best (fr_key_of x) = Finite (fr_time x) ->
  fr_mid g src dst mt (fr_time x) (fr_key_of x) [] (pq1, best, parent).
Proof.
  intros Hinv Hheap Hperm Hmin Hv.
  assert (x ∈ pq) as Hx by (rewrite Hperm; by left).
  assert (forall z, z ∈ pq1 -> z ∈ pq) as Hsub
    by (intros z Hz; rewrite Hperm; by right).
  pose proof (fi_low _ _ _ _ _ _ _ Hinv _ Hx) as Hlbt.
  pose proof (fi_lb _ _ _ _ _ _ _ Hinv) as Hlb.
  destruct (fi_cap _ _ _ _ _ _ _ Hinv _ Hx) as [Hcap1 _].
  split; [|split; [done|split; [done|by intros e ?%elem_of_nil]]].
  destruct Hinv as [H1 H2 H3 H4 H5 H6 H7 H8]. simpl in *.
  split; simpl; auto.
  - intros z Hz. apply (fr_le_time x z). auto.
  - revert Hlb Hlbt. qc_arith.
  - intros k v0 Hk. destruct (H5 k v0 Hk) as [Hy|[Hexc|Hset]]; [|done|].
    + rewrite Hperm in Hy. apply elem_of_cons in Hy as [<-|Hy]; [|by left].
      right. left. by destruct k as [[s l] m].
    + right. right. by apply (fr_settled_later lb).
  - intros k p l Hk.
    destruct (H6 k p l Hk) as (e & tp & Hp & Htp & He & Hstep & Hl & Hbk & Hpp).
    exists e, tp. split; [done|]. split; [|done]. revert Htp Hlbt. qc_arith.
Qed.

(** The state once every edge out of [k0] is relaxed. *)
Lemma fr_inv_next (t : Qc) (k0 : fr_key) (st : fr_state) :
  fr_mid g src dst mt t k0 (routes_from g k0.1.1) st -> k0.1.1 <> dst ->
  fr_inv g src dst mt t None st.
Proof.
  intros ([H1 H2 H3 H4 H5 H6 H7 H8] & Hb & Hp & Hdone) Hne.
  split; auto.
  intros k v0 Hk. destruct (H5 k v0 Hk) as [Hy|[[= ->]|Hset]]; [by left| |auto].
  right. right. split; [done|]. exists t. split; [done|]. split; [apply Qcle_refl|].
  done.
Qed.

Lemma fr_loop_result (fuel : nat) (lb : Qc) (st : fr_state) (t : Qc)
    (path : path_t) :
  fr_inv g src dst mt lb None st ->
  fr_loop fuel g src dst mt st = Ret (Finite t, path) ->
  (exists es cl n,
     journey g src es (dst, cl, n) t ∧ path = trace src es
     ∧ (es = [] ∨ over_cap mt n = false))
  ∧ forall es k c, journey g src es k c -> k.1.1 = dst ->
      es = [] ∨ over_cap mt k.2 = false -> t <= c + tolerance es.
Proof.
  revert lb st. induction fuel as [|fuel IH]; intros lb st Hinv; [done|].
  destruct st as [[[|y pq] best] parent]; [done|].
  rewrite fr_loop_S.
  intros ([[[[t' cur] cl] n] pq1] & Hpop & Hr)%bind_Ret_inv.
  destruct (fr_heappop _ _ _ (fi_heap _ _ _ _ _ _ _ Hinv) Hpop)
    as (Hheap1 & Hperm & Hmin). simpl in Hperm, Hmin.
  assert ((t', cur, cl, n) ∈ y :: pq) as Hx by (rewrite Hperm; by left).
  destruct (fi_best _ _ _ _ _ _ _ Hinv _ Hx) as (v & Hv & Hcase).
  destruct (fi_cap _ _ _ _ _ _ _ Hinv _ Hx) as [Hcap1 Hcap2].
  unfold fr_time, fr_key_of in Hv, Hcase, Hcap1, Hcap2.
  simpl in Hv, Hcase, Hcap1, Hcap2.
  cbv zeta in Hr. rewrite Hv in Hr.
  destruct (xlt (Finite v) (Finite (t' - eps))) eqn:Hstale.
  { apply (IH lb (pq1, best, parent)); [|done].
    simpl in Hstale. apply bool_decide_eq_true in Hstale.
    by apply (fr_inv_stale lb (y :: pq) best parent (t', cur, cl, n) pq1 v). }
  simpl in Hstale. apply bool_decide_eq_false in Hstale.
  assert (v = t') as ->.
  { destruct Hcase as [->|Hcase]; [done|]. exfalso. revert Hstale Hcase. qc_arith. }
  destruct (decide (cur = dst)) as [->|Hne].
  { apply bind_Ret_inv in Hr as (ps & Hwalk & [= <- <-]).
    destruct (fr_walk_journey lb None (y :: pq, best, parent) _ (dst, cl, n) t' [] ps
                Hinv Hwalk Hcap1 Hv) as (es & Hes & Hps & Hnil).
    split.
    - exists es, cl, n. split; [done|]. split.
      + by rewrite Hps, app_nil_l, reverse_involutive.
      + destruct Hcap2 as [Hk|Hc]; [left; by apply Hnil|by right].
    - intros es' k c Hes' Hk Hcap'.
      destruct (fr_reach lb _ es' k c Hinv Hes' Hcap') as [(z & Hz & Hle)|[[Hd _] _]];
        [|done].
      pose proof (fr_le_time _ _ (Hmin z Hz)) as Hzt.
      change (fr_time (t', dst, cl, n)) with t' in Hzt.
      revert Hzt Hle. generalize (fr_time z) (tolerance es'). qc_arith. }
  apply bind_Ret_inv in Hr as (st2 & Hfold & Hr).
  apply (IH t' st2); [|done].
  pose proof (fr_mid_start lb (y :: pq) best parent (t', cur, cl, n) pq1
                Hinv Hheap1 Hperm Hmin Hv) as Hmid.
  apply (fr_inv_next t' (cur, cl, n)); [|done].
  by apply (fr_relax_all_mid t' cur cl n _ [] (pq1, best, parent) st2).
Qed.

End fr_correct.

Lemma fr_inv_init (g : TransportGraph) (src dst : string) (mt : option Z) :
  fr_inv g src dst mt 0 None
    ([(0, src, None, 0%nat)], {[(src, None, 0%nat) := 0]}, ∅).
Proof.
  split; simpl.
  - apply heap_ok_singleton.
  - intros x ->%list_elem_of_singleton. apply Qcle_refl.
  - apply Qcle_refl.
  - intros x ->%list_elem_of_singleton. exists 0.
    unfold fr_key_of, fr_time. simpl. rewrite best_get_singleton. auto.
  - intros k v Hk. left. destruct (decide ((src, None, 0%nat) = k)) as [<-|Hne].
    + rewrite best_get_singleton in Hk. injection Hk as <-. by left.
    + by rewrite best_get_singleton_ne in Hk.
  - intros k p l Hk. unfold parent_get in Hk. by rewrite lookup_empty in Hk.
  - split; [apply lookup_empty|apply best_get_singleton].
  - intros x ->%list_elem_of_singleton. split; by left.
Qed.





(** ** The search under a cap returns *)

Lemma labelled_comparable (x y : fr_entry) :
  is_Some x.1.2 -> is_Some y.1.2 -> comparable x y.
Proof.
  destruct x as [[[t s] l] n], y as [[[t' s'] l'] n']. simpl.
  intros [a ->] [b ->]. unfold comparable. cbn -[Qcle Qclt].
  repeat (case_bool_decide; simpl); eauto.
Qed.

Lemma comparable_self (x : fr_entry) : comparable x x.
Proof.
  destruct x as [[[t s] l] n]. unfold comparable. cbn -[Qcle Qclt].
  rewrite !bool_decide_eq_true_2 by done. simpl.
  destruct l as [l|]; simpl; rewrite ?bool_decide_eq_true_2 by done; eauto.
Qed.

Lemma labelled_routes (g : TransportGraph) (s : string) (e : Edge) :
  labelled g -> e ∈ routes_from g s -> is_Some (line e).
Proof.
  intros Hg. unfold routes_from.
  destruct (adj g !! s) as [es|] eqn:Hs; simpl; [|by intros ?%elem_of_nil].
  apply Hg in Hs. rewrite Forall_forall in Hs. apply Hs.
Qed.

Lemma fr_universe_closed (g : TransportGraph) (src : string) (m : Z) (s : string)
    (e : Edge) (n : nat) :
  e ∈ routes_from g s -> over_cap (Some m) n = false ->
  (to_station e, line e, n) ∈ fr_universe g src (Z.to_nat m).
Proof.
  unfold routes_from. intros He Hcap%bool_decide_eq_false.
  destruct (adj g !! s) as [es|] eqn:Hs; simpl in He; [|by apply elem_of_nil in He].
  right. apply list_elem_of_bind. exists (s, es). split; [|by apply elem_of_map_to_list].
  apply list_elem_of_bind. exists e. split; [|done].
  apply list_elem_of_bind. exists n. split; [by left|].
  apply elem_of_seq. lia.
Qed.

Lemma fr_pending_insert (g : TransportGraph) (U : list fr_key) (D : gset fr_key)
    (k : fr_key) :
  k ∈ U -> k ∉ D ->
  (fr_pending g U ({[k]} ∪ D) + S (length (routes_from g k.1.1))
   <= fr_pending g U D)%nat.
Proof.
  intros Hk HD. unfold fr_pending.
  assert (forall U',
    (sum_list_with (fun k' => if decide (k' ∈ {[k]} ∪ D) then 0
                              else S (length (routes_from g k'.1.1))) U'
     <= sum_list_with (fun k' => if decide (k' ∈ D) then 0
                                 else S (length (routes_from g k'.1.1))) U')%nat)
    as Hmono.
  { induction U' as [|k' U' IH]; simpl; [lia|].
    repeat case_decide; try lia. set_solver. }
  induction Hk as [k U|k k' U Hk IH]; simpl.
  - specialize (Hmono U). repeat case_decide; try lia; set_solver.
  - specialize (IH HD Hmono). repeat case_decide; try lia. set_solver.
Qed.

Lemma fr_walk_insert (parent : gmap fr_key (fr_key * option string))
    (D : gset fr_key) (k' : fr_key) (v : fr_key * option string) (n : nat)
    (k : fr_key) (ps : path_t) :
  (forall k p l, parent_get parent k = Some (p, l) -> p ∈ D) ->
  k' ∉ D -> k ∈ D ->
  fr_walk n (<[k' := v]> parent) k ps = fr_walk n parent k ps.
Proof.
  intros Hpar Hk'. revert k ps. induction n as [|n IH]; intros k ps Hk.
  - simpl. fold (parent_get (<[k' := v]> parent) k) (parent_get parent k).
    rewrite parent_get_insert_ne by (intros ->; done). done.
  - simpl. fold (parent_get (<[k' := v]> parent) k) (parent_get parent k).
    rewrite parent_get_insert_ne by (intros ->; done).
    destruct (parent_get parent k) as [[p l]|] eqn:Hp; [|done].
    apply IH. by apply (Hpar k p l).
Qed.

Lemma fr_relax_unfold (g : TransportGraph) (mt : option Z) (t : Qc) (cur : string)
    (cl : option string) (n : nat) pq best parent (e : Edge) :
  fr_relax g mt t cur cl n (pq, best, parent) e =
    let k' := fr_step g (cur, cl, n) e in
    let nt := fr_arrive g (cur, cl, n) t e in
    if over_cap mt k'.2 then Ret (pq, best, parent)
    else if xlt (Finite (nt + eps)) (best_get best k') then
      pq' ← heappush pq (nt, to_station e, line e, k'.2);
      Ret (pq', <[k' := nt]> best, <[k' := ((cur, cl, n), line e)]> parent)
    else Ret (pq, best, parent).
Proof.
  unfold fr_relax, fr_step, fr_arrive. simpl.
  by destruct (transfer_step g cur cl n (line e)) as [w n'].
Qed.

Section heap_ends.
Context `{PyOrd A}.
Hypothesis Hlt : forall x y : A, py_lt x y <> OutOfFuel.

Lemma siftdown_loop_ends (n : nat) (heap : list A) (startpos pos : nat) (newitem : A) :
  siftdown_loop n heap startpos pos newitem <> OutOfFuel.
Proof.
  revert heap pos. induction n as [|n IH]; intros heap pos; simpl; [done|].
  case_decide; [|done]. destruct (heap !! parent_of pos) as [parent|]; [|done].
  destruct (py_lt newitem parent) as [b|ex|] eqn:Hb;
    [|done|by destruct (Hlt newitem parent)].
  rewrite bind_Ret. destruct b; [apply IH|done].
Qed.

Lemma siftdown_ends (heap : list A) (startpos pos : nat) :
  _siftdown heap startpos pos <> OutOfFuel.
Proof.
  unfold _siftdown. destruct (heap !! pos); [apply siftdown_loop_ends|done].
Qed.

Lemma siftup_loop_ends (n : nat) (heap : list A) (endpos pos : nat) :
  siftup_loop n heap endpos pos <> OutOfFuel.
Proof.
  revert heap pos. induction n as [|n IH]; intros heap pos; simpl; [done|].
  case_decide; [|done]. case_decide.
  - destruct (heap !! (pos + (pos + 0) + 1)%nat) as [l|]; [|done].
    destruct (heap !! (pos + (pos + 0) + 1 + 1)%nat) as [r|]; [|done].
    destruct (py_lt l r) as [b|ex|] eqn:Hb; [|done|by destruct (Hlt l r)].
    rewrite !bind_Ret. destruct (heap !! _); [apply IH|done].
  - rewrite bind_Ret. destruct (heap !! _); [apply IH|done].
Qed.

Lemma siftup_ends (heap : list A) (pos : nat) : _siftup heap pos <> OutOfFuel.
Proof.
  unfold _siftup. destruct (heap !! pos) as [newitem|]; [|done].
  destruct (siftup_loop _ _ _ _) as [[heap1 leaf]|ex|] eqn:Hup;
    [|done|by destruct (siftup_loop_ends _ _ _ _ Hup)].
  rewrite bind_Ret. apply siftdown_ends.
Qed.

Lemma heappush_ends (heap : list A) (x : A) : heappush heap x <> OutOfFuel.
Proof. apply siftdown_ends. Qed.

Lemma heappop_ends (heap : list A) : heappop heap <> OutOfFuel.
Proof.
  unfold heappop. destruct (heap !! _) as [lastelt|]; [|done].
  destruct (take _ heap) as [|returnitem rest]; [done|].
  destruct (_siftup (lastelt :: rest) 0) as [h|ex|] eqn:Hup;
    [done|done|by destruct (siftup_ends _ _ Hup)].
Qed.

End heap_ends.

Lemma fr_py_lt_ends (x y : fr_entry) : py_lt x y <> OutOfFuel.
Proof.
  destruct x as [[[t s] l] n], y as [[[t' s'] l'] n']. cbn -[Qcle Qclt].
  destruct l, l'; repeat (case_bool_decide; simpl); done.
Qed.

Section fr_returns.
Variable g : TransportGraph.
Variables src dst : string.
Variable mt : option Z.
Variable U : list fr_key.
Variable ok : option string -> Prop.
Hypothesis Hg : nonneg g.
Hypothesis Hclosed : forall k e,
  k ∈ U -> e ∈ routes_from g k.1.1 -> over_cap mt (fr_step g k e).2 = false ->
  fr_step g k e ∈ U.

(** Relaxing an edge keeps the bounds, or fails in a comparison, which it
    does not when the lines are of one kind. *)
Lemma fr_relax_safe (t : Qc) (D : gset fr_key) (cur : string)
    (cl : option string) (n : nat) (done : list Edge) (st : fr_state) (e : Edge) :
  e ∈ routes_from g cur ->
  fr_mid g src dst mt t (cur, cl, n) done st ->
  fr_safe U t D st -> (cur, cl, n) ∈ D -> (cur, cl, n) ∈ U ->
  (exists st2,
     fr_relax g mt t cur cl n st e = Ret st2
     ∧ fr_safe U t D st2
     ∧ (length st2.1.1 <= S (length st.1.1))%nat
     ∧ (fr_kind g ok -> fr_lines ok st.1.1 -> fr_lines ok st2.1.1))
  ∨ (exists ex,
       fr_relax g mt t cur cl n st e = Raise ex
       ∧ (fr_kind g ok -> ~ fr_lines ok st.1.1)).
Proof.
  destruct st as [[pq best] parent].
  intros He (Hinv & Hbest0 & _) Hsafe Hcur HcurU. simpl in Hbest0.
  rewrite fr_relax_unfold. cbv zeta.
  set (k' := fr_step g (cur, cl, n) e).
  set (nt := fr_arrive g (cur, cl, n) t e).
  assert (t <= nt) as Hnt by (by apply fr_arrive_le).
  destruct (over_cap mt k'.2) eqn:Hcap.
  { left. exists (pq, best, parent). split; [done|]. split; [done|].
    split; [simpl; lia|done]. }
  destruct (xlt (Finite (nt + eps)) (best_get best k')) eqn:Hlt; last first.
  { left. exists (pq, best, parent). split; [done|]. split; [done|].
    split; [simpl; lia|done]. }
  assert (forall v, best_get best k' = Finite v -> nt + eps < v) as Hlt'.
  { intros v Hv. rewrite Hv in Hlt. simpl in Hlt. by apply bool_decide_eq_true in Hlt. }
  set (x := (nt, to_station e, line e, k'.2) : fr_entry).
  assert (fr_kind g ok -> fr_lines ok pq -> all_comparable (x :: pq)) as Hall.
  { intros [Hok Hcmp] Hlines a b Ha Hb.
    assert (ok x.1.2) as Hxl by (by apply (Hok cur)).
    apply Hcmp.
    - apply elem_of_cons in Ha as [->|Ha]; auto.
    - apply elem_of_cons in Hb as [->|Hb]; auto. }
  destruct (heappush pq x) as [pq2|ex|] eqn:Hpush;
    [|right|by destruct (heappush_ends fr_py_lt_ends pq x)].
  2: { exists ex. split; [done|]. intros Hk Hlines.
       destruct (heappush_total pq x (Hall Hk Hlines)) as [pq2 Hpq2]. congruence. }
  left. pose proof (heappush_perm pq x pq2 Hpush) as Hperm.
  rewrite bind_Ret. eexists. split; [reflexivity|].
  destruct Hsafe as [S1 S2 S3 S4 S5]. simpl in *.
  assert (k' ∉ D) as HkD.
  { intros Hk. destruct (S3 k' Hk) as (v & Hv & Hle & _).
    specialize (Hlt' v Hv). revert Hlt' Hle Hnt. qc_arith. }
  assert (x ∉ pq) as Hxpq.
  { intros Hx. destruct (fi_best _ _ _ _ _ _ _ Hinv x Hx) as (v & Hv & Hcase).
    change (fr_key_of x) with k' in Hv. change (fr_time x) with nt in Hcase.
    simpl in Hv. specialize (Hlt' v Hv).
    destruct Hcase as [->|Hcase]; revert Hlt'; [|revert Hcase]; qc_arith. }
  assert (forall y, y ∈ pq2 <-> y = x ∨ y ∈ pq) as Hin.
  { intros y. rewrite Hperm. apply elem_of_cons. }
  split; [|split].
  - split; simpl.
    + rewrite Hperm. by constructor.
    + intros y [-> | Hy]%Hin; [|auto].
      change (fr_key_of x) with k'. by apply Hclosed.
    + intros k Hk. destruct (S3 k Hk) as (v & Hv & Hle & Hst).
      assert (k' <> k) as Hne by (by intros <-).
      exists v. rewrite best_get_insert_ne by done. split; [done|]. split; [done|].
      intros y [-> | Hy]%Hin Hky; [done|auto].
    + intros k p l Hk. destruct (decide (k' = k)) as [<-|Hne].
      * rewrite parent_get_insert in Hk. by injection Hk as <- <-.
      * rewrite parent_get_insert_ne in Hk by done. by apply (S4 k p l).
    + intros k ps Hk. rewrite (fr_walk_insert _ D); [by apply S5|done|done|done].
  - simpl. rewrite Hperm. simpl. lia.
  - intros [Hok Hcmp] Hlines y [-> | Hy]%Hin; [by apply (Hok cur)|auto].
Qed.

Lemma fr_relax_all_safe (t : Qc) (D : gset fr_key) (cur : string)
    (cl : option string) (n : nat) (out done : list Edge) (st : fr_state) :
  (forall e, e ∈ out -> e ∈ routes_from g cur) ->
  fr_mid g src dst mt t (cur, cl, n) done st ->
  fr_safe U t D st -> (cur, cl, n) ∈ D -> (cur, cl, n) ∈ U ->
  (exists st2,
     for_each (fr_relax g mt t cur cl n) out st = Ret st2
     ∧ fr_mid g src dst mt t (cur, cl, n) (done ++ out) st2
     ∧ fr_safe U t D st2
     ∧ (length st2.1.1 <= length st.1.1 + length out)%nat
     ∧ (fr_kind g ok -> fr_lines ok st.1.1 -> fr_lines ok st2.1.1))
  ∨ (exists ex,
       for_each (fr_relax g mt t cur cl n) out st = Raise ex
       ∧ (fr_kind g ok -> ~ fr_lines ok st.1.1)).
Proof.
  intros Hout Hmid Hsafe Hcur HcurU. revert done st Hout Hmid Hsafe.
  induction out as [|e out IH]; intros done st Hout Hmid Hsafe.
  { left. exists st. rewrite app_nil_r. split; [done|]. split; [done|].
    split; [done|]. split; [simpl; lia|done]. }
  assert (e ∈ routes_from g cur) as He by (apply Hout; by left).
  rewrite for_each_cons.
  destruct (fr_relax_safe t D cur cl n done st e He Hmid Hsafe Hcur HcurU)
    as [(st1 & Hstep & Hsafe1 & Hlen1 & Hlines1)|(ex & Hstep & Hno)];
    rewrite Hstep; [|right; by exists ex].
  rewrite bind_Ret.
  pose proof (fr_relax_mid g src dst mt Hg t cur cl n done st st1 e He Hmid Hstep)
    as Hmid1.
  destruct (IH (done ++ [e]) st1)
    as [(st2 & Hfold & Hmid2 & Hsafe2 & Hlen2 & Hlines2)|(ex & Hfold & Hno)];
    [|done..| |].
  { intros e' He'. apply Hout. by right. }
  - left. exists st2. split; [done|].
    rewrite <-app_assoc in Hmid2. split; [done|]. split; [done|].
    split; [simpl; lia|auto].
  - right. exists ex. split; [done|]. intros Hk Hlines. apply (Hno Hk). auto.
Qed.

(** The loop ends with enough fuel, and with a result when the lines are of
    one kind. *)
Lemma fr_loop_returns (fuel : nat) (lb : Qc) (D : gset fr_key) (st : fr_state) :
  fr_inv g src dst mt lb None st -> fr_safe U lb D st ->
  (length st.1.1 + fr_pending g U D + size D < fuel)%nat ->
  fr_loop fuel g src dst mt st <> OutOfFuel
  ∧ (fr_kind g ok -> (forall x, x ∈ st.1.1 -> ok x.1.2 ∨ st.1.1 = [x]) ->
     exists r, fr_loop fuel g src dst mt st = Ret r).
Proof.
  revert lb D st.
  induction fuel as [|fuel IH]; intros lb D st Hinv Hsafe Hfuel; [lia|].
  destruct st as [[[|y pq] best] parent]; [split; [done|by eexists]|].
  simpl in Hfuel.
  assert (fr_kind g ok -> (forall x, x ∈ y :: pq -> ok x.1.2 ∨ y :: pq = [x]) ->
          all_comparable (y :: pq)) as Hall.
  { intros [Hok Hcmp] Hlines a b Ha Hb.
    destruct (Hlines a Ha) as [Hla|Heq].
    - destruct (Hlines b Hb) as [Hlb|Heq]; [by apply Hcmp|].
      rewrite Heq in Ha. apply list_elem_of_singleton in Ha as ->.
      apply comparable_self.
    - rewrite Heq in Hb. apply list_elem_of_singleton in Hb as ->.
      apply comparable_self. }
  rewrite fr_loop_S.
  destruct (heappop (y :: pq)) as [[x pq1]|ex|] eqn:Hpop;
    [|split; [done|]|by destruct (heappop_ends fr_py_lt_ends (y :: pq))].
  2: { intros Hk Hlines.
       destruct (heappop_total (y :: pq)) as (x & pq1 & Hx); [done|auto|]. congruence. }
  destruct (fr_heappop _ _ _ (fi_heap _ _ _ _ _ _ _ Hinv) Hpop)
    as (Hheap1 & Hperm & Hmin). simpl in Hperm, Hmin.
  assert (x ∈ y :: pq) as Hx by (rewrite Hperm; by left).
  assert (forall z, z ∈ pq1 -> z ∈ y :: pq) as Hsub
    by (intros z Hz; rewrite Hperm; by right).
  assert (S (length pq1) = length (y :: pq)) as Hlen1 by (by rewrite Hperm).
  destruct Hsafe as [S1 S2 S3 S4 S5]. simpl in S1, S2, S3, S4, S5.
  assert (NoDup (x :: pq1)) as Hnd by (by rewrite <-Hperm).
  apply NoDup_cons in Hnd as [Hxpq1 Hnd1].
  assert ((forall x, x ∈ y :: pq -> ok x.1.2 ∨ y :: pq = [x]) -> fr_lines ok pq1)
    as Hlines1.
  { intros Hlines z Hz. destruct (Hlines z (Hsub z Hz)) as [?|Heq]; [done|].
    rewrite Heq in Hlen1. simpl in Hlen1. destruct pq1; [|simpl in Hlen1; lia].
    by apply elem_of_nil in Hz. }
  destruct (fi_best _ _ _ _ _ _ _ Hinv _ Hx) as (v & Hv & Hcase). simpl in Hv.
  rewrite bind_Ret.
  destruct x as [[[t cur] cl] n].
  change (fr_key_of (t, cur, cl, n)) with ((cur, cl, n) : fr_key) in *.
  change (fr_time (t, cur, cl, n)) with t in *.
  cbv zeta. rewrite Hv.
  destruct (xlt (Finite v) (Finite (t - eps))) eqn:Hstale.
  { simpl in Hstale. apply bool_decide_eq_true in Hstale.
    destruct (IH lb D (pq1, best, parent)) as [Hend Hret].
    - by apply (fr_inv_stale g src dst mt lb (y :: pq) best parent (t, cur, cl, n) pq1 v).
    - split; simpl; auto. intros k Hk. destruct (S3 k Hk) as (v' & Hv' & Hle & Hst).
      exists v'. auto.
    - simpl in *. lia.
    - split; [done|]. intros Hk Hlines. apply Hret; [done|]. simpl.
      intros z Hz. left. by apply Hlines1. }
  simpl in Hstale. apply bool_decide_eq_false in Hstale.
  assert (v = t) as ->.
  { destruct Hcase as [->|Hcase]; [done|]. exfalso. revert Hstale Hcase. qc_arith. }
  assert ((cur, cl, n) ∉ D) as HkD.
  { intros Hk. destruct (S3 _ Hk) as (v' & Hv' & _ & Hst).
    rewrite Hv in Hv'. injection Hv' as <-.
    specialize (Hst _ Hx eq_refl). revert Hst.
    change (fr_time (t, cur, cl, n)) with t. qc_arith. }
  assert (forall ps, exists r,
            fr_walk (S (size D)) parent (cur, cl, n) ps = Ret r) as Hwalk.
  { intros ps. simpl. fold (parent_get parent (cur, cl, n)).
    destruct (parent_get parent (cur, cl, n)) as [[p l]|] eqn:Hp; [|by eexists].
    apply S5. by apply (S4 (cur, cl, n) p l). }
  destruct (decide (cur = dst)) as [->|Hne].
  { destruct (Hwalk []) as [r Hr].
    rewrite (fr_walk_fuel _ (S (size D))); [|by rewrite Hr|simpl in *; lia].
    rewrite Hr, bind_Ret. split; [done|by eexists]. }
  pose proof (fr_mid_start g src dst mt lb (y :: pq) best parent (t, cur, cl, n) pq1
                Hinv Hheap1 Hperm Hmin Hv) as Hmid.
  change (fr_key_of (t, cur, cl, n)) with ((cur, cl, n) : fr_key) in Hmid.
  change (fr_time (t, cur, cl, n)) with t in Hmid.
  pose proof (fi_low _ _ _ _ _ _ _ Hinv _ Hx) as Hlbt.
  change (fr_time (t, cur, cl, n)) with t in Hlbt.
  assert (size ({[(cur, cl, n)]} ∪ D : gset fr_key) = S (size D)) as Hsize.
  { rewrite size_union by set_solver. by rewrite size_singleton. }
  assert (fr_safe U t ({[(cur, cl, n)]} ∪ D) (pq1, best, parent)) as Hsafe1.
  { split; simpl; auto.
    - intros k [->%elem_of_singleton|Hk]%elem_of_union.
      + exists t. split; [done|]. split; [apply Qcle_refl|].
        intros z Hz Hkz.
        destruct (fi_best _ _ _ _ _ _ _ Hinv z (Hsub z Hz)) as (v & Hvz & Hcz).
        simpl in Hvz. rewrite Hkz, Hv in Hvz. injection Hvz as <-.
        destruct Hcz as [Heq|Hcz]; [|done].
        destruct Hxpq1. destruct z as [[[tz sz] lz] nz].
        unfold fr_key_of, fr_time in *. simpl in *. by simplify_eq.
      + destruct (S3 k Hk) as (v' & Hv' & Hle & Hst). exists v'.
        split; [done|]. split; [revert Hle Hlbt; qc_arith|auto].
    - intros k p l Hk. apply elem_of_union. right. by apply (S4 k p l).
    - intros k ps [->%elem_of_singleton|Hk]%elem_of_union; rewrite Hsize; [done|].
      destruct (S5 k ps Hk) as [r Hr]. exists r.
      rewrite (fr_walk_fuel _ (size D)); [done|by rewrite Hr|lia]. }
  destruct (fr_relax_all_safe t ({[(cur, cl, n)]} ∪ D) cur cl n
              (default [] (adj g !! cur)) [] (pq1, best, parent))
    as [(st2 & Hfold & Hmid2 & Hsafe2 & Hlen2 & Hlines2)|(ex & Hfold & Hno)];
    [done|done|done|set_solver|by apply (S2 _ Hx)| |]; rewrite Hfold.
  2: { split; [done|]. intros Hk Hlines. destruct (Hno Hk). auto. }
  rewrite bind_Ret.
  destruct (IH t ({[(cur, cl, n)]} ∪ D) st2) as [Hend Hret].
  - by apply (fr_inv_next g src dst mt t (cur, cl, n)).
  - done.
  - pose proof (fr_pending_insert g U D (cur, cl, n) (S2 _ Hx) HkD) as Hpend.
    rewrite Hsize. simpl in *. unfold routes_from in Hpend. simpl in Hpend.
    set (pend' := fr_pending g U ({[(cur, cl, n)]} ∪ D)).
    assert (pend' + S (length (default [] (adj g !! cur))) <= fr_pending g U D)%nat
      as Hpend' by exact Hpend.
    clearbody pend'. lia.
  - split; [done|]. intros Hk Hlines. apply Hret; [done|].
    intros z Hz. left. apply Hlines2; auto.
Qed.

End fr_returns.

Lemma fr_safe_init (U : list fr_key) (src : string) :
  fr_src src ∈ U ->
  fr_safe U 0 ∅ ([(0, src, None, 0%nat)], {[(src, None, 0%nat) := 0]}, ∅).
Proof.
  intros HU. split; simpl.
  - apply NoDup_singleton.
  - by intros x ->%list_elem_of_singleton.
  - intros k Hk. by apply elem_of_empty in Hk.
  - intros k p l Hk. unfold parent_get in Hk. by rewrite lookup_empty in Hk.
  - intros k ps Hk. by apply elem_of_empty in Hk.
Qed.

(** What the search gives from its first state, with enough fuel. *)
Lemma fr_search_ends (g : TransportGraph) (a b : string) (mt : option Z)
    (U : list fr_key) (ok : option string -> Prop) :
  nonneg g -> fr_src a ∈ U ->
  (forall k e, k ∈ U -> e ∈ routes_from g k.1.1 ->
     over_cap mt (fr_step g k e).2 = false -> fr_step g k e ∈ U) ->
  is_Some (adj g !! a) -> is_Some (adj g !! b) ->
  exists fuel r, r <> OutOfFuel
    ∧ (fr_kind g ok -> exists v, r = Ret v)
    ∧ forall extra, fastest_route_with_transfers (fuel + extra) g a b mt = r.
Proof.
  intros Hg HU Hclosed [ea Ha] [eb Hb].
  destruct (fr_loop_returns g a b mt U ok Hg Hclosed
              (S (S (fr_pending g U ∅))) 0 ∅
              ([(0, a, None, 0%nat)], {[(a, None, 0%nat) := 0]}, ∅))
    as [Hend Hret].
  - apply fr_inv_init.
  - by apply fr_safe_init.
  - cbn [fst snd length]. rewrite size_empty. lia.
  - exists (S (S (fr_pending g U ∅))). eexists. split; [exact Hend|]. split.
    + intros Hk. apply Hret; [done|]. simpl.
      intros x ->%list_elem_of_singleton. by right.
    + intros extra.
      assert (fastest_route_with_transfers (S (S (fr_pending g U ∅))) g a b mt
              = fr_loop (S (S (fr_pending g U ∅))) g a b mt
                  ([(0, a, None, 0%nat)], {[(a, None, 0%nat) := 0]}, ∅)) as Hret'.
      { unfold fastest_route_with_transfers.
        by rewrite Ha, Hb, heappush_nil, bind_Ret. }
      rewrite (fastest_route_fuel _ _ _ _ (S (S (fr_pending g U ∅)))); [done| |lia].
      by rewrite Hret'.
Qed.

(** X22. With durations and waits that are not negative, every edge on a
    line and a cap on the transfers, [fastest_route_with_transfers] between
    two stations of the store returns: it neither raises nor runs on for
    ever, as it can without the cap or with edges that have no line. *)
Theorem fastest_route_returns (g : TransportGraph) (a b : string) (m : Z) :
  nonneg g -> labelled g -> is_Some (adj g !! a) -> is_Some (adj g !! b) ->
  exists fuel r, forall extra,
    fastest_route_with_transfers (fuel + extra) g a b (Some m) = Ret r.
Proof.
  intros Hg Hlab Ha Hb.
  destruct (fr_search_ends g a b (Some m) (fr_universe g a (Z.to_nat m)) is_Some Hg)
    as (fuel & r & _ & Hret & Hrun); [by left| |done|done|].
  { intros k e _. apply fr_universe_closed. }
  destruct Hret as [v ->].
  { split; [intros s e; by apply labelled_routes|apply labelled_comparable]. }
  by exists fuel, v.
Qed.

Lemma fastest_route_returns_witness :
  exists fuel r, forall extra,
    fastest_route_with_transfers (fuel + extra) two_lines "A" "C" (Some 1%Z) = Ret r.
Proof.
  apply fastest_route_returns.
  - apply (bool_decide_unpack (nonneg two_lines)). vm_compute. exact I.
  - apply (bool_decide_unpack (labelled two_lines)). vm_compute. exact I.
  - eexists. vm_compute. reflexivity.
  - eexists. vm_compute. reflexivity.
Defined.

(** ** The search over edges without lines returns *)

Lemma unlabelled_routes (g : TransportGraph) (s : string) (e : Edge) :
  unlabelled g -> e ∈ routes_from g s -> line e = None.
Proof.
  intros Hg. unfold routes_from.
  destruct (adj g !! s) as [es|] eqn:Hs; simpl; [|by intros ?%elem_of_nil].
  apply Hg in Hs. rewrite Forall_forall in Hs. apply Hs.
Qed.

Lemma unlabelled_comparable (x y : fr_entry) :
  x.1.2 = None -> y.1.2 = None -> comparable x y.
Proof.
  destruct x as [[[t s] l] n], y as [[[t' s'] l'] n']. simpl.
  intros -> ->. unfold comparable. cbn -[Qcle Qclt].
  repeat (case_bool_decide; simpl); eauto.
Qed.

Lemma fr_plain_closed (g : TransportGraph) (src : string) (k : fr_key) (e : Edge) :
  unlabelled g -> k ∈ fr_plain_universe g src -> e ∈ routes_from g k.1.1 ->
  fr_step g k e ∈ fr_plain_universe g src.
Proof.
  intros Hg Hk He.
  assert (k.1.2 = None ∧ k.2 = 0%nat) as [Hl Hn].
  { apply elem_of_cons in Hk as [->|Hk]; [done|].
    apply list_elem_of_bind in Hk as (ses & Hk & _).
    apply list_elem_of_bind in Hk as (e' & Hk & _).
    by apply list_elem_of_singleton in Hk as ->. }
  unfold fr_step. rewrite Hl, Hn, (unlabelled_routes g _ e Hg He). simpl.
  unfold routes_from in He.
  destruct (adj g !! k.1.1) as [es|] eqn:Hs; simpl in He; [|by apply elem_of_nil in He].
  right. apply list_elem_of_bind. exists (k.1.1, es).
  split; [|by apply elem_of_map_to_list].
  apply list_elem_of_bind. exists e. split; [by left|done].
Qed.

(** X23. With durations and waits that are not negative and no line on any
    edge, [fastest_route_with_transfers] between two stations of the store
    returns, with a cap on the transfers or without one. *)
Theorem plain_route_returns (g : TransportGraph) (a b : string) (mt : option Z) :
  nonneg g -> unlabelled g -> is_Some (adj g !! a) -> is_Some (adj g !! b) ->
  exists fuel r, forall extra,
    fastest_route_with_transfers (fuel + extra) g a b mt = Ret r.
Proof.
  intros Hg Hun Ha Hb.
  destruct (fr_search_ends g a b mt (fr_plain_universe g a) (fun l => l = None) Hg)
    as (fuel & r & _ & Hret & Hrun); [by left| |done|done|].
  { intros k e Hk He _. by apply fr_plain_closed. }
  destruct Hret as [v ->].
  { split; [intros s e; by apply unlabelled_routes|apply unlabelled_comparable]. }
  by exists fuel, v.
Qed.

Lemma plain_route_returns_witness :
  exists fuel r, forall extra,
    fastest_route_with_transfers (fuel + extra)
      (add_connection (new_graph (Q2Qc 4)) "A" "B" (Q2Qc 5) None true) "A" "B" None
    = Ret r.
Proof.
  apply plain_route_returns.
  - apply (bool_decide_unpack (nonneg _)). vm_compute. exact I.
  - apply (bool_decide_unpack (unlabelled _)). vm_compute. exact I.
  - eexists. vm_compute. reflexivity.
  - eexists. vm_compute. reflexivity.
Defined.

(** X24. With durations and waits that are not negative and a cap on the
    transfers, [fastest_route_with_transfers] between two stations of the
    store comes to an end, whatever the lines of the edges: it returns a
    result or raises an error of comparison, and does not run on for ever
    as it can without the cap. *)
Theorem capped_route_ends (g : TransportGraph) (a b : string) (m : Z) :
  nonneg g -> is_Some (adj g !! a) -> is_Some (adj g !! b) ->
  exists fuel r,
    ((exists v, r = Ret v) ∨ (exists ex, r = Raise ex))
    ∧ forall extra, fastest_route_with_transfers (fuel + extra) g a b (Some m) = r.
Proof.
  intros Hg Ha Hb.
  destruct (fr_search_ends g a b (Some m) (fr_universe g a (Z.to_nat m))
              (fun _ => True) Hg)
    as (fuel & r & Hend & _ & Hrun); [by left| |done|done|].
  { intros k e _. apply fr_universe_closed. }
  exists fuel, r. split; [|done]. destruct r as [v|ex|]; [eauto..|done].
Qed.

Lemma capped_route_ends_witness :
  exists fuel r,
    ((exists v, r = Ret v) ∨ (exists ex, r = Raise ex))
    ∧ forall extra,
        fastest_route_with_transfers (fuel + extra) ring "A" "C" (Some 2%Z) = r.
Proof.
  apply capped_route_ends.
  - apply (bool_decide_unpack (nonneg ring)). vm_compute. exact I.
  - eexists. vm_compute. reflexivity.
  - eexists. vm_compute. reflexivity.
Defined.

(** ** A new connection and the searches *)

Lemma new_edge_route (g : TransportGraph) (a b : string) (t : Qc)
    (ln : option string) (bi : bool) :
  route (add_connection g a b t ln bi) a [mkEdge b t ln] b.
Proof.
  apply (route_snoc _ a [] a (mkEdge b t ln)); [constructor|].
  rewrite routes_add_connection, decide_True by done.
  apply elem_of_app. right. apply elem_of_app. left. by left.
Qed.

Lemma reverse_edge_route (g : TransportGraph) (a b : string) (t : Qc)
    (ln : option string) :
  route (add_connection g a b t ln true) b [mkEdge a t ln] a.
Proof.
  apply (route_snoc _ b [] b (mkEdge a t ln)); [constructor|].
  rewrite routes_add_connection. simpl. rewrite bool_decide_eq_true_2 by done.
  apply elem_of_app. right. apply elem_of_app. right. by left.
Qed.

(** X25. Once [add_connection] has connected [a] to [b], [is_reachable]
    answers true from [a] to [b], and from [b] to [a] as well when the
    connection is bidirectional. *)
Theorem connection_reachable (g : TransportGraph) (a b : string) (t : Qc)
    (ln : option string) (bi : bool) :
  is_reachable (add_connection g a b t ln bi) a b = Ret true
  ∧ is_reachable (add_connection g a b t ln true) b a = Ret true.
Proof.
  assert (forall bi', is_Some (adj (add_connection g a b t ln bi') !! a)
                      ∧ is_Some (adj (add_connection g a b t ln bi') !! b)) as Hin.
  { intros bi'. split; apply add_connection_is_Some; auto. }
  unfold is_reachable, is_reachable_fuel. split.
  - destruct (Hin bi) as [[ea ->] [eb ->]].
    destruct (ir_answer (add_connection g a b t ln bi) a b) as (x & -> & Hx).
    f_equal. apply Hx. eexists. apply new_edge_route.
  - destruct (Hin true) as [[ea ->] [eb ->]].
    destruct (ir_answer (add_connection g a b t ln true) b a) as (x & -> & Hx).
    f_equal. apply Hx. eexists. apply reverse_edge_route.
Qed.


